(** * testing_utils: mock backends, rule matching and log capture

    A shallow embedding of the rule-matching engines
    (backends/http/http_backend.py, backends/grpc/grpc_backend.py), of the
    orchestration layer and of the log bridge (backends/api.py), together
    with the two library fragments those files lean on: Python's [re]
    patterns and the dictionary validation of the [schema] package. *)

From Stdlib Require Import List String Ascii ZArith Lia Bool Arith PeanoNat.
From Stdlib.Strings Require Import Byte.
Import ListNotations.

Local Open Scope string_scope.
Local Open Scope list_scope.

Set Warnings "-register-all".

(** ** Python strings

    A string is a sequence of characters with code points below 256, the
    Latin-1 range of Unicode. On such a string [str.lower] works character
    by character: the capital letters, A-Z and U+00C0-U+00DE without the
    multiplication sign U+00D7, go to the letter 32 places up, and every
    other character stays. [str.casefold] does the same except for two
    characters: the sharp s U+00DF is folded to [ss] and the micro sign
    U+00B5 to the Greek mu U+03BC, so a folded string is a sequence of code
    points that may lie outside the range. *)
Module PyStr.

Definition is_upper (c : ascii) : bool :=
  let n := nat_of_ascii c in
  (((65 <=? n) && (n <=? 90))
   || ((192 <=? n) && (n <=? 222) && negb (n =? 215)))%nat.

Definition lower_char (c : ascii) : ascii :=
  if is_upper c then ascii_of_nat (nat_of_ascii c + 32) else c.

(** [s.lower()]. *)
Fixpoint lower (s : string) : string :=
  match s with
  | EmptyString => EmptyString
  | String c s' => String (lower_char c) (lower s')
  end.

Definition sharp_s : ascii := ascii_of_nat 223.

Definition micro_sign : ascii := ascii_of_nat 181.

(** The folding of a character other than the sharp s. *)
Definition fold_code (c : ascii) : nat :=
  if Ascii.eqb c micro_sign then 956 else nat_of_ascii (lower_char c).

Definition casefold_char (c : ascii) : list nat :=
  if Ascii.eqb c sharp_s then [115; 115] else [fold_code c].

(** [s.casefold()], as code points. *)
Fixpoint casefold (s : string) : list nat :=
  match s with
  | EmptyString => []
  | String c s' => casefold_char c ++ casefold s'
  end.

(** [==] on folded strings. *)
Fixpoint codes_eqb (a b : list nat) : bool :=
  match a, b with
  | [], [] => true
  | x :: a', y :: b' => Nat.eqb x y && codes_eqb a' b'
  | _, _ => false
  end.

(** A string without the sharp s. *)
Fixpoint no_sharp_s (s : string) : bool :=
  match s with
  | EmptyString => true
  | String c s' => negb (Ascii.eqb c sharp_s) && no_sharp_s s'
  end.

(** Two characters that are the same up to the case of a letter. *)
Definition same_letter (c d : ascii) : bool :=
  Ascii.eqb c d
  || (is_upper c && Ascii.eqb (lower_char c) d)
  || (is_upper d && Ascii.eqb c (lower_char d)).

(** Equality of strings up to the case of their letters. *)
Fixpoint caseless_eqb (a b : string) : bool :=
  match a, b with
  | EmptyString, EmptyString => true
  | String c a', String d b' => same_letter c d && caseless_eqb a' b'
  | _, _ => false
  end.

(** All 256 characters. *)
Definition all_ascii : list ascii := map ascii_of_nat (seq 0 256).

End PyStr.

(** ** Regular expressions (the fragment of [re] the repository uses)

    Patterns in the sources and tests are built from ordinary characters,
    the dot and the postfix repetitions. [compile] parses that fragment and
    answers [None] on any other metacharacter. [Pattern.match] anchors at
    the start of the subject, [Pattern.search] tries every start offset. *)
Module Re.

Inductive regex : Type :=
| Void
| Eps
| Chr (c : ascii)
| Dot
| Cat (r1 r2 : regex)
| Alt (r1 r2 : regex)
| Star (r : regex).

Definition newline : ascii := ascii_of_nat 10.

(** The dot matches any character except a newline. *)
Definition dot_accepts (c : ascii) : bool := negb (Ascii.eqb c newline).

Fixpoint nullable (r : regex) : bool :=
  match r with
  | Void => false
  | Eps => true
  | Chr _ => false
  | Dot => false
  | Cat r1 r2 => nullable r1 && nullable r2
  | Alt r1 r2 => nullable r1 || nullable r2
  | Star _ => true
  end.

Fixpoint deriv (c : ascii) (r : regex) : regex :=
  match r with
  | Void => Void
  | Eps => Void
  | Chr d => if Ascii.eqb c d then Eps else Void
  | Dot => if dot_accepts c then Eps else Void
  | Cat r1 r2 =>
      if nullable r1
      then Alt (Cat (deriv c r1) r2) (deriv c r2)
      else Cat (deriv c r1) r2
  | Alt r1 r2 => Alt (deriv c r1) (deriv c r2)
  | Star r1 => Cat (deriv c r1) (Star r1)
  end.

(** [pattern.match(s)]: some prefix of [s] is matched. *)
Fixpoint match_ (r : regex) (s : string) {struct s} : bool :=
  nullable r ||
  match s with
  | EmptyString => false
  | String c s' => match_ (deriv c r) s'
  end.

(** [pattern.search(s)]: a match starting at some offset of [s]. *)
Fixpoint search (r : regex) (s : string) {struct s} : bool :=
  match_ r s ||
  match s with
  | EmptyString => false
  | String _ s' => search r s'
  end.

(** Characters with a special meaning in a pattern. *)
Definition is_meta (c : ascii) : bool :=
  existsb (Ascii.eqb c)
    (list_ascii_of_string "\^$*+?{}[]()|.").

Definition atom (c : ascii) : option regex :=
  if Ascii.eqb c "."%char then Some Dot
  else if is_meta c then None
  else Some (Chr c).

(** [re.compile] on the supported fragment: atoms (a character or the dot),
    each optionally followed by one of the repetitions [*], [+], [?]. *)
Fixpoint compile (p : string) : option regex :=
  match p with
  | EmptyString => Some Eps
  | String c rest =>
      match atom c with
      | None => None
      | Some a =>
          match rest with
          | String "*"%char rest' => option_map (Cat (Star a)) (compile rest')
          | String "+"%char rest' =>
              option_map (Cat (Cat a (Star a))) (compile rest')
          | String "?"%char rest' => option_map (Cat (Alt a Eps)) (compile rest')
          | _ => option_map (Cat a) (compile rest)
          end
      end
  end.

(** The language of a pattern, as a relation. *)
Inductive lang : regex -> string -> Prop :=
| LEps : lang Eps ""
| LChr c : lang (Chr c) (String c "")
| LDot c : dot_accepts c = true -> lang Dot (String c "")
| LCat r1 r2 s1 s2 :
    lang r1 s1 -> lang r2 s2 -> lang (Cat r1 r2) (s1 ++ s2)%string
| LAltL r1 r2 s : lang r1 s -> lang (Alt r1 r2) s
| LAltR r1 r2 s : lang r2 s -> lang (Alt r1 r2) s
| LStarNil r : lang (Star r) ""
| LStarApp r s1 s2 :
    lang r s1 -> lang (Star r) s2 -> lang (Star r) (s1 ++ s2)%string.

(** The pattern made of the characters of [s], each taken literally. *)
Fixpoint literal (s : string) : regex :=
  match s with
  | EmptyString => Eps
  | String c s' => Cat (Chr c) (literal s')
  end.

(** A pattern text without metacharacters. *)
Definition plain (p : string) : Prop :=
  Forall (fun c => is_meta c = false) (list_ascii_of_string p).

End Re.

(** ** Python values handed to a validator *)

(** A scalar: a query or header value, a path, a message field. *)
Inductive scalar : Type :=
| VStr (s : string)
| VInt (z : Z).

Definition scalar_eqb (a b : scalar) : bool :=
  match a, b with
  | VStr x, VStr y => String.eqb x y
  | VInt x, VInt y => Z.eqb x y
  | _, _ => false
  end.

(** A [dict] with string keys, in insertion order. *)
Definition pydict : Type := list (string * scalar).

Definition dict_keys (d : pydict) : list string := map fst d.

Fixpoint dict_get (d : pydict) (k : string) : option scalar :=
  match d with
  | [] => None
  | (k', v) :: d' => if String.eqb k' k then Some v else dict_get d' k
  end.

(** What a rule hands to [Schema.is_valid]: [None], a scalar or a dict. *)
Inductive pydata : Type :=
| DNone
| DVal (v : scalar)
| DDict (d : pydict).

(** ** The [schema] package: [Schema(s, ignore_extra_keys).is_valid(data)]

    The validators the rules of this repository are written with: literals
    (compared with [==]), [Regex] (its pattern is searched in a string), the
    types [str] and [int], [Or], and dictionaries whose keys are such
    validators, possibly wrapped in [Optional]. *)
Module Schema.

Inductive matcher : Type :=
| Lit (v : scalar)
| Regex (r : Re.regex)
| TypeStr
| TypeInt
| Or (ms : list matcher).

Inductive skey : Type :=
| Key (m : matcher)
| Optional (m : matcher).

Definition sdict : Type := list (skey * matcher).

Inductive schema : Type :=
| SNone
| SVal (m : matcher)
| SDict (d : sdict).

(** [Schema(m).validate(v)] does not raise [SchemaError]. A [Regex] applied
    to a value that is not a string meets a [TypeError], which the package
    turns into a [SchemaError]. *)
Fixpoint accepts (m : matcher) (v : scalar) : bool :=
  match m with
  | Lit l => scalar_eqb l v
  | Regex r => match v with VStr s => Re.search r s | VInt _ => false end
  | TypeStr => match v with VStr _ => true | VInt _ => false end
  | TypeInt => match v with VInt _ => true | VStr _ => false end
  | Or ms => existsb (fun m' => accepts m' v) ms
  end.

Definition key_matcher (k : skey) : matcher :=
  match k with Key m => m | Optional m => m end.

Definition is_optional (k : skey) : bool :=
  match k with Key _ => false | Optional _ => true end.

(** [Schema(skey).validate(key)] on a dictionary key, which is a string. *)
Definition key_accepts (k : skey) (key : string) : bool :=
  accepts (key_matcher k) (VStr key).

(** [_priority], doubled so that the half steps of [_dict_key_priority]
    stay integers: COMPARABLE = 0, VALIDATOR = 2, TYPE = 3. *)
Definition priority (m : matcher) : nat :=
  match m with
  | Lit _ => 0
  | Regex _ => 4
  | Or _ => 4
  | TypeStr => 6
  | TypeInt => 6
  end.

Definition dict_key_priority (k : skey) : nat :=
  match k with
  | Key m => priority m
  | Optional m => priority m + 1
  end.

(** A schema entry with its position in the schema dictionary, which stands
    for the identity of the key object. *)
Definition entry : Type := (nat * (skey * matcher))%type.

Definition entry_priority (e : entry) : nat := dict_key_priority (fst (snd e)).

Fixpoint index_from (n : nat) (d : sdict) : list entry :=
  match d with
  | [] => []
  | kv :: d' => (n, kv) :: index_from (S n) d'
  end.

Definition indexed (d : sdict) : list entry := index_from 0 d.

(** [sorted(s, key=_dict_key_priority)]: a stable sort. *)
Fixpoint insert_entry (e : entry) (l : list entry) : list entry :=
  match l with
  | [] => [e]
  | e' :: l' =>
      if (entry_priority e <=? entry_priority e')%nat
      then e :: e' :: l'
      else e' :: insert_entry e l'
  end.

Definition sorted_skeys (d : sdict) : list entry :=
  fold_right insert_entry [] (indexed d).

(** The inner loop over the sorted schema keys for one item of the data:
    the first key that accepts the item's key decides; a value it rejects
    raises [SchemaError] (outer [None]); [Some None] when no key accepts. *)
Fixpoint validate_item (sorted : list entry) (key : string) (value : scalar)
  : option (option nat) :=
  match sorted with
  | [] => Some None
  | (i, (sk, sv)) :: rest =>
      if key_accepts sk key
      then if accepts sv value then Some (Some i) else None
      else validate_item rest key value
  end.

(** [new[nkey] = nvalue] and [coverage.add(skey)], kept as duplicate-free
    lists of keys and of entry positions. *)
Definition add_key (k : string) (new : list string) : list string :=
  if existsb (String.eqb k) new then new else new ++ [k].

Definition add_index (i : nat) (coverage : list nat) : list nat :=
  if existsb (Nat.eqb i) coverage then coverage else coverage ++ [i].

(** The outer loop over the items of the data. *)
Fixpoint validate_items (sorted : list entry) (items : pydict)
  (new : list string) (coverage : list nat)
  : option (list string * list nat) :=
  match items with
  | [] => Some (new, coverage)
  | (key, value) :: rest =>
      match validate_item sorted key value with
      | None => None
      | Some None => validate_items sorted rest new coverage
      | Some (Some i) =>
          validate_items sorted rest (add_key key new) (add_index i coverage)
      end
  end.

(** [required.issubset(coverage)], required being the keys that are not
    [Optional]. *)
Definition required_covered (d : sdict) (coverage : list nat) : bool :=
  forallb
    (fun e : entry =>
       is_optional (fst (snd e)) || existsb (Nat.eqb (fst e)) coverage)
    (indexed d).

(** Validation of a dictionary: [true] when no [SchemaError] is raised. *)
Definition validate_dict (ignore_extra_keys : bool) (d : sdict) (data : pydict)
  : bool :=
  match validate_items (sorted_skeys d) data [] [] with
  | None => false
  | Some (new, coverage) =>
      if negb (required_covered d coverage) then false
      else if negb ignore_extra_keys
              && negb (List.length new =? List.length data)%nat then false
      else true
  end.

Definition is_valid (ignore_extra_keys : bool) (s : schema) (data : pydata)
  : bool :=
  match s, data with
  | SNone, DNone => true
  | SNone, _ => false
  | SVal m, DVal v => accepts m v
  | SVal _, _ => false
  | SDict d, DDict dd => validate_dict ignore_extra_keys d dd
  | SDict _, _ => false
  end.

(** [Regex(p)] for a pattern given as text; a pattern outside the supported
    fragment accepts nothing here. *)
Definition regex_of (p : string) : matcher :=
  match Re.compile p with
  | Some r => Regex r
  | None => Or []
  end.

(** A validator dictionary whose keys are all plain strings, none of them
    [Optional]: [{k1: m1, k2: m2, ...}]. *)
Definition literal_dict (l : list (string * matcher)) : sdict :=
  map (fun km => (Key (Lit (VStr (fst km))), snd km)) l.

(** The first entry of [l] under the key [key], with its position counted
    from [n]. *)
Fixpoint literal_find (key : string) (l : list (string * matcher)) (n : nat)
  : option (nat * matcher) :=
  match l with
  | [] => None
  | (k, m) :: l' =>
      if String.eqb k key then Some (n, m) else literal_find key l' (S n)
  end.

(** The match against a validator with plain string keys, spelled out:
    every key of the validator is in the actual mapping with a value its
    validator accepts and, unless extra keys are tolerated, the two key
    sets are equal. *)
Definition keys_match (tolerance : bool) (l : list (string * matcher))
  (actual : pydict) : Prop :=
  (forall k m, In (k, m) l ->
     exists v, dict_get actual k = Some v /\ accepts m v = true) /\
  (tolerance = false ->
   forall k, In k (dict_keys actual) <-> In k (map fst l)).

(** The match of a mapping validator as the specification words it: every
    key of the validator is present in the actual mapping with a value that
    satisfies its validator, and, unless the tolerance flag is set, the
    actual mapping has no key besides those of the validator. A key of the
    validator that is a pattern counts as present when it accepts some
    actual key. *)
Definition spec_mapping_match (tolerance : bool) (validator : sdict)
  (actual : pydict) : Prop :=
  (forall sk sv, In (sk, sv) validator ->
     exists k v, In (k, v) actual /\ key_accepts sk k = true
                 /\ accepts sv v = true) /\
  (tolerance = false ->
   forall k, In k (dict_keys actual) ->
     exists sk sv, In (sk, sv) validator /\ key_accepts sk k = true).

End Schema.

(** ** backends/http/http_results.py and backends/http/http_backend.py *)
Module HTTP.
Import Schema.

(** The parts of [web.Request] the rules read. [rel_url_query] and
    [req_headers] are the mappings obtained by [dict(request.rel_url.query)]
    and [dict(request.headers)]. *)
Record Request : Type := {
  req_method : string;
  rel_url_path : string;
  rel_url_query : list (string * string);
  req_headers : list (string * string)
}.

Definition to_dict (m : list (string * string)) : pydict :=
  map (fun kv => (fst kv, VStr (snd kv))) m.

(** A JSON document, as far as the error body needs it. *)
Inductive json : Type :=
| JStr (s : string)
| JObj (fields : list (string * json)).

Inductive payload : Type :=
| Body (data : string)
| JsonBody (j : json).

Record Response : Type := {
  resp_body : payload;
  resp_status : Z
}.

(** [IHTTPResult]: the fixed [HTTPResult(data, status)] or a subclass with
    its own [process]. *)
Inductive IHTTPResult : Type :=
| HTTPResult (data : string) (status : Z)
| CustomResult (process_ : Request -> Response).

Definition process (r : IHTTPResult) (request : Request) : Response :=
  match r with
  | HTTPResult data status => {| resp_body := Body data; resp_status := status |}
  | CustomResult f => f request
  end.

(** [path: Optional[Union[str, Regex]]]. *)
Inductive path_spec : Type :=
| PathStr (s : string)
| PathRegex (r : Re.regex).

Definition path_matcher (p : path_spec) : matcher :=
  match p with
  | PathStr s => Lit (VStr s)
  | PathRegex r => Regex r
  end.

Record HTTPRule : Type := {
  method : option string;
  path : option path_spec;
  query_params : option sdict;
  ignore_extra_query_params : bool;
  headers : option sdict;
  ignore_extra_headers : bool;
  result : IHTTPResult
}.

(** [HTTPRule()] with every default. *)
Definition default_rule : HTTPRule := {|
  method := None;
  path := None;
  query_params := None;
  ignore_extra_query_params := false;
  headers := None;
  ignore_extra_headers := false;
  result := HTTPResult "HTTP BACKEND RESULT" 200
|}.

Definition method_mathes (self : HTTPRule) (request : Request) : bool :=
  match method self with
  | None => true
  | Some m => String.eqb (PyStr.lower (req_method request)) (PyStr.lower m)
  end.

Definition path_matches (self : HTTPRule) (request : Request) : bool :=
  let path_ :=
    match path self with
    | None => DNone
    | Some _ => DVal (VStr (rel_url_path request))
    end in
  let s :=
    match path self with
    | None => SNone
    | Some p => SVal (path_matcher p)
    end in
  is_valid false s path_.

(** [Schema(attr, ignore_extra_keys=flag)] for an optional dict attribute. *)
Definition dict_schema (attr : option sdict) : schema :=
  match attr with
  | None => SNone
  | Some d => SDict d
  end.

Definition query_params_match (self : HTTPRule) (request : Request) : bool :=
  let query :=
    match query_params self with
    | None => DNone
    | Some _ => DDict (to_dict (rel_url_query request))
    end in
  is_valid (ignore_extra_query_params self) (dict_schema (query_params self))
    query.

Definition headers_match (self : HTTPRule) (request : Request) : bool :=
  let headers_ :=
    match headers self with
    | None => DNone
    | Some _ => DDict (to_dict (req_headers request))
    end in
  is_valid (ignore_extra_headers self) (dict_schema (headers self)) headers_.

Definition matches (self : HTTPRule) (request : Request) : bool :=
  method_mathes self request
  && path_matches self request
  && query_params_match self request
  && headers_match self request.

Definition json_of_dict (m : list (string * string)) : json :=
  JObj (map (fun kv => (fst kv, JStr (snd kv))) m).

(** [web.json_response(data, status=...)]. *)
Definition json_response (data : json) (status : Z) : Response :=
  {| resp_body := JsonBody data; resp_status := status |}.

Definition no_match_response (request : Request) : Response :=
  let incoming_request_info :=
    JObj [ ("method", JStr (req_method request));
           ("path", JStr (rel_url_path request));
           ("query_params", json_of_dict (rel_url_query request));
           ("headers", json_of_dict (req_headers request)) ] in
  let error_response_json :=
    JObj [ ("ERROR", JStr "No matching rule found for incoming request");
           ("incoming_request_info", incoming_request_info) ] in
  json_response error_response_json 404.

(** The loop of [HTTPBackend.handle]. Besides the response of the rule that
    returned, it reports the rules whose [matches] was called, in order. *)
Fixpoint handle_loop (rules : list HTTPRule) (request : Request)
  : list HTTPRule * option Response :=
  match rules with
  | [] => ([], None)
  | rule :: rest =>
      if matches rule request
      then ([rule], Some (process (result rule) request))
      else
        let (seen, r) := handle_loop rest request in
        (rule :: seen, r)
  end.

Definition consulted (rules : list HTTPRule) (request : Request)
  : list HTTPRule := fst (handle_loop rules request).

Definition handle (rules : list HTTPRule) (request : Request) : Response :=
  match snd (handle_loop rules request) with
  | Some response => response
  | None => no_match_response request
  end.

End HTTP.

(** ** backends/grpc/grpc_backend.py *)
Module GRPC.
Import Schema.

Definition bytes : Type := list byte.

(** A decoded protobuf message, seen through [ListFields()]: the set fields
    with their names and values. *)
Record Message : Type := {
  ListFields : list (string * scalar)
}.

(** A message class, seen through [FromString]; [None] stands for the
    [DecodeError] raised on bytes that do not parse. *)
Record MessageClass : Type := {
  FromString : bytes -> option Message
}.

Record GRPCRule : Type := {
  request_msg_cls : MessageClass;
  output_handler : Message -> bytes;
  grpc_method : option string;
  message_args : option sdict;
  ignore_extra_message_args : bool
}.

Definition method_matches (self : GRPCRule) (method : string) : bool :=
  match grpc_method self with
  | None => true
  | Some m => PyStr.codes_eqb (PyStr.casefold method) (PyStr.casefold m)
  end.

(** [d[k] = v]. *)
Fixpoint dict_set (k : string) (v : scalar) (d : pydict) : pydict :=
  match d with
  | [] => [(k, v)]
  | (k', v') :: d' =>
      if String.eqb k' k then (k', v) :: d' else (k', v') :: dict_set k v d'
  end.

(** [{field[0].name: field[1] for field in message_.ListFields()}]. *)
Definition fields_dict (message_ : Message) : pydict :=
  fold_left (fun d kv => dict_set (fst kv) (snd kv) d) (ListFields message_) [].

Definition message_args_match (self : GRPCRule) (message_ : Message) : bool :=
  match message_args self with
  | None => true
  | Some d =>
      is_valid (ignore_extra_message_args self) (SDict d)
        (DDict (fields_dict message_))
  end.

Inductive StatusCode : Type :=
| OK
| INVALID_ARGUMENT
| NOT_FOUND
| INTERNAL.

(** The servicer context: what [abort] was called with, if it was. *)
Record Context : Type := {
  aborted : option (StatusCode * string)
}.

Definition fresh_context : Context := {| aborted := None |}.

Definition abort (code : StatusCode) (details : string) (context : Context)
  : Context := {| aborted := Some (code, details) |}.

Inductive exn : Type :=
| DecodeError.

(** How a call of [_handler] ends: it returns [Optional[bytes]] having
    acted on the context, or an exception leaves it. *)
Inductive outcome : Type :=
| Returned (response : option bytes) (context : Context)
| Raised (e : exn).

Inductive loop_result : Type :=
| Answer (response : bytes)
| Exhausted
| Failed (e : exn).

(** The loop of [_handler], with the rules whose [method_matches] was
    called, in order. *)
Fixpoint handler_loop (rules : list GRPCRule) (grpc_method_ : string)
  (request : bytes) : list GRPCRule * loop_result :=
  match rules with
  | [] => ([], Exhausted)
  | rule :: rest =>
      let continue_ :=
        let (seen, r) := handler_loop rest grpc_method_ request in
        (rule :: seen, r) in
      if method_matches rule grpc_method_ then
        match FromString (request_msg_cls rule) request with
        | None => ([rule], Failed DecodeError)
        | Some request_message =>
            if message_args_match rule request_message
            then ([rule], Answer (output_handler rule request_message))
            else continue_
        end
      else continue_
  end.

Definition consulted (rules : list GRPCRule) (grpc_method_ : string)
  (request : bytes) : list GRPCRule :=
  fst (handler_loop rules grpc_method_ request).

Definition _handler (rules : list GRPCRule) (grpc_method_ : string)
  (request : bytes) (context : Context) : outcome :=
  match snd (handler_loop rules grpc_method_ request) with
  | Answer response => Returned (Some response) context
  | Failed e => Raised e
  | Exhausted =>
      Returned None
        (abort INVALID_ARGUMENT "no matched GRPC rules found" context)
  end.

(** A rule matches a call when its method matches, the request decodes with
    its message class and the decoded fields satisfy its arguments. *)
Definition rule_matches (rule : GRPCRule) (grpc_method_ : string)
  (request : bytes) : bool :=
  method_matches rule grpc_method_ &&
  match FromString (request_msg_cls rule) request with
  | None => false
  | Some request_message => message_args_match rule request_message
  end.

End GRPC.

(** ** backends/abackend.py and backends/api.py: orchestration *)
Module API.

(** A backend as the orchestration sees it: its [repr] and its port. *)
Record ABackend : Type := {
  repr : string;
  port : Z
}.

(** The token [start_signal] appends: [f"{self!r} start message"]. *)
Definition start_message (b : ABackend) : string :=
  (repr b ++ " start message")%string.

(** [multiprocessing.Process(name=..., target=backend.run, daemon=True)]. *)
Record Process : Type := {
  proc_name : string;
  proc_target : ABackend;
  daemon : bool
}.

Inductive event : Type :=
| ManagerStarted
| ListCreated
| ProcessStarted (p : Process)
| ManagerShutdown
| Terminated (p : Process)
| Joined (p : Process).

Inductive exn : Type :=
| ValueError (msg : string)
| TimeoutError (start_timeout_sec : Z) (start_signals_list : list string)
| CallerError (msg : string).

Inductive result (A : Type) : Type :=
| Ok (a : A)
| Err (e : exn).
Arguments Ok {A} a.
Arguments Err {A} e.

(** The controlling process and what it can observe of the others: the
    trace of process-level actions, the shared readiness list, and how many
    times the clock and the list were read. *)
Record world : Type := {
  events : list event;
  start_signals : list string;
  clock_reads : nat;
  list_reads : nat
}.

Definition initial_world : world :=
  {| events := []; start_signals := []; clock_reads := 0; list_reads := 0 |}.

(** Computations of the controlling process; the outer [None] is a loop
    that ran out of fuel. *)
Definition M (A : Type) : Type := world -> option (result A * world).

Definition ret {A} (a : A) : M A := fun w => Some (Ok a, w).

Definition raise {A} (e : exn) : M A := fun w => Some (Err e, w).

Definition bind {A B} (m : M A) (k : A -> M B) : M B :=
  fun w =>
    match m w with
    | None => None
    | Some (Err e, w') => Some (Err e, w')
    | Some (Ok a, w') => k a w'
    end.

Notation "x <- m ;; k" := (bind m (fun x => k))
  (at level 61, m at next level, right associativity).
Notation "m ;;; k" := (bind m (fun _ => k))
  (at level 61, right associativity).

(** [try: m finally: c], for a clean-up [c] that cannot raise. *)
Definition finally_ {A} (m : M A) (c : world -> world) : M A :=
  fun w =>
    match m w with
    | None => None
    | Some (r, w') => Some (r, c w')
    end.

Definition emit (e : event) (w : world) : world :=
  {| events := events w ++ [e];
     start_signals := start_signals w;
     clock_reads := clock_reads w;
     list_reads := list_reads w |}.

Definition act (e : event) : M unit := fun w => Some (Ok tt, emit e w).

Section Orchestration.

(** The environment: [clock n] is what the [n]-th call of [monotonic()]
    returns, and [arrivals n] are the tokens the workers have appended to
    the shared list since its previous read, when it is read for the [n]-th
    time. Time is counted in whole ticks. *)
Variable clock : nat -> Z.
Variable arrivals : nat -> list string.

Definition monotonic : M Z :=
  fun w =>
    Some (Ok (clock (clock_reads w)),
          {| events := events w;
             start_signals := start_signals w;
             clock_reads := S (clock_reads w);
             list_reads := list_reads w |}).

(** Reading the shared list: first the workers' appends land. *)
Definition read_signals : M (list string) :=
  fun w =>
    let l := start_signals w ++ arrivals (list_reads w) in
    Some (Ok l,
          {| events := events w;
             start_signals := l;
             clock_reads := clock_reads w;
             list_reads := S (list_reads w) |}).

(** [manager.list()]: a fresh, empty shared list. *)
Definition manager_list : M unit :=
  fun w =>
    Some (Ok tt,
          {| events := events w ++ [ListCreated];
             start_signals := [];
             clock_reads := clock_reads w;
             list_reads := list_reads w |}).

(** [len(backends) != len({backend.port for backend in backends})]. *)
Definition same_port (backends : list ABackend) : bool :=
  negb (List.length backends
        =? List.length (nodup Z.eq_dec (map port backends)))%nat.

Definition same_port_message (backends : list ABackend) : string :=
  ("Some given backends from <backends=["
   ++ String.concat ", " (map repr backends)
   ++ "]> have same port")%string.

Definition new_process (backend : ABackend) : Process :=
  {| proc_name := ("backend application " ++ repr backend)%string;
     proc_target := backend;
     daemon := true |}.

Definition start_backend (backend : ABackend) : M Process :=
  let proc := new_process backend in
  act (ProcessStarted proc) ;;; ret proc.

(** [[start_backend(backend, start_signals_list) for backend in backends]]. *)
Fixpoint start_each (backends : list ABackend) : M (list Process) :=
  match backends with
  | [] => ret []
  | backend :: rest =>
      proc <- start_backend backend ;;
      procs <- start_each rest ;;
      ret (proc :: procs)
  end.

(** The polling loop, [while ... else: raise TimeoutError(...)]. *)
Fixpoint wait_started (fuel : nat) (start start_timeout_sec : Z) (n : nat)
  : M unit :=
  match fuel with
  | O => fun _ => None
  | S fuel' =>
      now <- monotonic ;;
      if (now - start <? start_timeout_sec)%Z then
        signals <- read_signals ;;
        if (List.length signals =? n)%nat then ret tt
        else wait_started fuel' start start_timeout_sec n
      else
        signals <- read_signals ;;
        raise (TimeoutError start_timeout_sec signals)
  end.

Definition start_backends (fuel : nat) (backends : list ABackend)
  (start_timeout_sec : Z) : M (list Process) :=
  if same_port backends then raise (ValueError (same_port_message backends))
  else
    act ManagerStarted ;;;
    finally_
      (manager_list ;;;
       backend_processes <- start_each backends ;;
       start <- monotonic ;;
       wait_started fuel start start_timeout_sec (List.length backend_processes) ;;;
       ret backend_processes)
      (emit ManagerShutdown).

(** The tokens in the shared list once it has been read [S j] more times,
    starting from the world [w]. *)
Definition arrived (w : world) (j : nat) : list string :=
  start_signals w ++ List.concat (map arrivals (seq (list_reads w) (S j))).

(** The two loops of the [finally] block of [backends_manager]. *)
Definition release (backends_processes : list Process) (w : world) : world :=
  fold_left (fun w' proc => emit (Joined proc) w') backends_processes
    (fold_left (fun w' proc => emit (Terminated proc) w') backends_processes w).

(** [with backends_manager(backends_to_start): body]. The local
    [backends_processes] is the empty list until [start_backends] has
    returned. *)
Definition backends_manager {A} (fuel : nat) (backends_to_start : list ABackend)
  (start_timeout_sec : Z) (body : M A) : M A :=
  fun w =>
    match start_backends fuel backends_to_start start_timeout_sec w with
    | None => None
    | Some (Err e, w1) => Some (Err e, release [] w1)
    | Some (Ok backends_processes, w1) =>
        finally_ body (release backends_processes) w1
    end.

End Orchestration.

(** *** LogsStorage *)

Record LogRecord : Type := {
  levelname : string;
  name : string;
  message : string
}.

(** The storage with the queue it tracks. The queue is shared with the
    producers, so it is part of the state the caller's code acts on. *)
Record LogsStorage : Type := {
  logs_queue : list LogRecord;
  logs_storage : list LogRecord
}.

(** [LogsStorage(logs_queue)]. *)
Definition __init__ (queue : list LogRecord) : LogsStorage :=
  {| logs_queue := queue; logs_storage := [] |}.

(** [queue.put(record)]. *)
Definition put (r : LogRecord) (self : LogsStorage) : LogsStorage :=
  {| logs_queue := logs_queue self ++ [r];
     logs_storage := logs_storage self |}.

(** [logs_queue.get_nowait()]: the oldest record, or [None] for [Empty]. *)
Definition get_nowait (self : LogsStorage) : option LogRecord * LogsStorage :=
  match logs_queue self with
  | [] => (None, self)
  | r :: q => (Some r, {| logs_queue := q; logs_storage := logs_storage self |})
  end.

Fixpoint clear_logs_queue (fuel : nat) (self : LogsStorage)
  : option LogsStorage :=
  match fuel with
  | O => None
  | S fuel' =>
      match get_nowait self with
      | (None, self') => Some self'
      | (Some _, self') => clear_logs_queue fuel' self'
      end
  end.

Definition clear_logs_storage (self : LogsStorage) : LogsStorage :=
  {| logs_queue := logs_queue self; logs_storage := [] |}.

Fixpoint collect_from_queue (fuel : nat) (self : LogsStorage)
  : option LogsStorage :=
  match fuel with
  | O => None
  | S fuel' =>
      match get_nowait self with
      | (None, self') => Some self'
      | (Some r, self') =>
          collect_from_queue fuel'
            {| logs_queue := logs_queue self';
               logs_storage := logs_storage self' ++ [r] |}
      end
  end.

Definition filter_logs (level name_ : option string) (self : LogsStorage)
  : list LogRecord :=
  let filtered_logs := logs_storage self in
  let filtered_logs :=
    match level with
    | None => filtered_logs
    | Some l => filter (fun log => String.eqb (levelname log) l) filtered_logs
    end in
  match name_ with
  | None => filtered_logs
  | Some n => filter (fun log => String.eqb (name log) n) filtered_logs
  end.

Definition has_log_record (fuel : nat) (message_pattern : Re.regex)
  (level : string) (collect_new_records_from_queue : bool)
  (self : LogsStorage) : option (bool * LogsStorage) :=
  match (if collect_new_records_from_queue
         then collect_from_queue fuel self else Some self) with
  | None => None
  | Some self' =>
      Some (existsb (fun log => Re.match_ message_pattern (message log))
              (filter_logs (Some level) None self'),
            self')
  end.

Definition has_info_log_record fuel message_pattern collect self :=
  has_log_record fuel message_pattern "INFO" collect self.

Definition has_error_log_record fuel message_pattern collect self :=
  has_log_record fuel message_pattern "ERROR" collect self.

Definition has_warning_log_record fuel message_pattern collect self :=
  has_log_record fuel message_pattern "WARNING" collect self.

Definition __enter__ (fuel : nat) (self : LogsStorage) : option LogsStorage :=
  clear_logs_queue fuel self.

Definition __exit__ (fuel : nat) (self : LogsStorage) : option LogsStorage :=
  collect_from_queue fuel self.

(** [with self as logs: body]. The body acts on the storage and its queue
    and ends normally or with an exception; [__exit__] returns [None], so
    the body's exception goes on after the final collect. *)
Definition with_logs_storage {A} (fuel : nat)
  (body : LogsStorage -> result A * LogsStorage) (self : LogsStorage)
  : option (result A * LogsStorage) :=
  match __enter__ fuel self with
  | None => None
  | Some s1 =>
      let (r, s2) := body s1 in
      match __exit__ fuel s2 with
      | None => None
      | Some s3 => Some (r, s3)
      end
  end.

End API.

(** ** Sample rules, requests and schedules

    The request of the repository's tests ([GET /search?q=vk&num=10]) and
    small rule sets, used to run the definitions. *)
Module Examples.
Import Schema.

Definition L (s : string) : matcher := Lit (VStr s).

Definition search_request : HTTP.Request := {|
  HTTP.req_method := "GET";
  HTTP.rel_url_path := "/search";
  HTTP.rel_url_query := [("q", "vk"); ("num", "10")];
  HTTP.req_headers := [("foo", "bar")]
|}.

Definition bare_request : HTTP.Request := {|
  HTTP.req_method := "GET";
  HTTP.rel_url_path := "/";
  HTTP.rel_url_query := [];
  HTTP.req_headers := []
|}.

(** [HTTPRule(query_params=d, ignore_extra_query_params=t)]. *)
Definition query_rule (d : sdict) (t : bool) : HTTP.HTTPRule := {|
  HTTP.method := None;
  HTTP.path := None;
  HTTP.query_params := Some d;
  HTTP.ignore_extra_query_params := t;
  HTTP.headers := None;
  HTTP.ignore_extra_headers := false;
  HTTP.result := HTTP.HTTPResult "HTTP BACKEND RESULT" 200
|}.

(** [HTTPRule(headers=d, ignore_extra_headers=t)]. *)
Definition headers_rule (d : sdict) (t : bool) : HTTP.HTTPRule := {|
  HTTP.method := None;
  HTTP.path := None;
  HTTP.query_params := None;
  HTTP.ignore_extra_query_params := false;
  HTTP.headers := Some d;
  HTTP.ignore_extra_headers := t;
  HTTP.result := HTTP.HTTPResult "HTTP BACKEND RESULT" 200
|}.

(** [HTTPRule(method=m)]. *)
Definition method_rule (m : string) : HTTP.HTTPRule := {|
  HTTP.method := Some m;
  HTTP.path := None;
  HTTP.query_params := None;
  HTTP.ignore_extra_query_params := false;
  HTTP.headers := None;
  HTTP.ignore_extra_headers := false;
  HTTP.result := HTTP.HTTPResult "HTTP BACKEND RESULT" 200
|}.

(** [HTTPRule(path="/search", result=HTTPResult("found", 200))]. *)
Definition found_rule : HTTP.HTTPRule := {|
  HTTP.method := None;
  HTTP.path := Some (HTTP.PathStr "/search");
  HTTP.query_params := None;
  HTTP.ignore_extra_query_params := false;
  HTTP.headers := None;
  HTTP.ignore_extra_headers := false;
  HTTP.result := HTTP.HTTPResult "found" 200
|}.

(** [HTTPRule(result=HTTPResult("ANOTHER HTTP BACKEND RESULT"))]. *)
Definition another_rule : HTTP.HTTPRule := {|
  HTTP.method := None;
  HTTP.path := None;
  HTTP.query_params := None;
  HTTP.ignore_extra_query_params := false;
  HTTP.headers := None;
  HTTP.ignore_extra_headers := false;
  HTTP.result := HTTP.HTTPResult "ANOTHER HTTP BACKEND RESULT" 200
|}.

(** The message class of [message Lookup { string id = 1; }], on payloads
    that carry at most that field: the tag byte 0x0a, a one-byte length and
    the text. A text that is not valid UTF-8 (here: not 7-bit) raises
    [DecodeError], as does a payload cut short; an empty text is the
    default value and is not listed by [ListFields]. *)
Definition lookup_cls : GRPC.MessageClass := {|
  GRPC.FromString := fun b =>
    match b with
    | [] => Some {| GRPC.ListFields := [] |}
    | tag :: len :: text =>
        if Byte.eqb tag Byte.x0a
           && (List.length text =? Byte.to_nat len)%nat
           && forallb (fun c => (Byte.to_nat c <? 128)%nat) text
        then
          Some {| GRPC.ListFields :=
                    match text with
                    | [] => []
                    | _ => [("id", VStr (string_of_list_byte text))]
                    end |}
        else None
    | _ => None
    end
|}.

(** The message class of [message Empty {}], on the same payloads: the
    field is unknown to it and skipped, whatever its bytes. *)
Definition empty_cls : GRPC.MessageClass := {|
  GRPC.FromString := fun b =>
    match b with
    | [] => Some {| GRPC.ListFields := [] |}
    | tag :: len :: text =>
        if Byte.eqb tag Byte.x0a
           && (List.length text =? Byte.to_nat len)%nat
        then Some {| GRPC.ListFields := [] |}
        else None
    | _ => None
    end
|}.

Definition reply (text : string) : GRPC.Message -> GRPC.bytes :=
  fun _ => list_byte_of_string text.

(** A rule on method [Lookup] with [id == "42"]. *)
Definition lookup_rule : GRPC.GRPCRule := {|
  GRPC.request_msg_cls := lookup_cls;
  GRPC.output_handler := reply "found";
  GRPC.grpc_method := Some "Lookup";
  GRPC.message_args := Some [(Key (L "id"), L "42")];
  GRPC.ignore_extra_message_args := false
|}.

(** A rule for any method whose message class is [lookup_cls]. *)
Definition any_lookup_rule : GRPC.GRPCRule := {|
  GRPC.request_msg_cls := lookup_cls;
  GRPC.output_handler := reply "first";
  GRPC.grpc_method := None;
  GRPC.message_args := None;
  GRPC.ignore_extra_message_args := false
|}.

(** A rule that matches every call. *)
Definition catch_all_rule : GRPC.GRPCRule := {|
  GRPC.request_msg_cls := empty_cls;
  GRPC.output_handler := reply "second";
  GRPC.grpc_method := None;
  GRPC.message_args := None;
  GRPC.ignore_extra_message_args := false
|}.

(** [Lookup(id="42")], [Lookup(id="7")], and a payload whose text is the
    single byte 0xff. *)
Definition payload_42 : GRPC.bytes := [Byte.x0a; Byte.x02; Byte.x34; Byte.x32].

Definition payload_7 : GRPC.bytes := [Byte.x0a; Byte.x01; Byte.x37].

Definition payload_bad_text : GRPC.bytes := [Byte.x0a; Byte.x01; Byte.xff].

Definition backend_a : API.ABackend :=
  {| API.repr := "<BackendA>"; API.port := 100 |}.

Definition backend_b : API.ABackend :=
  {| API.repr := "<BackendB>"; API.port := 100 |}.

Definition backend_c : API.ABackend :=
  {| API.repr := "<BackendC>"; API.port := 101 |}.

(** A clock that advances by one tick at every reading. *)
Definition ticking : nat -> Z := fun n => Z.of_nat n.

(** Both workers signal before the second poll. *)
Definition prompt_workers : nat -> list string :=
  fun n =>
    match n with
    | 0 => [API.start_message backend_a]
    | 1 => [API.start_message backend_c]
    | _ => []
    end.

(** No worker ever signals. *)
Definition silent_workers : nat -> list string := fun _ => [].

(** The caller's block does nothing. *)
Definition pass : API.M unit := API.ret tt.

Definition log (level text : string) : API.LogRecord :=
  {| API.levelname := level; API.name := "root"; API.message := text |}.

(** The storage of [test_has_log_record]. *)
Definition sample_storage : API.LogsStorage := {|
  API.logs_queue := [];
  API.logs_storage :=
    [ log "INFO" "log_info1"; log "INFO" "log_info2";
      log "WARNING" "log2"; log "ERROR" "log3" ]
|}.

(** The caller's block puts the records [rs] on the queue and ends with
    [r]. *)
Definition put_all {A} (rs : list API.LogRecord) (r : API.result A)
  : API.LogsStorage -> API.result A * API.LogsStorage :=
  fun s => (r, fold_left (fun s' x => API.put x s') rs s).

End Examples.

(** ** More samples *)
Module MoreExamples.

(** The two processes of [backend_a] and [backend_c]. *)
Definition two_processes : list API.Process :=
  map API.new_process [Examples.backend_a; Examples.backend_c].

(** The world after [start_backends] has started them from the initial
    world, with the clock [ticking] and the workers [prompt_workers]. *)
Definition started_world : API.world := {|
  API.events :=
    [API.ManagerStarted; API.ListCreated]
    ++ map API.ProcessStarted two_processes ++ [API.ManagerShutdown];
  API.start_signals :=
    [API.start_message Examples.backend_a;
     API.start_message Examples.backend_c];
  API.clock_reads := 3;
  API.list_reads := 2
|}.

(** A clock that reads 0, then 1, and from then on 10. *)
Definition stalling : nat -> Z :=
  fun n =>
    match n with
    | 0 => 0%Z
    | 1 => 1%Z
    | _ => 10%Z
    end.

(** Both workers signal after the first poll has read the list. *)
Definition late_workers : nat -> list string :=
  fun n =>
    match n with
    | 1 => [API.start_message Examples.backend_a;
            API.start_message Examples.backend_c]
    | _ => []
    end.

(** A buffer of three records and a queue of two. *)
Definition busy_storage : API.LogsStorage := {|
  API.logs_queue :=
    [Examples.log "INFO" "new_log1"; Examples.log "ERROR" "new_log2"];
  API.logs_storage :=
    [Examples.log "INFO" "log1"; Examples.log "WARNING" "log2";
     Examples.log "ERROR" "log3"]
|}.

End MoreExamples.

(** ** backends/api.py: [NDA_application_manager]

    The manager starts one application in a process of its own and waits
    until the application's log, relayed through a manager queue, shows a
    record at level INFO whose message matches [.*Start serving on.*]. *)
Module App.

Inductive event : Type :=
| ManagerStarted
| QueueCreated
| AppStarted (app_name : string)
| ManagerShutdown
| AppTerminated (app_name : string)
| AppJoined (app_name : string).

Inductive exn : Type :=
| TimeoutError (app_name : string) (server_start_timeout_sec : Z)
    (errors_traces : string)
| CallerError (msg : string).

Inductive result (A : Type) : Type :=
| Ok (a : A)
| Err (e : exn).
Arguments Ok {A} a.
Arguments Err {A} e.

(** The controlling process: the trace of process-level actions, the queue
    it shares with the application, and how many times the clock was read
    and the queue drained. *)
Record world : Type := {
  trace : list event;
  server_log_queue : list API.LogRecord;
  clock_reads : nat;
  queue_reads : nat
}.

Definition initial_world : world :=
  {| trace := []; server_log_queue := []; clock_reads := 0; queue_reads := 0 |}.

Definition M (A : Type) : Type := world -> option (result A * world).

Definition emit (e : event) (w : world) : world :=
  {| trace := trace w ++ [e];
     server_log_queue := server_log_queue w;
     clock_reads := clock_reads w;
     queue_reads := queue_reads w |}.

Definition newline : string := String (ascii_of_nat 10) "".

(** [re.compile(".*Start serving on.*")]. *)
Definition serving_pattern : Re.regex :=
  match Re.compile ".*Start serving on.*" with
  | Some r => r
  | None => Re.Void
  end.

(** [f"... application {NDA_application_cls!r}"]. *)
Definition app_name_of (cls_repr : string) : string :=
  ("... application " ++ cls_repr)%string.

(** ["\n***\n".join(errors) or "<empty>"]. *)
Definition errors_traces_of (errors : list string) : string :=
  let joined := String.concat (newline ++ "***" ++ newline) errors in
  if String.eqb joined "" then "<empty>" else joined.

Section Manager.

(** [clock n] is the [n]-th reading of [monotonic()]; [emitted n] are the
    records the application has put on the queue since the previous drain,
    when the queue is drained for the [n]-th time. *)
Variable clock : nat -> Z.
Variable emitted : nat -> list API.LogRecord.

(** The records received by the drain number [j] counted from [w]. *)
Definition received (w : world) (j : nat) : list API.LogRecord :=
  List.concat (map emitted (seq (queue_reads w) j)).

(** The loop [while monotonic() - start < server_start_timeout_sec], with
    the local [logs_storage] whose buffer is [buffer]. It ends with the
    buffer at the [break], or with the [TimeoutError] of the [else]. *)
Fixpoint wait_serving (fuel : nat) (app_name : string)
  (start server_start_timeout_sec : Z) (buffer : list API.LogRecord)
  (w : world) : option (result (list API.LogRecord) * world) :=
  match fuel with
  | O => None
  | S fuel' =>
      let now := clock (clock_reads w) in
      if (now - start <? server_start_timeout_sec)%Z then
        let logs_storage :=
          {| API.logs_queue := server_log_queue w ++ emitted (queue_reads w);
             API.logs_storage := buffer |} in
        match API.has_info_log_record
                (S (List.length (API.logs_queue logs_storage)))
                serving_pattern true logs_storage with
        | None => None
        | Some (found, logs_storage') =>
            let w' :=
              {| trace := trace w;
                 server_log_queue := API.logs_queue logs_storage';
                 clock_reads := S (clock_reads w);
                 queue_reads := S (queue_reads w) |} in
            if found then Some (Ok (API.logs_storage logs_storage'), w')
            else wait_serving fuel' app_name start server_start_timeout_sec
                   (API.logs_storage logs_storage') w'
        end
      else
        let logs_storage :=
          {| API.logs_queue := server_log_queue w;
             API.logs_storage := buffer |} in
        let errors :=
          map API.message (API.filter_logs (Some "ERROR") None logs_storage) in
        Some (Err (TimeoutError app_name server_start_timeout_sec
                     (errors_traces_of errors)),
              {| trace := trace w;
                 server_log_queue := server_log_queue w;
                 clock_reads := S (clock_reads w);
                 queue_reads := queue_reads w |})
  end.

(** The [finally] block. *)
Definition shut_down (app_name : string) (w : world) : world :=
  emit (AppJoined app_name)
    (emit (AppTerminated app_name) (emit ManagerShutdown w)).

(** [with NDA_application_manager(cls, conf, timeout) as queue: body]. *)
Definition NDA_application_manager {A} (fuel : nat) (cls_repr : string)
  (server_start_timeout_sec : Z) (body : M A) : M A :=
  fun w =>
    let w1 := emit ManagerStarted w in
    let w2 :=
      {| trace := trace w1 ++ [QueueCreated];
         server_log_queue := [];
         clock_reads := clock_reads w1;
         queue_reads := queue_reads w1 |} in
    let app_name := app_name_of cls_repr in
    let w3 := emit (AppStarted app_name) w2 in
    let start := clock (clock_reads w3) in
    let w4 :=
      {| trace := trace w3;
         server_log_queue := server_log_queue w3;
         clock_reads := S (clock_reads w3);
         queue_reads := queue_reads w3 |} in
    match wait_serving fuel app_name start server_start_timeout_sec [] w4 with
    | None => None
    | Some (Err e, w5) => Some (Err e, shut_down app_name w5)
    | Some (Ok _, w5) =>
        match body w5 with
        | None => None
        | Some (r, w6) => Some (r, shut_down app_name w6)
        end
    end.

End Manager.

(** A record matches the start pattern. *)
Definition announces (log : API.LogRecord) : bool :=
  String.eqb (API.levelname log) "INFO"
  && Re.match_ serving_pattern (API.message log).

(** A text without a newline. *)
Fixpoint one_line (s : string) : bool :=
  match s with
  | EmptyString => true
  | String c s' => Re.dot_accepts c && one_line s'
  end.

(** The pattern for the text [t] followed by what [r] matches. *)
Fixpoint then_literal (t : string) (r : Re.regex) : Re.regex :=
  match t with
  | EmptyString => r
  | String c t' => Re.Cat (Re.Chr c) (then_literal t' r)
  end.

End App.

(** ** Sample applications *)
Module AppExamples.

(** An application that logs an error, then announces that it serves. *)
Definition serving_app : nat -> list API.LogRecord :=
  fun n =>
    match n with
    | 0 => [Examples.log "ERROR" "cache is cold"]
    | 1 => [Examples.log "INFO" "Start serving on localhost:8100"]
    | _ => []
    end.

(** An application that logs two errors and never serves. *)
Definition failing_app : nat -> list API.LogRecord :=
  fun n =>
    match n with
    | 0 => [Examples.log "ERROR" "no config"; Examples.log "INFO" "bye"]
    | 1 => [Examples.log "ERROR" "exit 1"]
    | _ => []
    end.

(** The caller's block does nothing. *)
Definition pass : App.M unit := fun w => Some (App.Ok tt, w).

End AppExamples.

(** ** asserts.py

    The expected values are keyword arguments, so the keys of the validator
    are plain strings. Dictionaries are flat here: their values are
    scalars, and the text of the [AssertionError] is left out. *)
Module Asserts.
Import Schema.

Inductive exn : Type :=
| AssertionError
| ValueError.

Inductive result (A : Type) : Type :=
| Ok (a : A)
| Err (e : exn).
Arguments Ok {A} a.
Arguments Err {A} e.

Definition assert_equal_dicts (actual : pydata) (_ignore_extra_keys : bool)
  (expected : list (string * matcher)) : result unit :=
  if is_valid _ignore_extra_keys (SDict (literal_dict expected)) actual
  then Ok tt
  else Err AssertionError.

(** [d[k] = m] on keyword arguments, and [{**base, **extra}]. *)
Fixpoint kw_set (k : string) (m : matcher) (d : list (string * matcher))
  : list (string * matcher) :=
  match d with
  | [] => [(k, m)]
  | (k', m') :: d' =>
      if String.eqb k' k then (k', m) :: d' else (k', m') :: kw_set k m d'
  end.

Definition kw_update (base extra : list (string * matcher))
  : list (string * matcher) :=
  fold_left (fun d km => kw_set (fst km) (snd km) d) extra base.

(** [partial(assert_equal_dicts, qid=Regex(".*"), api_version="1.0")]. *)
Definition assert_equalapi_response (actual : pydata)
  (_ignore_extra_keys : bool) (expected : list (string * matcher))
  : result unit :=
  assert_equal_dicts actual _ignore_extra_keys
    (kw_update [("qid", regex_of ".*"); ("api_version", Lit (VStr "1.0"))]
       expected).

(** [s.startswith(p)]. *)
Fixpoint starts_with (p s : string) : bool :=
  match p, s with
  | EmptyString, _ => true
  | String a p', String b s' => Ascii.eqb a b && starts_with p' s'
  | String _ _, EmptyString => false
  end.

(** [s[n:]]. *)
Fixpoint drop (n : nat) (s : string) : string :=
  match n, s with
  | O, _ => s
  | S n', String _ s' => drop n' s'
  | S _, EmptyString => EmptyString
  end.

(** [sep in s]. *)
Fixpoint contains (sep s : string) : bool :=
  starts_with sep s ||
  match s with
  | EmptyString => false
  | String _ s' => contains sep s'
  end.

(** The scan of [s.split(sep)] for a separator that is not empty: [cur] is
    the piece being read and [skip] counts the characters of a separator
    just found that are still to be passed over. *)
Fixpoint split_from (sep s cur : string) (skip : nat) : list string :=
  match s with
  | EmptyString => [cur]
  | String c s' =>
      match skip with
      | S n => split_from sep s' cur n
      | O =>
          if starts_with sep s
          then cur :: split_from sep s' "" (String.length sep - 1)
          else split_from sep s' (cur ++ String c "") 0
      end
  end.

(** [s.split(sep)]; [None] is the [ValueError] for an empty separator. *)
Definition split (sep s : string) : option (list string) :=
  match sep with
  | EmptyString => None
  | _ => Some (split_from sep s "" 0)
  end.

Fixpoint split_once_from (sep s cur : string) : list string :=
  match s with
  | EmptyString => [cur]
  | String c s' =>
      if starts_with sep s
      then [cur; drop (String.length sep) s]
      else split_once_from sep s' (cur ++ String c "")
  end.

(** [s.split(sep, maxsplit=1)]. *)
Definition split_once (sep s : string) : option (list string) :=
  match sep with
  | EmptyString => None
  | _ => Some (split_once_from sep s "")
  end.

(** The loop of [assert_equal_log_message]; [key, val = ...] needs exactly
    two values. *)
Fixpoint parse_items (pieces : list string) (_log_kv_separator : string)
  (log_msg_items : pydict) : result pydict :=
  match pieces with
  | [] => Ok log_msg_items
  | log :: rest =>
      match split_once _log_kv_separator log with
      | Some [key; val] =>
          parse_items rest _log_kv_separator
            (GRPC.dict_set key (VStr val) log_msg_items)
      | _ => Err ValueError
      end
  end.

Definition assert_equal_log_message (log_record : API.LogRecord)
  (_log_separator _log_kv_separator : string) (_ignore_extra_keys : bool)
  (expected_log : list (string * matcher)) : result unit :=
  match split _log_separator (API.message log_record) with
  | None => Err ValueError
  | Some pieces =>
      match parse_items pieces _log_kv_separator [] with
      | Err e => Err e
      | Ok log_msg_items =>
          assert_equal_dicts (DDict log_msg_items) _ignore_extra_keys
            expected_log
      end
  end.

Definition tab : string := String (ascii_of_nat 9) "".

(** [partial(assert_equal_log_message, _log_separator="\t",
    _log_kv_separator=":", QID=Regex(".*"))]. *)
Definition assert_equal_api_extra_log (log_record : API.LogRecord)
  (_ignore_extra_keys : bool) (expected_log : list (string * matcher))
  : result unit :=
  assert_equal_log_message log_record tab ":" _ignore_extra_keys
    (kw_update [("QID", regex_of ".*")] expected_log).

(** [log_sep.join(f"{k}{kv_sep}{v}" for k, v in items)], the way the
    messages are written. *)
Definition log_line (sep kv : string) (items : list (string * string))
  : string :=
  String.concat sep (map (fun item => (fst item ++ kv ++ snd item)%string) items).

(** The character [c] does not occur in [s]. *)
Fixpoint free_of (c : ascii) (s : string) : bool :=
  match s with
  | EmptyString => true
  | String d s' => negb (Ascii.eqb c d) && free_of c s'
  end.

(** The message of [test_assert_equal_log_message]. *)
Definition sample_items : list (string * string) :=
  [ ("QID", "3b7e49d1504a403980a4c852f9f944b6"); ("IP", "127.0.0.1");
    ("METHOD", "GET"); ("Q", "query") ].

Definition sample_record : API.LogRecord :=
  {| API.levelname := "INFO"; API.name := "access";
     API.message := log_line tab ":" sample_items |}.

End Asserts.

(** ** objects_spier.py: the wrapper a spied method is replaced with

    A spied method is known by a number. Its arguments, positional and
    keyword, are one value of [Args]; the object it belongs to has a state
    of type [Obj] that the real method may read and change. *)
Module Spy.

Section Wrapper.

Variables Args Val Exc Obj : Type.

(** Python's [None], as a value. *)
Variable none : Val.

Record Call : Type := {
  spy_obj : nat;
  args : Args;
  result : Val;
  exc : option Exc
}.

(** [ObjectSpy]: the calls seen so far and, per method, the results still
    to be given instead of calling it. *)
Record ObjectSpy : Type := {
  calls : list Call;
  mock_results : list (nat * list Val)
}.

(** The attributes the wrapper keeps on the spy of one method. *)
Record SpyObj : Type := {
  spy_method : nat;
  spy_return : Val;
  spy_exception : option Exc
}.

Record state : Type := {
  object_spy : ObjectSpy;
  spy : SpyObj;
  target : Obj
}.

(** [mock_results.get(m)] and [mock_results[m] = l]. *)
Fixpoint results_of (m : nat) (d : list (nat * list Val))
  : option (list Val) :=
  match d with
  | [] => None
  | (m', l) :: d' => if Nat.eqb m' m then Some l else results_of m d'
  end.

Fixpoint set_results (m : nat) (l : list Val) (d : list (nat * list Val))
  : list (nat * list Val) :=
  match d with
  | [] => [(m, l)]
  | (m', l') :: d' =>
      if Nat.eqb m' m then (m', l) :: d' else (m', l') :: set_results m l d'
  end.

Definition append_to_calls (c : Call) (o : ObjectSpy) : ObjectSpy :=
  {| calls := calls o ++ [c]; mock_results := mock_results o |}.

(** A method that calls no spied method: it returns a value or raises, and
    acts on the object only. Methods that call spied methods are the
    subject of [NestedSpy]. *)
Definition method_type : Type := Args -> Obj -> (Val + Exc) * Obj.

Definition wrapper (method : method_type) (a : Args) (st : state)
  : (Val + Exc) * state :=
  let m := spy_method (spy st) in
  match results_of m (mock_results (object_spy st)) with
  | Some (return_value :: rest) =>
      (* [mock_results[m].pop(0)]: the method itself is not called *)
      let o := {| calls := calls (object_spy st);
                  mock_results :=
                    set_results m rest (mock_results (object_spy st)) |} in
      (inl return_value,
       {| object_spy :=
            append_to_calls
              {| spy_obj := m; args := a; result := return_value;
                 exc := None |} o;
          spy := {| spy_method := m; spy_return := return_value;
                    spy_exception := None |};
          target := target st |})
  | _ =>
      match method a (target st) with
      | (inr e, t) =>
          (inr e,
           {| object_spy :=
                append_to_calls
                  {| spy_obj := m; args := a; result := none;
                     exc := Some e |} (object_spy st);
              spy := {| spy_method := m; spy_return := none;
                        spy_exception := Some e |};
              target := t |})
      | (inl return_value, t) =>
          (inl return_value,
           {| object_spy :=
                append_to_calls
                  {| spy_obj := m; args := a; result := return_value;
                     exc := None |} (object_spy st);
              spy := {| spy_method := m; spy_return := return_value;
                        spy_exception := None |};
              target := t |})
      end
  end.

(** The spied method called with each of [inputs] in turn, a raised
    exception being caught by the caller. *)
Fixpoint call_each (method : method_type) (inputs : list Args) (st : state)
  : list (Val + Exc) * state :=
  match inputs with
  | [] => ([], st)
  | a :: rest =>
      let (r, st1) := wrapper method a st in
      let (rs, st2) := call_each method rest st1 in
      (r :: rs, st2)
  end.

End Wrapper.

Arguments spy_obj {Args Val Exc} c.
Arguments args {Args Val Exc} c.
Arguments result {Args Val Exc} c.
Arguments exc {Args Val Exc} c.
Arguments calls {Args Val Exc} o.
Arguments mock_results {Args Val Exc} o.
Arguments spy_method {Val Exc} s.
Arguments spy_return {Val Exc} s.
Arguments spy_exception {Val Exc} s.
Arguments object_spy {Args Val Exc Obj} s.
Arguments spy {Args Val Exc Obj} s.
Arguments target {Args Val Exc Obj} s.
Arguments results_of {Val} m d.
Arguments set_results {Val} m l d.
Arguments wrapper {Args Val Exc Obj} none method a st.
Arguments call_each {Args Val Exc Obj} none method inputs st.

(** What a recorded call says about how the call ended. *)
Definition outcome {Args Val Exc} (c : Call Args Val Exc) : Val + Exc :=
  match exc c with
  | Some e => inr e
  | None => inl (result c)
  end.



End Spy.

(** ** objects_spier.py: the wrapper, with methods that call spied methods

    The real method runs in the whole state of the spy: it may call other
    spied methods of the object, or itself, and each such call goes through
    its own wrapper, which records it and may use up a prepared result
    before the outer wrapper records the outer call. *)
Module NestedSpy.

Section Wrapper.

Variables Args Val Exc Obj : Type.

(** Python's [None], as a value. *)
Variable none : Val.

(** The attributes [spy_return] and [spy_exception] of one spy object. *)
Record Attrs : Type := {
  spy_return : Val;
  spy_exception : option Exc
}.

(** The [ObjectSpy] (its calls and prepared results), the attributes of
    the spy object of each method, and the object under the spy. *)
Record state : Type := {
  calls : list (Spy.Call Args Val Exc);
  mock_results : list (nat * list Val);
  spies : list (nat * Attrs);
  target : Obj
}.

(** The attributes of the spy object of [m]; they are [None], [None] from
    the start. *)
Fixpoint attrs_of (m : nat) (d : list (nat * Attrs)) : Attrs :=
  match d with
  | [] => {| spy_return := none; spy_exception := None |}
  | (m', a) :: d' => if Nat.eqb m' m then a else attrs_of m d'
  end.

Fixpoint set_attrs (m : nat) (a : Attrs) (d : list (nat * Attrs))
  : list (nat * Attrs) :=
  match d with
  | [] => [(m, a)]
  | (m', a') :: d' =>
      if Nat.eqb m' m then (m', a) :: d' else (m', a') :: set_attrs m a d'
  end.

(** A method, run in the state of the spy. *)
Definition method_type : Type := Args -> state -> (Val + Exc) * state.

(** [spy_obj.spy_return = None; spy_obj.spy_exception = None]. *)
Definition reset (m : nat) (st : state) : state :=
  {| calls := calls st;
     mock_results := mock_results st;
     spies := set_attrs m {| spy_return := none; spy_exception := None |}
                (spies st);
     target := target st |}.

(** The wrapper put in place of the method number [m]. *)
Definition wrapper (m : nat) (method : method_type) (a : Args) (st : state)
  : (Val + Exc) * state :=
  let st0 := reset m st in
  match Spy.results_of m (mock_results st0) with
  | Some (return_value :: rest) =>
      (inl return_value,
       {| calls :=
            calls st0
            ++ [{| Spy.spy_obj := m; Spy.args := a;
                   Spy.result := return_value; Spy.exc := None |}];
          mock_results := Spy.set_results m rest (mock_results st0);
          spies :=
            set_attrs m
              {| spy_return := return_value; spy_exception := None |}
              (spies st0);
          target := target st0 |})
  | _ =>
      match method a st0 with
      | (inr e, st1) =>
          let kept := spy_return (attrs_of m (spies st1)) in
          (inr e,
           {| calls :=
                calls st1
                ++ [{| Spy.spy_obj := m; Spy.args := a;
                       Spy.result := kept; Spy.exc := Some e |}];
              mock_results := mock_results st1;
              spies :=
                set_attrs m {| spy_return := kept; spy_exception := Some e |}
                  (spies st1);
              target := target st1 |})
      | (inl return_value, st1) =>
          let kept := spy_exception (attrs_of m (spies st1)) in
          (inl return_value,
           {| calls :=
                calls st1
                ++ [{| Spy.spy_obj := m; Spy.args := a;
                       Spy.result := return_value; Spy.exc := kept |}];
              mock_results := mock_results st1;
              spies :=
                set_attrs m
                  {| spy_return := return_value; spy_exception := kept |}
                  (spies st1);
              target := target st1 |})
      end
  end.

(** The state in which the wrapper of [m] records its own call: the state
    as it is when a prepared result is taken, the state the real method
    leaves otherwise. *)
Definition before_record (m : nat) (method : method_type) (a : Args)
  (st : state) : state :=
  match Spy.results_of m (mock_results st) with
  | Some (_ :: _) => reset m st
  | _ => snd (method a (reset m st))
  end.

(** A method that leaves the spy alone: it calls no spied method. *)
Definition quiet (method : method_type) : Prop :=
  forall a st,
    calls (snd (method a st)) = calls st /\
    mock_results (snd (method a st)) = mock_results st /\
    spies (snd (method a st)) = spies st.

(** The spied method [m] called with each of [inputs] in turn, a raised
    exception being caught by the caller. *)
Fixpoint call_each (m : nat) (method : method_type) (inputs : list Args)
  (st : state) : list (Val + Exc) * state :=
  match inputs with
  | [] => ([], st)
  | a :: rest =>
      let (r, st1) := wrapper m method a st in
      let (rs, st2) := call_each m method rest st1 in
      (r :: rs, st2)
  end.

End Wrapper.

Arguments spy_return {Val Exc} a.
Arguments spy_exception {Val Exc} a.
Arguments calls {Args Val Exc Obj} s.
Arguments mock_results {Args Val Exc Obj} s.
Arguments spies {Args Val Exc Obj} s.
Arguments target {Args Val Exc Obj} s.
Arguments attrs_of {Val Exc} none m d.
Arguments set_attrs {Val Exc} m a d.
Arguments reset {Args Val Exc Obj} none m st.
Arguments wrapper {Args Val Exc Obj} none m method a st.
Arguments before_record {Args Val Exc Obj} none m method a st.
Arguments quiet {Args Val Exc Obj} method.
Arguments call_each {Args Val Exc Obj} none m method inputs st.

(** The cat of tests/test_object_spier.py, weights in whole grams:
    [_add_weight] is the method 1, [eat_feed] the method 2, which calls
    the spied [_add_weight] with a twentieth of the feed. [None] is 0. *)
Definition _add_weight : method_type Z Z string Z :=
  fun g st =>
    (inl 0%Z,
     {| calls := calls st; mock_results := mock_results st;
        spies := spies st; target := (target st + g)%Z |}).

Definition eat_feed : method_type Z Z string Z :=
  fun g st =>
    match wrapper 0%Z 1 _add_weight (g / 20)%Z st with
    | (inl _, st') => (inl 0%Z, st')
    | (inr e, st') => (inr e, st')
    end.

Definition cat : state Z Z string Z :=
  {| calls := []; mock_results := []; spies := []; target := 200%Z |}.

(** [cat.eat_feed(60); cat._add_weight(100); cat.eat_feed(100)]. *)
Definition meal : state Z Z string Z :=
  snd (wrapper 0%Z 2 eat_feed 100%Z
         (snd (wrapper 0%Z 1 _add_weight 100%Z
                 (snd (wrapper 0%Z 2 eat_feed 60%Z cat))))).

End NestedSpy.

(** * Properties *)

(** ** Patterns: the matcher computes the language *)
Module ReFacts.
Import Re.

Lemma append_empty (a b : string) :
  (a ++ b)%string = "" -> a = "" /\ b = "".
Proof.
  destruct a; simpl; intros H; [auto | discriminate].
Qed.

Lemma append_nil_r (a : string) : (a ++ "")%string = a.
Proof.
  induction a; simpl; [reflexivity | now rewrite IHa].
Qed.

Lemma append_assoc (a b c : string) :
  ((a ++ b) ++ c)%string = (a ++ (b ++ c))%string.
Proof.
  induction a; simpl; [reflexivity | now rewrite IHa].
Qed.

Lemma nullable_sound r : nullable r = true -> lang r "".
Proof.
  induction r; simpl; intros H; try discriminate.
  - constructor.
  - apply andb_true_iff in H as [H1 H2].
    change "" with ("" ++ "")%string. constructor; auto.
  - apply orb_true_iff in H as [H | H];
      [apply LAltL | apply LAltR]; auto.
  - constructor.
Qed.

Lemma nullable_complete r s : lang r s -> s = "" -> nullable r = true.
Proof.
  induction 1; simpl; intros E; try discriminate; try reflexivity.
  - apply append_empty in E as [E1 E2]. now rewrite IHlang1, IHlang2.
  - rewrite IHlang; auto.
  - rewrite IHlang; auto using orb_true_r.
Qed.

Lemma nullable_lang r : nullable r = true <-> lang r "".
Proof.
  split; [apply nullable_sound | intros H; eapply nullable_complete; eauto].
Qed.

Lemma deriv_sound c r : forall s, lang (deriv c r) s -> lang r (String c s).
Proof.
  induction r; simpl; intros s H.
  - inversion H.
  - inversion H.
  - destruct (Ascii.eqb_spec c c0) as [-> | _]; inversion H; subst.
    constructor.
  - destruct (dot_accepts c) eqn:D; inversion H; subst.
    now constructor.
  - assert (K : forall t, lang (Cat (deriv c r1) r2) t ->
                          lang (Cat r1 r2) (String c t)).
    { intros t Ht. inversion Ht; subst.
      change (String c (s1 ++ s2)) with (String c s1 ++ s2)%string.
      constructor; auto. }
    destruct (nullable r1) eqn:N.
    + inversion H; subst; [now apply K |].
      change (String c s) with ("" ++ String c s)%string.
      constructor; [now apply nullable_sound | auto].
    + now apply K.
  - inversion H; subst; [apply LAltL | apply LAltR]; auto.
  - inversion H; subst.
    change (String c (s1 ++ s2)) with (String c s1 ++ s2)%string.
    constructor; auto.
Qed.

Lemma deriv_complete r w :
  lang r w -> forall c s, w = String c s -> lang (deriv c r) s.
Proof.
  induction 1; intros a t E; simpl.
  - discriminate.
  - inversion E; subst. rewrite Ascii.eqb_refl. constructor.
  - inversion E; subst. rewrite H. constructor.
  - destruct s1 as [| b s1']; simpl in E.
    + subst s2.
      rewrite (nullable_complete _ _ H eq_refl).
      apply LAltR. now apply IHlang2.
    + inversion E; subst.
      assert (L : lang (Cat (deriv a r1) r2) (s1' ++ s2)%string).
      { constructor; [now apply IHlang1 | assumption]. }
      destruct (nullable r1); [now apply LAltL | assumption].
  - apply LAltL. now apply IHlang.
  - apply LAltR. now apply IHlang.
  - discriminate.
  - destruct s1 as [| b s1']; simpl in E.
    + now apply IHlang2.
    + inversion E; subst.
      constructor; [now apply IHlang1 | assumption].
Qed.

Lemma deriv_lang c r s : lang (deriv c r) s <-> lang r (String c s).
Proof.
  split; [apply deriv_sound | intros H; eapply deriv_complete; eauto].
Qed.

(** [match] succeeds exactly when a prefix of the subject is in the
    language of the pattern. *)
Lemma match_prefix : forall s r,
  match_ r s = true <-> exists p q, s = (p ++ q)%string /\ lang r p.
Proof.
  induction s as [| c s IH]; intros r; simpl.
  - rewrite orb_false_r, nullable_lang. split.
    + intros H. now exists "", "".
    + intros (p & q & E & H). symmetry in E.
      apply append_empty in E as [-> _]. assumption.
  - rewrite orb_true_iff, nullable_lang, IH. split.
    + intros [H | (p & q & E & H)].
      * now exists "", (String c s).
      * exists (String c p), q. split; [simpl; now rewrite E |].
        now apply deriv_lang.
    + intros (p & q & E & H). destruct p as [| b p]; simpl in E.
      * now left.
      * inversion E; subst. right. exists p, q. split; [reflexivity |].
        now apply deriv_lang.
Qed.

(** [search] succeeds exactly when some substring is in the language. *)
Lemma search_substring : forall s r,
  search r s = true <->
  exists a p q, s = (a ++ p ++ q)%string /\ lang r p.
Proof.
  induction s as [| c s IH]; intros r; simpl.
  - rewrite orb_false_r.
    change (nullable r || false) with (match_ r "").
    rewrite match_prefix. split.
    + intros (p & q & E & H). now exists "", p, q.
    + intros (a & p & q & E & H). symmetry in E.
      apply append_empty in E as [-> E]. now exists p, q.
  - change (nullable r || match_ (deriv c r) s) with (match_ r (String c s)).
    rewrite orb_true_iff, match_prefix, IH. split.
    + intros [(p & q & E & H) | (a & p & q & E & H)].
      * now exists "", p, q.
      * exists (String c a), p, q. split; [simpl; now rewrite E | assumption].
    + intros (a & p & q & E & H). destruct a as [| b a]; simpl in E.
      * left. now exists p, q.
      * inversion E; subst. right. now exists a, p, q.
Qed.

Lemma lang_literal p : forall s, lang (literal p) s <-> s = p.
Proof.
  induction p as [| c p IH]; intros s; simpl.
  - split; [intros H; now inversion H | intros ->; constructor].
  - split.
    + intros H. inversion H; subst.
      match goal with K : lang (Chr c) _ |- _ => inversion K; subst end.
      simpl. f_equal. now apply IH.
    + intros ->. change (String c p) with (String c "" ++ p)%string.
      constructor; [constructor | now apply IH].
Qed.

(** A pattern without metacharacters matches a subject exactly when the
    subject starts with the pattern's text. *)
Lemma match_literal p s :
  match_ (literal p) s = true <-> exists q, s = (p ++ q)%string.
Proof.
  rewrite match_prefix. split.
  - intros (a & q & E & H). apply lang_literal in H. subst a. now exists q.
  - intros (q & E). exists p, q. split; [assumption | now apply lang_literal].
Qed.

Lemma compile_plain p : plain p -> compile p = Some (literal p).
Proof.
  unfold plain. induction p as [| c p IH]; simpl; intros H.
  - reflexivity.
  - inversion H as [| ? ? Hc Hp]; subst.
    assert (A : atom c = Some (Chr c)).
    { unfold atom. rewrite Hc.
      destruct (Ascii.eqb_spec c "."%char) as [-> | _];
        [discriminate Hc | reflexivity]. }
    rewrite A.
    destruct p as [| d p'].
    + reflexivity.
    + assert (Hd : is_meta d = false) by (now inversion Hp).
      rewrite (IH Hp).
      destruct (Ascii.eqb_spec d "*"%char) as [-> | n1]; [discriminate Hd |].
      destruct (Ascii.eqb_spec d "+"%char) as [-> | n2]; [discriminate Hd |].
      destruct (Ascii.eqb_spec d "?"%char) as [-> | n3]; [discriminate Hd |].
      destruct d as [[] [] [] [] [] [] [] []]; try reflexivity;
        congruence.
Qed.

End ReFacts.

(** ** Dictionary validation *)
Module SchemaFacts.
Import Schema.

Lemma in_add_key k k' new : In k' (add_key k new) <-> k' = k \/ In k' new.
Proof.
  unfold add_key. destruct (existsb (String.eqb k) new) eqn:E.
  - split; [auto |]. intros [-> | H]; [| assumption].
    apply existsb_exists in E as (x & Hx & Ex).
    apply String.eqb_eq in Ex. now subst x.
  - rewrite in_app_iff. simpl. intuition.
Qed.

Lemma nodup_add_key k new : NoDup new -> NoDup (add_key k new).
Proof.
  intros H. unfold add_key. destruct (existsb (String.eqb k) new) eqn:E.
  - assumption.
  - apply NoDup_rev in H. rewrite <- (rev_involutive (new ++ [k])).
    apply NoDup_rev. rewrite rev_app_distr. simpl. constructor; [| assumption].
    intros Hin. apply in_rev in Hin.
    assert (T : existsb (String.eqb k) new = true).
    { apply existsb_exists. exists k. split; [assumption | apply String.eqb_refl]. }
    congruence.
Qed.

Lemma in_add_index i j coverage :
  In j (add_index i coverage) <-> j = i \/ In j coverage.
Proof.
  unfold add_index. destruct (existsb (Nat.eqb i) coverage) eqn:E.
  - split; [auto |]. intros [-> | H]; [| assumption].
    apply existsb_exists in E as (x & Hx & Ex).
    apply Nat.eqb_eq in Ex. now subst x.
  - rewrite in_app_iff. simpl. intuition.
Qed.

Lemma existsb_nat_in i l : existsb (Nat.eqb i) l = true <-> In i l.
Proof.
  rewrite existsb_exists. split.
  - intros (x & Hx & E). apply Nat.eqb_eq in E. now subst.
  - intros H. exists i. split; [assumption | apply Nat.eqb_refl].
Qed.

(** What the outer loop returns, in terms of the verdict on each item. *)
Lemma validate_items_some sorted : forall items new coverage new' coverage',
  validate_items sorted items new coverage = Some (new', coverage') ->
  (forall k v, In (k, v) items -> validate_item sorted k v <> None) /\
  (forall i, In i coverage' <->
     In i coverage \/
     exists k v, In (k, v) items /\ validate_item sorted k v = Some (Some i)) /\
  (forall k, In k new' <->
     In k new \/
     exists v i, In (k, v) items /\ validate_item sorted k v = Some (Some i)) /\
  (NoDup new -> NoDup new').
Proof.
  induction items as [| [key value] rest IH]; simpl; intros new cov new' cov' H.
  - inversion H; subst. repeat split; auto; try tauto.
    + intros [? | (? & ? & [] & _)]; assumption.
    + intros [? | (? & ? & [] & _)]; assumption.
  - destruct (validate_item sorted key value) as [[i |] |] eqn:V;
      [| | discriminate].
    + apply IH in H as (A & B & C & D). repeat split.
      * intros k v [E | Hin]; [inversion E; subst; congruence | eauto].
      * intros Hi. apply B in Hi as [Hi | (k & v & Hin & E)].
        -- apply in_add_index in Hi as [-> | Hi]; [| now left].
           right. exists key, value. auto.
        -- right. exists k, v. auto.
      * intros [Hi | (k & v & [E | Hin] & Ev)]; apply B.
        -- left. apply in_add_index. now right.
        -- inversion E; subst. left. apply in_add_index. left. congruence.
        -- right. exists k, v. auto.
      * intros Hk. apply C in Hk as [Hk | (v & j & Hin & E)].
        -- apply in_add_key in Hk as [-> | Hk]; [| now left].
           right. exists value, i. auto.
        -- right. exists v, j. auto.
      * intros [Hk | (v & j & [E | Hin] & Ev)]; apply C.
        -- left. apply in_add_key. now right.
        -- inversion E; subst. left. apply in_add_key. now left.
        -- right. exists v, j. auto.
      * intros N. apply D. now apply nodup_add_key.
    + apply IH in H as (A & B & C & D). repeat split.
      * intros k v [E | Hin]; [inversion E; subst; congruence | eauto].
      * intros Hi. apply B in Hi as [Hi | (k & v & Hin & E)];
          [now left | right; exists k, v; auto].
      * intros [Hi | (k & v & [E | Hin] & Ev)]; apply B.
        -- now left.
        -- inversion E; subst. congruence.
        -- right. exists k, v. auto.
      * intros Hk. apply C in Hk as [Hk | (v & j & Hin & E)];
          [now left | right; exists v, j; auto].
      * intros [Hk | (v & j & [E | Hin] & Ev)]; apply C.
        -- now left.
        -- inversion E; subst. congruence.
        -- right. exists v, j. auto.
      * assumption.
Qed.

Lemma validate_items_total sorted : forall items new coverage,
  (forall k v, In (k, v) items -> validate_item sorted k v <> None) ->
  exists r, validate_items sorted items new coverage = Some r.
Proof.
  induction items as [| [key value] rest IH]; simpl; intros new cov H.
  - eauto.
  - destruct (validate_item sorted key value) as [[i |] |] eqn:V.
    + apply IH. intros k v Hin. apply H. now right.
    + apply IH. intros k v Hin. apply H. now right.
    + exfalso. apply (H key value); auto.
Qed.

Lemma dict_value_unique (d : pydict) k v v' :
  NoDup (dict_keys d) -> In (k, v) d -> In (k, v') d -> v = v'.
Proof.
  unfold dict_keys. induction d as [| [k0 v0] d IH]; simpl; intros N H H'.
  - contradiction.
  - inversion N as [| ? ? Hn N']; subst.
    destruct H as [E | H], H' as [E' | H'].
    + congruence.
    + inversion E; subst. exfalso. apply Hn.
      change k with (fst (k, v')). now apply in_map.
    + inversion E'; subst. exfalso. apply Hn.
      change k with (fst (k, v)). now apply in_map.
    + now apply IH.
Qed.

Lemma required_covered_spec d coverage :
  required_covered d coverage = true <->
  forall i sk sv, In (i, (sk, sv)) (indexed d) ->
                  is_optional sk = false -> In i coverage.
Proof.
  unfold required_covered. rewrite forallb_forall. split.
  - intros H i sk sv Hin Ho. specialize (H _ Hin). simpl in H.
    rewrite Ho in H. simpl in H. now apply existsb_nat_in.
  - intros H [i [sk sv]] Hin. simpl.
    destruct (is_optional sk) eqn:Ho; [reflexivity |]. simpl.
    apply existsb_nat_in. eauto.
Qed.

(** The verdict of [validate_dict] in terms of the verdict on each item:
    no item raises, every key that is not [Optional] decides some item, and
    unless extra keys are ignored every item is decided by some key. *)
Lemma validate_dict_spec ignore_extra_keys d data :
  NoDup (dict_keys data) ->
  validate_dict ignore_extra_keys d data = true <->
  (forall k v, In (k, v) data ->
     validate_item (sorted_skeys d) k v <> None) /\
  (forall i sk sv, In (i, (sk, sv)) (indexed d) -> is_optional sk = false ->
     exists k v, In (k, v) data /\
                 validate_item (sorted_skeys d) k v = Some (Some i)) /\
  (ignore_extra_keys = false ->
   forall k v, In (k, v) data ->
     validate_item (sorted_skeys d) k v <> Some None).
Proof.
  intros N. unfold validate_dict. split.
  - destruct (validate_items (sorted_skeys d) data [] []) as [[new cov] |] eqn:V;
      [| discriminate].
    apply validate_items_some in V as (A & B & C & D).
    destruct (required_covered d cov) eqn:R; simpl; [| discriminate].
    intros H. split; [assumption |]. split.
    + intros i sk sv Hin Ho.
      pose proof (proj1 (required_covered_spec d cov) R _ _ _ Hin Ho) as Hc.
      apply B in Hc as [[] | Hc]. assumption.
    + intros -> k v Hin. simpl in H.
      destruct (List.length new =? List.length data)%nat eqn:L;
        [| discriminate].
      apply Nat.eqb_eq in L.
      assert (I : incl new (dict_keys data)).
      { intros x Hx. apply C in Hx as [[] | (v' & j & Hx & _)].
        change x with (fst (x, v')). now apply in_map. }
      assert (I' : incl (dict_keys data) new).
      { apply NoDup_length_incl; [apply D; constructor | | assumption].
        unfold dict_keys. rewrite length_map. lia. }
      assert (Hk : In k new).
      { apply I'. change k with (fst (k, v)). now apply in_map. }
      apply C in Hk as [[] | (v' & j & Hin' & E)].
      rewrite (dict_value_unique data k v v' N Hin Hin'). congruence.
  - intros (A & B & C).
    destruct (validate_items_total (sorted_skeys d) data [] [] A) as [[new cov] V].
    rewrite V. apply validate_items_some in V as (_ & Bc & Cn & D).
    assert (R : required_covered d cov = true).
    { apply required_covered_spec. intros i sk sv Hin Ho.
      apply Bc. right. eauto. }
    rewrite R. simpl.
    destruct ignore_extra_keys; [reflexivity |]. simpl.
    specialize (C eq_refl).
    assert (I : incl new (dict_keys data)).
    { intros x Hx. apply Cn in Hx as [[] | (v' & j & Hx & _)].
      change x with (fst (x, v')). now apply in_map. }
    assert (I' : incl (dict_keys data) new).
    { intros x Hx. unfold dict_keys in Hx.
      apply in_map_iff in Hx as ([k v] & <- & Hin). simpl.
      apply Cn. right.
      destruct (validate_item (sorted_skeys d) k v) as [[j |] |] eqn:E.
      - exists v, j. auto.
      - exfalso. now apply (C k v).
      - exfalso. now apply (A k v). }
    assert (L1 : (List.length new <= List.length (dict_keys data))%nat)
      by (apply NoDup_incl_length; [apply D; constructor | assumption]).
    assert (L2 : (List.length (dict_keys data) <= List.length new)%nat)
      by (apply NoDup_incl_length; assumption).
    unfold dict_keys in L1, L2. rewrite length_map in L1, L2.
    replace (List.length new =? List.length data)%nat with true;
      [reflexivity |].
    symmetry. apply Nat.eqb_eq. lia.
Qed.

Lemma insert_entry_least e l :
  Forall (fun e' => entry_priority e' = entry_priority e) l ->
  insert_entry e l = e :: l.
Proof.
  destruct l as [| e' l']; simpl; intros H; [reflexivity |].
  inversion H as [| ? ? E _]; subst. rewrite E, Nat.leb_refl. reflexivity.
Qed.

Lemma sorted_same_priority p (l : list entry) :
  Forall (fun e => entry_priority e = p) l ->
  fold_right insert_entry [] l = l.
Proof.
  induction l as [| e l IH]; simpl; intros H; [reflexivity |].
  inversion H as [| ? ? E Hl]; subst. rewrite (IH Hl).
  apply insert_entry_least.
  eapply Forall_impl; [| exact Hl]. simpl. intros a Ha. congruence.
Qed.

Lemma index_from_literal_priority l : forall n,
  Forall (fun e => entry_priority e = 0%nat) (index_from n (literal_dict l)).
Proof.
  induction l as [| [k m] l IH]; simpl; intros n; constructor; auto.
Qed.

(** With plain string keys the priority sort changes nothing. *)
Lemma sorted_skeys_literal l :
  sorted_skeys (literal_dict l) = indexed (literal_dict l).
Proof.
  unfold sorted_skeys. eapply sorted_same_priority.
  apply index_from_literal_priority.
Qed.

Lemma validate_item_literal key value : forall l n,
  validate_item (index_from n (literal_dict l)) key value =
  match literal_find key l n with
  | None => Some None
  | Some (i, m) => if accepts m value then Some (Some i) else None
  end.
Proof.
  induction l as [| [k m] l IH]; simpl; intros n; [reflexivity |].
  unfold key_accepts. simpl.
  destruct (String.eqb k key); [reflexivity | apply IH].
Qed.

Lemma literal_find_none key : forall l n,
  literal_find key l n = None <-> ~ In key (map fst l).
Proof.
  induction l as [| [k m] l IH]; simpl; intros n.
  - tauto.
  - destruct (String.eqb_spec k key) as [-> | Hne].
    + split; [discriminate | intros H; exfalso; apply H; now left].
    + rewrite IH. tauto.
Qed.

Lemma literal_find_some key : forall l n i m,
  literal_find key l n = Some (i, m) ->
  In (key, m) l /\ In (i, (Key (Lit (VStr key)), m)) (index_from n (literal_dict l)).
Proof.
  induction l as [| [k m0] l IH]; simpl; intros n i m H; [discriminate |].
  destruct (String.eqb_spec k key) as [-> | Hne].
  - inversion H; subst. auto.
  - apply IH in H as [H1 H2]. auto.
Qed.

Lemma in_index_from_literal : forall l n i sk sv,
  In (i, (sk, sv)) (index_from n (literal_dict l)) ->
  exists k, sk = Key (Lit (VStr k)) /\ In (k, sv) l.
Proof.
  induction l as [| [k m] l IH]; simpl; intros n i sk sv H; [contradiction |].
  destruct H as [E | H].
  - inversion E; subst. exists k. auto.
  - apply IH in H as (k' & -> & Hin). exists k'. auto.
Qed.

Lemma literal_find_in key m : forall l n,
  NoDup (map fst l) -> In (key, m) l ->
  exists i, literal_find key l n = Some (i, m).
Proof.
  induction l as [| [k m0] l IH]; simpl; intros n N H; [contradiction |].
  inversion N as [| ? ? Hn N']; subst.
  destruct H as [E | H].
  - inversion E; subst. rewrite String.eqb_refl. eauto.
  - destruct (String.eqb_spec k key) as [-> | Hne].
    + exfalso. apply Hn. change key with (fst (key, m)). now apply in_map.
    + now apply IH.
Qed.

Lemma dict_get_in (d : pydict) k v :
  NoDup (dict_keys d) -> (dict_get d k = Some v <-> In (k, v) d).
Proof.
  unfold dict_keys. induction d as [| [k0 v0] d IH]; simpl; intros N.
  - split; [discriminate | contradiction].
  - inversion N as [| ? ? Hn N']; subst.
    destruct (String.eqb_spec k0 k) as [-> | Hne].
    + split.
      * intros E. inversion E; subst. now left.
      * intros [E | H]; [congruence |]. exfalso. apply Hn.
        change k with (fst (k, v)). now apply in_map.
    + rewrite (IH N'). split; [auto |]. intros [E | H]; [congruence | auto].
Qed.

Lemma literal_find_nth key : forall l n i m,
  literal_find key l n = Some (i, m) ->
  (n <= i)%nat /\ nth_error l (i - n) = Some (key, m).
Proof.
  induction l as [| [k m0] l IH]; simpl; intros n i m H; [discriminate |].
  destruct (String.eqb_spec k key) as [-> | Hne].
  - inversion H; subst. rewrite Nat.sub_diag. auto.
  - apply IH in H as [Hle Hn]. split; [lia |].
    replace (i - n)%nat with (S (i - S n)) by lia. assumption.
Qed.

(** Two keys found at the same position are the same key. *)
Lemma literal_find_same_position l n i k m k' m' :
  literal_find k l n = Some (i, m) ->
  literal_find k' l n = Some (i, m') ->
  k = k' /\ m = m'.
Proof.
  intros H H'. apply literal_find_nth in H as [_ H].
  apply literal_find_nth in H' as [_ H'].
  rewrite H in H'. inversion H'. auto.
Qed.

(** Validation against a dictionary with plain string keys. *)
Lemma validate_dict_literal ignore_extra_keys l data :
  NoDup (map fst l) -> NoDup (dict_keys data) ->
  validate_dict ignore_extra_keys (literal_dict l) data = true <->
  (forall k m, In (k, m) l ->
     exists v, dict_get data k = Some v /\ accepts m v = true) /\
  (ignore_extra_keys = false ->
   forall k, In k (dict_keys data) <-> In k (map fst l)).
Proof.
  intros Nl Nd.
  rewrite (validate_dict_spec _ _ _ Nd), sorted_skeys_literal.
  unfold indexed.
  assert (present : forall k m, In (k, m) l ->
            (exists k' v, In (k', v) data /\
               exists i, literal_find k l 0 = Some (i, m) /\
               validate_item (index_from 0 (literal_dict l)) k' v
               = Some (Some i)) ->
            exists v, In (k, v) data /\ accepts m v = true).
  { intros k m Hin (k' & v & Hd & i & Hi & E).
    rewrite validate_item_literal in E.
    destruct (literal_find k' l 0) as [[j m'] |] eqn:F; [| discriminate].
    destruct (accepts m' v) eqn:Acc; [| discriminate].
    inversion E; subst j.
    destruct (literal_find_same_position _ _ _ _ _ _ _ Hi F) as [-> ->].
    eauto. }
  split.
  - intros (A & B & C). split.
    + intros k m Hin.
      destruct (literal_find_in k m l 0 Nl Hin) as [i Hi].
      destruct (literal_find_some _ _ _ _ _ Hi) as [_ Hidx].
      destruct (B _ _ _ Hidx eq_refl) as (k' & v & Hd & E).
      destruct (present k m Hin) as (v' & Hv & Acc).
      { exists k', v. split; [assumption |]. exists i. auto. }
      exists v'. split; [now apply dict_get_in | assumption].
    + intros Hf k. specialize (C Hf). split.
      * intros Hk. unfold dict_keys in Hk.
        apply in_map_iff in Hk as ([k' v] & <- & Hin). simpl.
        specialize (C _ _ Hin). rewrite validate_item_literal in C.
        destruct (literal_find k' l 0) as [[j m'] |] eqn:F.
        -- apply literal_find_some in F as [F _].
           change k' with (fst (k', m')). now apply in_map.
        -- congruence.
      * intros Hk. apply in_map_iff in Hk as ([k' m] & <- & Hin). simpl.
        destruct (literal_find_in k' m l 0 Nl Hin) as [i Hi].
        destruct (literal_find_some _ _ _ _ _ Hi) as [_ Hidx].
        destruct (B _ _ _ Hidx eq_refl) as (k2 & v & Hd & E).
        destruct (present k' m Hin) as (v' & Hv & Acc).
        { exists k2, v. split; [assumption |]. exists i. auto. }
        unfold dict_keys. change k' with (fst (k', v')). now apply in_map.
  - intros (P & Q). split; [| split].
    + intros k v Hin. rewrite validate_item_literal.
      destruct (literal_find k l 0) as [[j m] |] eqn:F; [| discriminate].
      apply literal_find_some in F as [F _].
      destruct (P _ _ F) as (v' & G & Acc).
      apply dict_get_in in G; [| assumption].
      rewrite (dict_value_unique data k v v' Nd Hin G), Acc. discriminate.
    + intros i sk sv Hidx _.
      assert (Hidx' := Hidx).
      apply in_index_from_literal in Hidx as (k & -> & Hin).
      destruct (P _ _ Hin) as (v & G & Acc).
      apply dict_get_in in G; [| assumption].
      exists k, v. split; [assumption |].
      rewrite validate_item_literal.
      destruct (literal_find_in k sv l 0 Nl Hin) as [j Hj].
      rewrite Hj, Acc.
      (* the position found for [k] is the position of the entry *)
      assert (E : j = i).
      { clear - Hj Hidx' Nl. revert Hj Hidx'. generalize 0%nat.
        induction l as [| [k0 m0] l IH]; simpl; intros n Hj Hidx;
          [contradiction |].
        inversion Nl as [| ? ? Hn N']; subst.
        destruct (String.eqb_spec k0 k) as [-> | Hne].
        - inversion Hj; subst. destruct Hidx as [E | Hidx].
          + now inversion E.
          + exfalso. apply Hn.
            apply in_index_from_literal in Hidx as (k' & E & Hin).
            inversion E; subst. change k' with (fst (k', sv)).
            now apply in_map.
        - destruct Hidx as [E | Hidx]; [inversion E; congruence |].
          eapply IH; eauto. }
      now subst.
    + intros Hf k v Hin. rewrite validate_item_literal.
      assert (Hk : In k (map fst l)).
      { apply (Q Hf). unfold dict_keys. change k with (fst (k, v)).
        now apply in_map. }
      destruct (literal_find k l 0) as [[j m] |] eqn:F.
      * destruct (accepts m v); discriminate.
      * apply literal_find_none in F. contradiction.
Qed.

End SchemaFacts.

(** ** The tables of tests/backends/test_http_backend.py *)
Module TestTables.
Import Schema.

(** [test_query_params_match] and its [ignore_extra] variant, against the
    query [q=vk&num=10]. *)
Example query_params_table :
  map (fun d => validate_dict false d [("q", VStr "vk"); ("num", VStr "10")])
    [ [(Key (Examples.L "q"), Examples.L "vk");
       (Key (Examples.L "num"), Examples.L "10")];
      [(Key (Examples.L "q"), regex_of ".*v.*k.*");
       (Key (Examples.L "num"), Examples.L "10")];
      [(Key (regex_of ".*"), regex_of ".*")];
      [(Key (regex_of "nu.*"), regex_of "1.*");
       (Optional (Examples.L "q"), TypeStr)];
      [(Key (Examples.L "q"), Examples.L "ya")];
      [(Key (Examples.L "foo"), Examples.L "bar")];
      [];
      [(Key TypeStr, Or [regex_of ".*vk"; Examples.L "10"])] ]
  = [true; true; true; true; false; false; false; true] /\
  map (fun d => validate_dict true d [("q", VStr "vk"); ("num", VStr "10")])
    [ [(Key (Examples.L "q"), Examples.L "vk")];
      [(Key (Examples.L "q"), regex_of ".*v.*k.*")];
      [(Key (Examples.L "num"), Examples.L "10")];
      [(Key (regex_of "nu.*"), Examples.L "10")];
      [(Key (Examples.L "foo"), Examples.L "bar")];
      [(Key (Examples.L "q"), Examples.L "ya")];
      [] ]
  = [true; true; true; true; false; false; true].
Proof. split; vm_compute; reflexivity. Qed.

(** [test_headers_match] and its [ignore_extra] variant, against the
    headers [foo: bar], [foo1: bar1], [foo2: bar2]. *)
Example headers_table :
  map (fun d => validate_dict false d
                  [("foo", VStr "bar"); ("foo1", VStr "bar1");
                   ("foo2", VStr "bar2")])
    [ [(Key (Examples.L "foo"), Examples.L "bar");
       (Key (Examples.L "foo1"), Examples.L "bar1");
       (Key (Examples.L "foo2"), Examples.L "bar2")];
      [(Key (Examples.L "foo"), Examples.L "bar");
       (Key (Examples.L "foo1"), regex_of ".*ba");
       (Key (Examples.L "foo2"), Examples.L "bar2")];
      [(Key (Examples.L "foo"), Examples.L "bar");
       (Key (Examples.L "foo1"), Examples.L "bar1")];
      [(Key (Examples.L "foo4"), Examples.L "bar4")];
      [];
      [(Key (Examples.L "foo"), regex_of ".*ba");
       (Key (Examples.L "foo1"), regex_of ".*ba")];
      [(Key (regex_of "fo.*"), regex_of ".*ba")];
      [(Key TypeStr, regex_of "bar.*")];
      [(Key TypeStr, regex_of "bar1.*")] ]
  = [true; true; false; false; false; false; true; true; false] /\
  map (fun d => validate_dict true d
                  [("foo", VStr "bar"); ("foo1", VStr "bar1");
                   ("foo2", VStr "bar2")])
    [ [(Key (Examples.L "foo"), Examples.L "bar");
       (Key (Examples.L "foo1"), Examples.L "bar1");
       (Key (Examples.L "foo2"), Examples.L "bar2")];
      [(Key (Examples.L "foo4"), Examples.L "bar4")];
      [(Key (Examples.L "foo"), Examples.L "bar");
       (Key (Examples.L "foo1"), Examples.L "bar1")];
      [(Key (Examples.L "foo"), Examples.L "bar");
       (Key (Examples.L "foo1"), regex_of ".*ba")];
      [];
      [(Key (Examples.L "foo"), regex_of ".*ba");
       (Key (Examples.L "foo1"), regex_of ".*ba")] ]
  = [true; false; true; true; true; true].
Proof. split; vm_compute; reflexivity. Qed.

(** [test_method_matches] and [test_path_matches], against [GET /search]. *)
Example method_and_path_table :
  map (fun m => HTTP.method_mathes (Examples.method_rule m)
                  Examples.search_request)
    ["get"; "GeT"; "post"; ""]
  = [true; true; false; false] /\
  map (fun p => is_valid false (SVal p) (DVal (VStr "/search")))
    [ Examples.L "/search"; Examples.L "/another_search"; Examples.L "";
      regex_of "/se.*"; regex_of "/an.*" ]
  = [true; false; false; true; false].
Proof. split; vm_compute; reflexivity. Qed.

End TestTables.

(** ** Case-insensitive comparison *)
Module PyStrFacts.
Import PyStr.

Lemma in_all_ascii c : In c all_ascii.
Proof.
  unfold all_ascii. rewrite <- (ascii_nat_embedding c).
  apply in_map, in_seq. pose proof (nat_ascii_bounded c). lia.
Qed.



(** Away from the sharp s, two characters fold to the same code point
    exactly when they are the same letter. *)
Lemma fold_code_same_letter c d :
  Ascii.eqb c sharp_s = false -> Ascii.eqb d sharp_s = false ->
  Nat.eqb (fold_code c) (fold_code d) = same_letter c d.
Proof.
  assert (T : forallb (fun c => forallb (fun d =>
                Ascii.eqb c sharp_s || Ascii.eqb d sharp_s
                || Bool.eqb (Nat.eqb (fold_code c) (fold_code d))
                            (same_letter c d)) all_ascii) all_ascii = true)
    by (vm_compute; reflexivity).
  rewrite forallb_forall in T. specialize (T c (in_all_ascii c)).
  rewrite forallb_forall in T. specialize (T d (in_all_ascii d)).
  intros Hc Hd. rewrite Hc, Hd in T. simpl in T.
  now apply Bool.eqb_prop in T.
Qed.

(** On strings without the sharp s, comparing the folded strings is
    comparing up to letter case. *)
Lemma casefold_eqb_caseless : forall a b,
  no_sharp_s a = true -> no_sharp_s b = true ->
  codes_eqb (casefold a) (casefold b) = caseless_eqb a b.
Proof.
  induction a as [| c a IH]; destruct b as [| d b]; simpl; intros Ha Hb;
    try reflexivity.
  - apply andb_true_iff in Hb as [Hd _]. apply negb_true_iff in Hd.
    unfold casefold_char. now rewrite Hd.
  - apply andb_true_iff in Ha as [Hc _]. apply negb_true_iff in Hc.
    unfold casefold_char. now rewrite Hc.
  - apply andb_true_iff in Ha as [Hc Ha]. apply negb_true_iff in Hc.
    apply andb_true_iff in Hb as [Hd Hb]. apply negb_true_iff in Hd.
    unfold casefold_char. rewrite Hc, Hd. simpl.
    now rewrite fold_code_same_letter, IH.
Qed.

Lemma codes_eqb_eq : forall a b, codes_eqb a b = true <-> a = b.
Proof.
  induction a as [| x a IH]; destruct b as [| y b]; simpl;
    try (split; [discriminate | discriminate]); [tauto |].
  rewrite andb_true_iff, Nat.eqb_eq, IH. split.
  - intros [-> ->]. reflexivity.
  - intros E. inversion E. auto.
Qed.

Lemma casefold_app : forall a b,
  casefold (a ++ b) = casefold a ++ casefold b.
Proof.
  induction a as [| c a IH]; intros b; simpl; [reflexivity |].
  now rewrite IH, app_assoc.
Qed.

(** Letters outside ASCII: the method [GET] written with a capital E acute
    against its small form, and the name [strasse] against the same name
    with the sharp s. *)
Example latin1_case_table :
  String.eqb
    (lower (String "G" (String (ascii_of_nat 201) "T")))
    (lower (String "g" (String (ascii_of_nat 233) "t"))) = true /\
  codes_eqb
    (casefold (String (ascii_of_nat 201) ""))
    (casefold (String (ascii_of_nat 233) "")) = true /\
  codes_eqb
    (casefold "strasse")
    (casefold ("stra" ++ String sharp_s "e")) = true /\
  String.eqb (lower "strasse") (lower ("stra" ++ String sharp_s "e")) = false.
Proof. repeat split. Qed.

End PyStrFacts.

(** ** The rule engines *)
Module RuleFacts.
Import Schema.

Lemma http_loop_first_match request : forall pre rule post,
  (forall r, In r pre -> HTTP.matches r request = false) ->
  HTTP.matches rule request = true ->
  HTTP.handle_loop (pre ++ rule :: post) request =
  (pre ++ [rule], Some (HTTP.process (HTTP.result rule) request)).
Proof.
  induction pre as [| r pre IH]; simpl; intros rule post Hpre Hm.
  - now rewrite Hm.
  - rewrite (Hpre r (or_introl eq_refl)).
    rewrite (IH rule post); [reflexivity | | assumption].
    intros x Hx. apply Hpre. now right.
Qed.

Lemma http_loop_no_match request : forall rules,
  (forall r, In r rules -> HTTP.matches r request = false) ->
  HTTP.handle_loop rules request = (rules, None).
Proof.
  induction rules as [| r rules IH]; simpl; intros H; [reflexivity |].
  rewrite (H r (or_introl eq_refl)), IH; [reflexivity |].
  intros x Hx. apply H. now right.
Qed.

(** A rule that does not match and whose message class decodes the request
    whenever its method matches makes the loop go on. *)
Lemma grpc_loop_skip rule rest grpc_method request :
  GRPC.rule_matches rule grpc_method request = false ->
  (GRPC.method_matches rule grpc_method = true ->
   GRPC.FromString (GRPC.request_msg_cls rule) request <> None) ->
  GRPC.handler_loop (rule :: rest) grpc_method request =
  (rule :: fst (GRPC.handler_loop rest grpc_method request),
   snd (GRPC.handler_loop rest grpc_method request)).
Proof.
  unfold GRPC.rule_matches. simpl. intros Hm Hd.
  destruct (GRPC.handler_loop rest grpc_method request) as [seen r].
  destruct (GRPC.method_matches rule grpc_method); [| reflexivity].
  simpl in Hm.
  destruct (GRPC.FromString (GRPC.request_msg_cls rule) request) as [msg |].
  - now rewrite Hm.
  - exfalso. now apply Hd.
Qed.

Lemma grpc_loop_first_match grpc_method request : forall pre rule post msg,
  (forall r, In r pre -> GRPC.rule_matches r grpc_method request = false) ->
  (forall r, In r pre -> GRPC.method_matches r grpc_method = true ->
     GRPC.FromString (GRPC.request_msg_cls r) request <> None) ->
  GRPC.method_matches rule grpc_method = true ->
  GRPC.FromString (GRPC.request_msg_cls rule) request = Some msg ->
  GRPC.message_args_match rule msg = true ->
  GRPC.handler_loop (pre ++ rule :: post) grpc_method request =
  (pre ++ [rule], GRPC.Answer (GRPC.output_handler rule msg)).
Proof.
  induction pre as [| r pre IH]; intros rule post msg Hpre Hdec Hm Hd Ha.
  - simpl. now rewrite Hm, Hd, Ha.
  - change ((r :: pre) ++ rule :: post) with (r :: (pre ++ rule :: post)).
    rewrite grpc_loop_skip.
    + rewrite (IH rule post msg); auto.
      * intros x Hx. apply Hpre. now right.
      * intros x Hx. apply Hdec. now right.
    + apply Hpre. now left.
    + apply Hdec. now left.
Qed.

Lemma grpc_loop_no_match grpc_method request : forall rules,
  (forall r, In r rules -> GRPC.rule_matches r grpc_method request = false) ->
  (forall r, In r rules -> GRPC.method_matches r grpc_method = true ->
     GRPC.FromString (GRPC.request_msg_cls r) request <> None) ->
  GRPC.handler_loop rules grpc_method request = (rules, GRPC.Exhausted).
Proof.
  induction rules as [| r rules IH]; intros Hn Hdec; [reflexivity |].
  rewrite grpc_loop_skip.
  - rewrite IH; [reflexivity | |].
    + intros x Hx. apply Hn. now right.
    + intros x Hx. apply Hdec. now right.
  - apply Hn. now left.
  - apply Hdec. now left.
Qed.

Lemma dict_set_keys k v : forall d,
  dict_keys (GRPC.dict_set k v d) =
  if existsb (String.eqb k) (dict_keys d) then dict_keys d
  else dict_keys d ++ [k].
Proof.
  unfold dict_keys.
  induction d as [| [k' v'] d IH]; simpl; [reflexivity |].
  rewrite (String.eqb_sym k k').
  destruct (String.eqb k' k); simpl; [reflexivity |].
  rewrite IH. destruct (existsb (String.eqb k) (map fst d)); reflexivity.
Qed.

(** The dictionary built from the fields of a message has no repeated key. *)
Lemma fields_dict_nodup message_ : NoDup (dict_keys (GRPC.fields_dict message_)).
Proof.
  unfold GRPC.fields_dict.
  assert (G : forall items d, NoDup (dict_keys d) ->
            NoDup (dict_keys
                     (fold_left (fun d kv => GRPC.dict_set (fst kv) (snd kv) d)
                                items d))).
  { induction items as [| [k v] items IH]; simpl; intros d N; [assumption |].
    apply IH. rewrite dict_set_keys.
    change (NoDup (add_key k (dict_keys d))).
    now apply SchemaFacts.nodup_add_key. }
  apply G. constructor.
Qed.

Lemma to_dict_keys m : dict_keys (HTTP.to_dict m) = map fst m.
Proof.
  unfold dict_keys, HTTP.to_dict. rewrite map_map. reflexivity.
Qed.

(** On validators with plain string keys the specification's wording and
    the spelled-out match agree. *)
Lemma keys_match_spec tolerance l actual :
  NoDup (dict_keys actual) ->
  keys_match tolerance l actual <->
  spec_mapping_match tolerance (literal_dict l) actual.
Proof.
  intros N. unfold keys_match, spec_mapping_match, literal_dict. split.
  - intros [P Q]. split.
    + intros sk sv Hin. apply in_map_iff in Hin as ([k m] & E & Hin).
      inversion E; subst. simpl.
      destruct (P _ _ Hin) as (v & G & Acc).
      exists k, v. split; [now apply SchemaFacts.dict_get_in |].
      split; [| assumption]. unfold key_accepts. simpl. apply String.eqb_refl.
    + intros Hf k Hk. apply (Q Hf) in Hk.
      apply in_map_iff in Hk as ([k' m] & <- & Hin). simpl.
      exists (Key (Lit (VStr k'))), m. split.
      * apply in_map_iff. exists (k', m). auto.
      * unfold key_accepts. simpl. apply String.eqb_refl.
  - intros [P Q]. split.
    + intros k m Hin.
      destruct (P (Key (Lit (VStr k))) m) as (k' & v & Hd & Hk & Acc).
      { apply in_map_iff. exists (k, m). auto. }
      unfold key_accepts in Hk. simpl in Hk. apply String.eqb_eq in Hk.
      subst k'. exists v. split; [now apply SchemaFacts.dict_get_in | assumption].
    + intros Hf k. split.
      * intros Hk. destruct (Q Hf k Hk) as (sk & sv & Hin & Hacc).
        apply in_map_iff in Hin as ([k' m] & E & Hin). inversion E; subst.
        unfold key_accepts in Hacc. simpl in Hacc.
        apply String.eqb_eq in Hacc.
        apply in_map_iff. eexists. split; [| exact Hin]. exact Hacc.
      * intros Hk. apply in_map_iff in Hk as ([k' m] & <- & Hin). simpl.
        destruct (P (Key (Lit (VStr k'))) m) as (k2 & v & Hd & Hk & Acc).
        { apply in_map_iff. exists (k', m). auto. }
        unfold key_accepts in Hk. simpl in Hk. apply String.eqb_eq in Hk.
        subst k2. unfold dict_keys. change k' with (fst (k', v)).
        now apply in_map.
Qed.

End RuleFacts.

(** ** Claims about the rule engines *)


(** C1, as the code has it. Rules are tried in declaration order: when no
    rule of [pre] matches and [rule] does, the HTTP handler answers with
    the result of [rule] and has called [matches] on [pre] and [rule] only,
    whatever follows. The gRPC handler does the same, returning the output
    of [rule]'s handler on the decoded message, provided that every earlier
    rule whose method matches can decode the request bytes. *)
Theorem first_matching_rule_wins :
  forall (request : HTTP.Request) (pre : list HTTP.HTTPRule)
         (rule : HTTP.HTTPRule) (post : list HTTP.HTTPRule)
         (grpc_method : string) (payload : GRPC.bytes)
         (context : GRPC.Context) (gpre : list GRPC.GRPCRule)
         (grule : GRPC.GRPCRule) (gpost : list GRPC.GRPCRule),
    ((forall r, In r pre -> HTTP.matches r request = false) ->
     HTTP.matches rule request = true ->
     HTTP.handle (pre ++ rule :: post) request
     = HTTP.process (HTTP.result rule) request /\
     HTTP.consulted (pre ++ rule :: post) request = pre ++ [rule]) /\
    ((forall r, In r gpre ->
        GRPC.rule_matches r grpc_method payload = false) ->
     (forall r, In r gpre -> GRPC.method_matches r grpc_method = true ->
        GRPC.FromString (GRPC.request_msg_cls r) payload <> None) ->
     GRPC.rule_matches grule grpc_method payload = true ->
     exists msg,
       GRPC.FromString (GRPC.request_msg_cls grule) payload = Some msg /\
       GRPC._handler (gpre ++ grule :: gpost) grpc_method payload context
       = GRPC.Returned (Some (GRPC.output_handler grule msg)) context /\
       GRPC.consulted (gpre ++ grule :: gpost) grpc_method payload
       = gpre ++ [grule]).
Proof.
  intros request pre rule post grpc_method payload context gpre grule gpost.
  split.
  - intros Hpre Hm. unfold HTTP.handle, HTTP.consulted.
    rewrite (RuleFacts.http_loop_first_match request pre rule post Hpre Hm).
    auto.
  - intros Hpre Hdec Hm. unfold GRPC.rule_matches in Hm.
    apply andb_true_iff in Hm as [Hmeth Hargs].
    destruct (GRPC.FromString (GRPC.request_msg_cls grule) payload)
      as [msg |] eqn:D; [| discriminate].
    exists msg. unfold GRPC._handler, GRPC.consulted.
    rewrite (RuleFacts.grpc_loop_first_match grpc_method payload gpre grule
               gpost msg Hpre Hdec Hmeth D Hargs).
    auto.
Qed.

(** Two overlapping HTTP rules and two overlapping gRPC rules: the earlier
    one answers. *)
Lemma first_matching_rule_wins_witness :
  (HTTP.handle [Examples.another_rule; HTTP.default_rule]
     Examples.search_request
   = HTTP.process (HTTP.result Examples.another_rule) Examples.search_request /\
   HTTP.consulted [Examples.another_rule; HTTP.default_rule]
     Examples.search_request = [Examples.another_rule]) /\
  exists msg,
    GRPC.FromString (GRPC.request_msg_cls Examples.any_lookup_rule)
      Examples.payload_42 = Some msg /\
    GRPC._handler [Examples.any_lookup_rule; Examples.catch_all_rule]
      "lookup" Examples.payload_42 GRPC.fresh_context
    = GRPC.Returned
        (Some (GRPC.output_handler Examples.any_lookup_rule msg))
        GRPC.fresh_context /\
    GRPC.consulted [Examples.any_lookup_rule; Examples.catch_all_rule]
      "lookup" Examples.payload_42 = [Examples.any_lookup_rule].
Proof.
  pose proof (first_matching_rule_wins Examples.search_request []
                Examples.another_rule [HTTP.default_rule]
                "lookup" Examples.payload_42 GRPC.fresh_context []
                Examples.any_lookup_rule [Examples.catch_all_rule])
    as [H G].
  split.
  - apply H; [intros r [] | reflexivity].
  - apply G; [intros r [] | intros r [] | reflexivity].
Defined.

(** C1, as stated, fails for gRPC: the first rule's message class cannot
    decode the payload, so that rule does not match; the second rule
    matches; yet the call ends with the decoding error instead of the
    second rule's answer. *)
Lemma first_matching_rule_wins_counterexample :
  (forall r, In r [Examples.any_lookup_rule] ->
     GRPC.rule_matches r "lookup" Examples.payload_bad_text = false) /\
  GRPC.rule_matches Examples.catch_all_rule "lookup"
    Examples.payload_bad_text = true /\
  GRPC._handler [Examples.any_lookup_rule; Examples.catch_all_rule]
    "lookup" Examples.payload_bad_text GRPC.fresh_context
  = GRPC.Raised GRPC.DecodeError /\
  forall msg,
    GRPC._handler [Examples.any_lookup_rule; Examples.catch_all_rule]
      "lookup" Examples.payload_bad_text GRPC.fresh_context
    <> GRPC.Returned
         (Some (GRPC.output_handler Examples.catch_all_rule msg))
         GRPC.fresh_context.
Proof.
  repeat split.
  - intros r [<- | []]. reflexivity.
  - intros msg. vm_compute. discriminate.
Qed.

(** C5, as the code has it. When no rule matches, the HTTP handler returns
    status 404 with a JSON body that echoes the request's method, path,
    query parameters and headers; the gRPC handler aborts the call with
    INVALID_ARGUMENT and a diagnostic text and returns no bytes, provided
    that every rule whose method matches can decode the request bytes. *)
Theorem no_match_error_response :
  forall (rules : list HTTP.HTTPRule) (request : HTTP.Request)
         (grules : list GRPC.GRPCRule) (grpc_method : string)
         (payload : GRPC.bytes) (context : GRPC.Context),
    ((forall r, In r rules -> HTTP.matches r request = false) ->
     HTTP.handle rules request =
     {| HTTP.resp_body :=
          HTTP.JsonBody
            (HTTP.JObj
               [ ("ERROR",
                  HTTP.JStr "No matching rule found for incoming request");
                 ("incoming_request_info",
                  HTTP.JObj
                    [ ("method", HTTP.JStr (HTTP.req_method request));
                      ("path", HTTP.JStr (HTTP.rel_url_path request));
                      ("query_params",
                       HTTP.json_of_dict (HTTP.rel_url_query request));
                      ("headers",
                       HTTP.json_of_dict (HTTP.req_headers request)) ]) ]);
        HTTP.resp_status := 404 |}) /\
    ((forall r, In r grules ->
        GRPC.rule_matches r grpc_method payload = false) ->
     (forall r, In r grules -> GRPC.method_matches r grpc_method = true ->
        GRPC.FromString (GRPC.request_msg_cls r) payload <> None) ->
     GRPC._handler grules grpc_method payload context =
     GRPC.Returned None
       {| GRPC.aborted :=
            Some (GRPC.INVALID_ARGUMENT, "no matched GRPC rules found") |}).
Proof.
  intros rules request grules grpc_method payload context. split.
  - intros H. unfold HTTP.handle.
    rewrite (RuleFacts.http_loop_no_match request rules H). reflexivity.
  - intros Hn Hdec. unfold GRPC._handler.
    rewrite (RuleFacts.grpc_loop_no_match grpc_method payload grules Hn Hdec).
    reflexivity.
Qed.

(** The rule on [/search] against a request without query, and the rule on
    [id == "42"] against a message with [id = "7"]. *)
Lemma no_match_error_response_witness :
  HTTP.resp_status (HTTP.handle [Examples.found_rule] Examples.bare_request)
  = 404%Z /\
  GRPC._handler [Examples.lookup_rule] "lookup" Examples.payload_7
    GRPC.fresh_context
  = GRPC.Returned None
      {| GRPC.aborted :=
           Some (GRPC.INVALID_ARGUMENT, "no matched GRPC rules found") |}.
Proof.
  pose proof (no_match_error_response [Examples.found_rule]
                Examples.bare_request [Examples.lookup_rule] "lookup"
                Examples.payload_7 GRPC.fresh_context) as [H G].
  split.
  - rewrite H; [reflexivity |]. intros r [<- | []]. reflexivity.
  - apply G.
    + intros r [<- | []]. reflexivity.
    + intros r [<- | []] _. discriminate.
Defined.

(** C5, as stated, fails for gRPC: the only rule's message class cannot
    decode the payload, so no rule matches, and the call ends with the
    decoding error instead of an abort. *)
Lemma no_match_error_response_counterexample :
  (forall r, In r [Examples.lookup_rule] ->
     GRPC.rule_matches r "lookup" Examples.payload_bad_text = false) /\
  GRPC._handler [Examples.lookup_rule] "lookup" Examples.payload_bad_text
    GRPC.fresh_context
  = GRPC.Raised GRPC.DecodeError /\
  (forall response context,
     GRPC._handler [Examples.lookup_rule] "lookup" Examples.payload_bad_text
       GRPC.fresh_context
     <> GRPC.Returned response context).
Proof.
  repeat split.
  - intros r [<- | []]. reflexivity.
  - intros response context. vm_compute. discriminate.
Qed.

(** C2, as the code has it. For a mapping validator whose keys are plain
    strings (none of them a pattern, a type or [Optional]) and an actual
    mapping: the match succeeds exactly when every key of the validator is
    in the actual mapping with a value its validator accepts and, when the
    tolerance flag is unset, the actual key set equals the validator's key
    set. This holds for the query parameters and the headers of an HTTP
    rule and for the message fields of a gRPC rule. The validator
    [{"q": "vk"}] against [{"q": "vk", "num": "10"}] fails without
    tolerance and succeeds with it. *)
Theorem mapping_match_plain_keys :
  forall (tolerance : bool) (l : list (string * Schema.matcher))
         (actual : pydict),
    NoDup (map fst l) ->
    NoDup (dict_keys actual) ->
    (forall rule request,
       HTTP.query_params rule = Some (Schema.literal_dict l) ->
       HTTP.ignore_extra_query_params rule = tolerance ->
       HTTP.to_dict (HTTP.rel_url_query request) = actual ->
       (HTTP.query_params_match rule request = true <->
        Schema.keys_match tolerance l actual)) /\
    (forall rule request,
       HTTP.headers rule = Some (Schema.literal_dict l) ->
       HTTP.ignore_extra_headers rule = tolerance ->
       HTTP.to_dict (HTTP.req_headers request) = actual ->
       (HTTP.headers_match rule request = true <->
        Schema.keys_match tolerance l actual)) /\
    (forall rule message_,
       GRPC.message_args rule = Some (Schema.literal_dict l) ->
       GRPC.ignore_extra_message_args rule = tolerance ->
       GRPC.fields_dict message_ = actual ->
       (GRPC.message_args_match rule message_ = true <->
        Schema.keys_match tolerance l actual)) /\
    (Schema.keys_match tolerance l actual <->
     Schema.spec_mapping_match tolerance (Schema.literal_dict l) actual) /\
    HTTP.query_params_match
      (Examples.query_rule
         (Schema.literal_dict [("q", Examples.L "vk")]) false)
      Examples.search_request = false /\
    HTTP.query_params_match
      (Examples.query_rule
         (Schema.literal_dict [("q", Examples.L "vk")]) true)
      Examples.search_request = true.
Proof.
  intros tolerance l actual Nl Na.
  pose proof (SchemaFacts.validate_dict_literal tolerance l actual Nl Na) as V.
  split; [| split; [| split; [| split; [| split]]]].
  - intros rule request Hq Hf Hd. unfold HTTP.query_params_match.
    rewrite Hq, Hf, Hd. exact V.
  - intros rule request Hh Hf Hd. unfold HTTP.headers_match.
    rewrite Hh, Hf, Hd. exact V.
  - intros rule message_ Hm Hf Hd. unfold GRPC.message_args_match.
    rewrite Hm, Hf, Hd. exact V.
  - apply (RuleFacts.keys_match_spec tolerance l actual Na).
  - reflexivity.
  - reflexivity.
Qed.

(** The validator [{"q": "vk"}] with tolerance, against the query of the
    sample request. *)
Lemma mapping_match_plain_keys_witness :
  HTTP.query_params_match
    (Examples.query_rule (Schema.literal_dict [("q", Examples.L "vk")]) true)
    Examples.search_request = true <->
  Schema.keys_match true [("q", Examples.L "vk")]
    (HTTP.to_dict (HTTP.rel_url_query Examples.search_request)).
Proof.
  assert (Nl : NoDup (map fst [("q", Examples.L "vk")])).
  { repeat constructor. simpl. tauto. }
  assert (Na : NoDup (dict_keys
                        (HTTP.to_dict
                           (HTTP.rel_url_query Examples.search_request)))).
  { repeat constructor; simpl; intuition discriminate. }
  destruct (mapping_match_plain_keys true [("q", Examples.L "vk")]
              (HTTP.to_dict (HTTP.rel_url_query Examples.search_request))
              Nl Na) as [H _].
  apply H; reflexivity.
Defined.

(** C2, as stated, fails on a validator with an [Optional] key: the
    validator [{Optional("q"): "vk"}] matches the empty mapping, with or
    without tolerance, although its key is not in the mapping. *)
Lemma mapping_match_optional_counterexample :
  HTTP.query_params_match
    (Examples.query_rule [(Schema.Optional (Examples.L "q"), Examples.L "vk")]
       true)
    Examples.bare_request = true /\
  HTTP.query_params_match
    (Examples.query_rule [(Schema.Optional (Examples.L "q"), Examples.L "vk")]
       false)
    Examples.bare_request = true /\
  (forall tolerance,
     ~ Schema.spec_mapping_match tolerance
         [(Schema.Optional (Examples.L "q"), Examples.L "vk")]
         (HTTP.to_dict (HTTP.rel_url_query Examples.bare_request))).
Proof.
  split; [reflexivity | split; [reflexivity |]].
  intros tolerance [P _].
  destruct (P (Schema.Optional (Examples.L "q")) (Examples.L "vk"))
    as (k & v & [] & _).
  now left.
Qed.

(** ** Orchestration *)
Module APIFacts.
Import API.

Lemma nodup_length_le (l : list Z) :
  (List.length (nodup Z.eq_dec l) <= List.length l)%nat.
Proof.
  induction l as [| x l IH]; simpl; [lia |].
  destruct (in_dec Z.eq_dec x l); simpl; lia.
Qed.

Lemma nodup_length_eq (l : list Z) :
  List.length (nodup Z.eq_dec l) = List.length l <-> NoDup l.
Proof.
  split.
  - induction l as [| x l IH]; simpl; intros H; [constructor |].
    destruct (in_dec Z.eq_dec x l) as [Hin | Hn]; simpl in H.
    + pose proof (nodup_length_le l). lia.
    + constructor; [assumption | apply IH; lia].
  - intros N. now rewrite (nodup_fixed_point Z.eq_dec N).
Qed.

Lemma same_port_spec backends :
  same_port backends = false <-> NoDup (map port backends).
Proof.
  unfold same_port. rewrite negb_false_iff, Nat.eqb_eq.
  rewrite <- nodup_length_eq, length_map. split; intros H; lia.
Qed.

Lemma same_port_shared backends i j bi bj :
  i <> j ->
  nth_error backends i = Some bi ->
  nth_error backends j = Some bj ->
  port bi = port bj ->
  same_port backends = true.
Proof.
  intros Hij Hi Hj Hp.
  destruct (same_port backends) eqn:E; [reflexivity |].
  apply same_port_spec in E. exfalso. apply Hij.
  rewrite NoDup_nth_error in E. apply E.
  - rewrite length_map. apply nth_error_Some. congruence.
  - rewrite !nth_error_map, Hi, Hj. simpl. congruence.
Qed.

Section Schedule.

Variable clock : nat -> Z.
Variable arrivals : nat -> list string.

Lemma start_each_spec : forall backends w,
  start_each backends w =
  Some (Ok (map new_process backends),
        {| events := events w ++ map ProcessStarted (map new_process backends);
           start_signals := start_signals w;
           clock_reads := clock_reads w;
           list_reads := list_reads w |}).
Proof.
  induction backends as [| b backends IH]; intros w.
  - simpl. unfold ret. rewrite app_nil_r. now destruct w.
  - simpl. unfold bind, start_backend, bind, act, ret. simpl.
    rewrite IH. simpl. rewrite <- app_assoc. reflexivity.
Qed.

(** The polling loop leaves the trace alone. *)
Lemma wait_started_events : forall fuel start timeout n w r w',
  wait_started clock arrivals fuel start timeout n w = Some (r, w') ->
  events w' = events w.
Proof.
  induction fuel as [| fuel IH]; simpl; intros start timeout n w r w' H.
  - discriminate.
  - unfold bind, monotonic, read_signals in H. simpl in H.
    destruct (clock (clock_reads w) - start <? timeout)%Z.
    + simpl in H.
      destruct (List.length (start_signals w ++ arrivals (list_reads w)) =? n)%nat.
      * unfold ret in H. inversion H; subst. reflexivity.
      * apply IH in H. simpl in H. assumption.
    + simpl in H. unfold raise in H. inversion H; subst. reflexivity.
Qed.

(** If the list holds [n] tokens at the poll number [k] and every poll up
    to that one reads the clock before the deadline, the loop ends normally
    with [n] tokens in the list. *)
Lemma wait_started_ready : forall k fuel start timeout n w,
  (k < fuel)%nat ->
  (forall j, (j <= k)%nat ->
     (clock (clock_reads w + j) - start < timeout)%Z) ->
  List.length (arrived arrivals w k) = n ->
  exists w',
    wait_started clock arrivals fuel start timeout n w = Some (Ok tt, w') /\
    List.length (start_signals w') = n /\
    events w' = events w.
Proof.
  induction k as [| k IH]; intros fuel start timeout n w Hf Hc Hl;
    (destruct fuel as [| fuel]; [lia |]); simpl;
    unfold bind, monotonic, read_signals; simpl.
  - pose proof (Hc 0%nat (Nat.le_refl _)) as H0.
    rewrite Nat.add_0_r in H0. apply Z.ltb_lt in H0. rewrite H0. simpl.
    unfold arrived in Hl. simpl in Hl. rewrite app_nil_r in Hl.
    rewrite Hl, Nat.eqb_refl. unfold ret. eexists. split; [reflexivity |].
    simpl. auto.
  - pose proof (Hc 0%nat (Nat.le_0_l _)) as H0.
    rewrite Nat.add_0_r in H0. apply Z.ltb_lt in H0. rewrite H0. simpl.
    destruct (List.length (start_signals w ++ arrivals (list_reads w)) =? n)%nat
      eqn:E.
    + unfold ret. eexists. split; [reflexivity |]. simpl.
      apply Nat.eqb_eq in E. auto.
    + edestruct (IH fuel start timeout n) as (w' & Hw & Hlen & Hev);
        [| | | exists w'; split; [exact Hw | split; [exact Hlen | exact Hev]]].
      * lia.
      * simpl. intros j Hj. replace (S (clock_reads w + j))%nat
          with (clock_reads w + S j)%nat by lia. apply Hc. lia.
      * unfold arrived in *. simpl in *. rewrite <- app_assoc. exact Hl.
Qed.

(** What a successful start has done. *)
Lemma start_backends_ok fuel backends timeout w procs w1 :
  start_backends clock arrivals fuel backends timeout w = Some (Ok procs, w1) ->
  procs = map new_process backends /\
  events w1 =
  events w ++ [ManagerStarted; ListCreated]
  ++ map ProcessStarted procs ++ [ManagerShutdown].
Proof.
  unfold start_backends. destruct (same_port backends); [discriminate |].
  unfold bind, act, finally_, manager_list. simpl.
  rewrite start_each_spec. simpl. unfold monotonic. simpl.
  match goal with
  | |- context [wait_started clock arrivals fuel ?s ?t ?n ?w0] =>
      destruct (wait_started clock arrivals fuel s t n w0)
        as [[[[] | e] w'] |] eqn:W
  end; try discriminate.
  unfold ret. intros H. inversion H; subst. split; [reflexivity |].
  apply wait_started_events in W. simpl in *. rewrite W.
  rewrite <- !app_assoc. reflexivity.
Qed.

Lemma release_events : forall procs w,
  events (release procs w) =
  events w ++ map Terminated procs ++ map Joined procs.
Proof.
  assert (G : forall (f : Process -> event) procs w,
            events (fold_left (fun w' proc => emit (f proc) w') procs w)
            = events w ++ map f procs).
  { intros f. induction procs as [| p procs IH]; intros w; simpl.
    - now rewrite app_nil_r.
    - rewrite IH. simpl. now rewrite <- app_assoc. }
  intros procs w. unfold release. rewrite (G Joined), (G Terminated).
  now rewrite <- app_assoc.
Qed.

End Schedule.

Lemma clear_logs_queue_spec : forall fuel self,
  (List.length (logs_queue self) < fuel)%nat ->
  clear_logs_queue fuel self =
  Some {| logs_queue := []; logs_storage := logs_storage self |}.
Proof.
  induction fuel as [| fuel IH]; intros [q st] H; simpl in *; [lia |].
  unfold get_nowait. simpl. destruct q as [| r q]; [reflexivity |].
  rewrite IH; [reflexivity | simpl in *; lia].
Qed.

Lemma collect_from_queue_spec : forall fuel self,
  (List.length (logs_queue self) < fuel)%nat ->
  collect_from_queue fuel self =
  Some {| logs_queue := [];
          logs_storage := logs_storage self ++ logs_queue self |}.
Proof.
  induction fuel as [| fuel IH]; intros [q st] H; simpl in *; [lia |].
  unfold get_nowait. simpl. destruct q as [| r q].
  - now rewrite app_nil_r.
  - rewrite IH; simpl in *; [| lia]. now rewrite <- app_assoc.
Qed.

Lemma put_all_spec {A} (r : result A) : forall rs s,
  Examples.put_all rs r s =
  (r, {| logs_queue := logs_queue s ++ rs; logs_storage := logs_storage s |}).
Proof.
  unfold Examples.put_all. induction rs as [| x rs IH]; intros s; simpl.
  - rewrite app_nil_r. now destruct s.
  - specialize (IH (put x s)). inversion IH as [E]. rewrite E. simpl.
    now rewrite <- app_assoc.
Qed.

(** The records [has_log_record] looks at: those of the given level, and
    whether one of them matches. *)
Lemma has_record_spec pattern level self :
  existsb (fun log => Re.match_ pattern (message log))
    (filter_logs (Some level) None self) = true <->
  exists log, In log (logs_storage self) /\ levelname log = level /\
              Re.match_ pattern (message log) = true.
Proof.
  unfold filter_logs. rewrite existsb_exists. split.
  - intros (log & Hin & Hm). apply filter_In in Hin as [Hin Hl].
    apply String.eqb_eq in Hl. eauto.
  - intros (log & Hin & Hl & Hm). exists log. split; [| assumption].
    apply filter_In. split; [assumption | now apply String.eqb_eq].
Qed.

End APIFacts.

(** ** Claims about the orchestration *)

(** C3. When two of the given backends have the same port, [start_backends]
    raises [ValueError] with a message that lists the backends, and the
    world is left as it was: no manager, no shared list and no process has
    been created. *)
Theorem same_port_fails_before_spawning :
  forall (clock : nat -> Z) (arrivals : nat -> list string) (fuel : nat)
         (backends : list API.ABackend) (start_timeout_sec : Z)
         (w : API.world) (i j : nat) (bi bj : API.ABackend),
    i <> j ->
    nth_error backends i = Some bi ->
    nth_error backends j = Some bj ->
    API.port bi = API.port bj ->
    API.start_backends clock arrivals fuel backends start_timeout_sec w
    = Some (API.Err (API.ValueError (API.same_port_message backends)), w) /\
    exists before after,
      API.same_port_message backends
      = (before ++ String.concat ", " (map API.repr backends) ++ after)%string.
Proof.
  intros clock arrivals fuel backends timeout w i j bi bj Hij Hi Hj Hp.
  split.
  - unfold API.start_backends.
    rewrite (APIFacts.same_port_shared backends i j bi bj Hij Hi Hj Hp).
    reflexivity.
  - unfold API.same_port_message. eexists. eexists. reflexivity.
Qed.

(** Two backends on port 100. *)
Lemma same_port_fails_before_spawning_witness :
  API.start_backends Examples.ticking Examples.prompt_workers 0
    [Examples.backend_a; Examples.backend_b] 5 API.initial_world
  = Some (API.Err
            (API.ValueError
               (API.same_port_message
                  [Examples.backend_a; Examples.backend_b])),
          API.initial_world).
Proof.
  apply (same_port_fails_before_spawning Examples.ticking
           Examples.prompt_workers 0 [Examples.backend_a; Examples.backend_b]
           5 API.initial_world 0 1 Examples.backend_a Examples.backend_b).
  - discriminate.
  - reflexivity.
  - reflexivity.
  - reflexivity.
Defined.

(** C4, as the code has it. For backends with pairwise distinct ports: if
    at the poll number [k] the shared list holds as many tokens as there
    are backends, and
    every poll up to that one reads the clock before the timeout has
    elapsed, then [start_backends] (with fuel for more than [k] polls)
    returns one process per backend, in order, and the shared list holds
    exactly that many tokens when the loop is left. *)
Theorem start_backends_all_ready :
  forall (clock : nat -> Z) (arrivals : nat -> list string) (fuel k : nat)
         (backends : list API.ABackend) (start_timeout_sec : Z)
         (w : API.world),
    NoDup (map API.port backends) ->
    (k < fuel)%nat ->
    (forall j, (j <= k)%nat ->
       (clock (S (API.clock_reads w) + j)%nat - clock (API.clock_reads w)
        < start_timeout_sec)%Z) ->
    List.length
      (List.concat (map arrivals (seq (API.list_reads w) (S k))))
    = List.length backends ->
    exists w',
      API.start_backends clock arrivals fuel backends start_timeout_sec w
      = Some (API.Ok (map API.new_process backends), w') /\
      List.length (map API.new_process backends) = List.length backends /\
      map API.proc_target (map API.new_process backends) = backends /\
      List.length (API.start_signals w') = List.length backends.
Proof.
  intros clock arrivals fuel k backends timeout w N Hf Hc Hl.
  unfold API.start_backends.
  rewrite (proj2 (APIFacts.same_port_spec backends) N).
  unfold API.bind, API.act, API.finally_, API.manager_list. simpl.
  rewrite APIFacts.start_each_spec. simpl. unfold API.monotonic. simpl.
  match goal with
  | |- context [API.wait_started clock arrivals fuel ?s ?t ?n ?w0] =>
      destruct (APIFacts.wait_started_ready clock arrivals k fuel s t n w0)
        as (w' & Hw & Hlen & _)
  end.
  - assumption.
  - simpl. exact Hc.
  - unfold API.arrived. simpl. rewrite !length_map. exact Hl.
  - rewrite Hw. unfold API.ret. eexists. split; [reflexivity |].
    rewrite !length_map in *. simpl. split; [reflexivity |].
    split; [| assumption].
    rewrite map_map. simpl. apply map_id.
Qed.

(** Two backends on ports 100 and 101 whose workers signal by the second
    poll, with a timeout of five ticks. *)
Lemma start_backends_all_ready_witness :
  exists w',
    API.start_backends Examples.ticking Examples.prompt_workers 2
      [Examples.backend_a; Examples.backend_c] 5 API.initial_world
    = Some (API.Ok (map API.new_process
                      [Examples.backend_a; Examples.backend_c]), w') /\
    List.length (map API.new_process [Examples.backend_a; Examples.backend_c])
    = 2%nat /\
    map API.proc_target
      (map API.new_process [Examples.backend_a; Examples.backend_c])
    = [Examples.backend_a; Examples.backend_c] /\
    List.length (API.start_signals w') = 2%nat.
Proof.
  apply (start_backends_all_ready Examples.ticking Examples.prompt_workers
           2 1 [Examples.backend_a; Examples.backend_c] 5 API.initial_world).
  - repeat constructor; simpl; intuition discriminate.
  - lia.
  - intros j Hj. unfold Examples.ticking. simpl API.clock_reads. lia.
  - reflexivity.
Defined.

(** C4, as stated, fails: that every worker has appended its token does
    not make the loop see it in time. With no backend at all and a timeout
    of zero nothing is to be waited for, yet the first test of the loop
    fails and [TimeoutError] is raised. With two backends whose tokens
    reach the list after the first poll has read it, the next poll reads
    the clock past the deadline: [TimeoutError] is raised although the
    list, as the error itself shows, holds both tokens. In neither case
    does any amount of fuel give the handles. *)
Lemma start_backends_all_ready_counterexample :
  NoDup (map API.port (@nil API.ABackend)) /\
  (exists w',
     API.start_backends Examples.ticking Examples.silent_workers 5 [] 0
       API.initial_world
     = Some (API.Err (API.TimeoutError 0 []), w')) /\
  (forall fuel procs w',
     API.start_backends Examples.ticking Examples.silent_workers fuel [] 0
       API.initial_world
     <> Some (API.Ok procs, w')) /\
  NoDup (map API.port [Examples.backend_a; Examples.backend_c]) /\
  (exists w',
     API.start_backends MoreExamples.stalling MoreExamples.late_workers 5
       [Examples.backend_a; Examples.backend_c] 5 API.initial_world
     = Some (API.Err
               (API.TimeoutError 5
                  [API.start_message Examples.backend_a;
                   API.start_message Examples.backend_c]),
             w')) /\
  (forall fuel procs w',
     API.start_backends MoreExamples.stalling MoreExamples.late_workers fuel
       [Examples.backend_a; Examples.backend_c] 5 API.initial_world
     <> Some (API.Ok procs, w')).
Proof.
  split; [constructor |].
  split; [eexists; vm_compute; reflexivity |].
  split.
  { intros fuel procs w'. destruct fuel as [| fuel]; vm_compute; discriminate. }
  split; [repeat constructor; simpl; intuition discriminate |].
  split; [eexists; vm_compute; reflexivity |].
  intros fuel procs w'.
  destruct fuel as [| [| fuel]]; vm_compute; discriminate.
Qed.

(** C6 at a start that times out: one backend whose worker never signals.
    [start_backends] has started the worker when it raises [TimeoutError];
    the exit of [backends_manager] then terminates and joins nothing, so
    the worker is left running. *)
Theorem backends_manager_timeout_leaves_worker :
  exists w',
    API.backends_manager Examples.ticking Examples.silent_workers 10
      [Examples.backend_a] 5 Examples.pass API.initial_world
    = Some (API.Err (API.TimeoutError 5 []), w') /\
    In (API.ProcessStarted (API.new_process Examples.backend_a))
       (API.events w') /\
    ~ In (API.Terminated (API.new_process Examples.backend_a))
         (API.events w') /\
    ~ In (API.Joined (API.new_process Examples.backend_a)) (API.events w').
Proof.
  eexists. split; [vm_compute; reflexivity |].
  simpl. intuition discriminate.
Qed.

(** X10. After a start that succeeded, the exit of [backends_manager]
    terminates and then joins every process [start_backends] returned,
    whether the caller's block returned or raised. *)
Lemma backends_manager_releases :
  forall (clock : nat -> Z) (arrivals : nat -> list string) (A : Type)
         (fuel : nat) (backends : list API.ABackend) (start_timeout_sec : Z)
         (body : API.M A) (w w1 w2 : API.world) (procs : list API.Process)
         (r : API.result A),
    API.start_backends clock arrivals fuel backends start_timeout_sec w
    = Some (API.Ok procs, w1) ->
    body w1 = Some (r, w2) ->
    API.backends_manager clock arrivals fuel backends start_timeout_sec body w
    = Some (r, API.release procs w2) /\
    API.events w1
    = API.events w ++ [API.ManagerStarted; API.ListCreated]
      ++ map API.ProcessStarted procs ++ [API.ManagerShutdown] /\
    API.events (API.release procs w2)
    = API.events w2 ++ map API.Terminated procs ++ map API.Joined procs.
Proof.
  intros clock arrivals A fuel backends timeout body w w1 w2 procs r Hs Hb.
  split; [| split].
  - unfold API.backends_manager, API.finally_. now rewrite Hs, Hb.
  - now apply (APIFacts.start_backends_ok clock arrivals fuel backends timeout).
  - apply APIFacts.release_events.
Qed.

(** ** Claims about the log bridge *)

(** C8. With fuel for the queue: entering the scope empties the queue and
    leaves the buffer as it was; leaving it, whether the block returned or
    raised, appends what is then in the queue to the buffer and empties the
    queue. So a block that only puts the records [rs] on the queue leaves
    exactly the earlier buffer followed by [rs]: what was queued before the
    scope is gone, what was queued within it is kept. *)
Theorem logs_storage_scope :
  forall (A : Type) (fuel : nat) (self : API.LogsStorage)
         (body : API.LogsStorage -> API.result A * API.LogsStorage),
    (List.length (API.logs_queue self) < fuel)%nat ->
    (List.length
       (API.logs_queue
          (snd (body {| API.logs_queue := [];
                        API.logs_storage := API.logs_storage self |})))
     < fuel)%nat ->
    API.__enter__ fuel self
    = Some {| API.logs_queue := [];
              API.logs_storage := API.logs_storage self |} /\
    (forall r s2,
       body {| API.logs_queue := [];
               API.logs_storage := API.logs_storage self |} = (r, s2) ->
       API.__exit__ fuel s2
       = Some {| API.logs_queue := [];
                 API.logs_storage :=
                   API.logs_storage s2 ++ API.logs_queue s2 |} /\
       API.with_logs_storage fuel body self
       = Some (r, {| API.logs_queue := [];
                     API.logs_storage :=
                       API.logs_storage s2 ++ API.logs_queue s2 |})) /\
    (forall (rs : list API.LogRecord) (r : API.result A),
       (List.length rs < fuel)%nat ->
       API.with_logs_storage fuel (Examples.put_all rs r) self
       = Some (r, {| API.logs_queue := [];
                     API.logs_storage := API.logs_storage self ++ rs |})).
Proof.
  intros A fuel self body Hq Hb.
  assert (E : API.__enter__ fuel self
              = Some {| API.logs_queue := [];
                        API.logs_storage := API.logs_storage self |})
    by (apply APIFacts.clear_logs_queue_spec; assumption).
  split; [exact E | split].
  - intros r s2 Hbody. rewrite Hbody in Hb. simpl in Hb.
    assert (X : API.__exit__ fuel s2
                = Some {| API.logs_queue := [];
                          API.logs_storage :=
                            API.logs_storage s2 ++ API.logs_queue s2 |})
      by (apply APIFacts.collect_from_queue_spec; assumption).
    split; [exact X |].
    unfold API.with_logs_storage. rewrite E, Hbody, X. reflexivity.
  - intros rs r Hrs. unfold API.with_logs_storage.
    rewrite E, APIFacts.put_all_spec. simpl.
    unfold API.__exit__. rewrite APIFacts.collect_from_queue_spec; [| simpl; lia].
    reflexivity.
Qed.

(** The scope of [test_context_manager_logs_storage], left by an
    exception: two records queued before, two queued within. *)
Lemma logs_storage_scope_witness :
  API.with_logs_storage 3
    (Examples.put_all
       [Examples.log "INFO" "new_log1"; Examples.log "ERROR" "new_log2"]
       (API.Err (API.CallerError "boom") : API.result unit))
    (API.__init__ [Examples.log "INFO" "log1"; Examples.log "INFO" "log2"])
  = Some (API.Err (API.CallerError "boom"),
          {| API.logs_queue := [];
             API.logs_storage :=
               [Examples.log "INFO" "new_log1";
                Examples.log "ERROR" "new_log2"] |}).
Proof.
  destruct (logs_storage_scope unit 3
              (API.__init__
                 [Examples.log "INFO" "log1"; Examples.log "INFO" "log2"])
              (Examples.put_all
                 [Examples.log "INFO" "new_log1";
                  Examples.log "ERROR" "new_log2"]
                 (API.Err (API.CallerError "boom"))))
    as (_ & _ & H).
  - simpl. lia.
  - simpl. lia.
  - apply (H [Examples.log "INFO" "new_log1"; Examples.log "ERROR" "new_log2"]
             (API.Err (API.CallerError "boom"))).
    simpl. lia.
Defined.

(** C9. Without collecting, [has_log_record] leaves the storage alone and
    answers [true] exactly when the buffer holds a record of that level
    whose message the pattern matches. With collecting (and fuel for the
    queue) it first moves the queue to the end of the buffer, and answers
    for the buffer so extended: a matching record that was still in the
    queue makes it answer [true]. *)
Theorem has_log_record_buffer_and_queue :
  forall (fuel : nat) (message_pattern : Re.regex) (level : string)
         (self : API.LogsStorage),
    (List.length (API.logs_queue self) < fuel)%nat ->
    (exists b,
       API.has_log_record fuel message_pattern level false self
       = Some (b, self) /\
       (b = true <->
        exists log, In log (API.logs_storage self) /\
                    API.levelname log = level /\
                    Re.match_ message_pattern (API.message log) = true)) /\
    (exists b,
       API.has_log_record fuel message_pattern level true self
       = Some (b, {| API.logs_queue := [];
                     API.logs_storage :=
                       API.logs_storage self ++ API.logs_queue self |}) /\
       (b = true <->
        exists log,
          In log (API.logs_storage self ++ API.logs_queue self) /\
          API.levelname log = level /\
          Re.match_ message_pattern (API.message log) = true)).
Proof.
  intros fuel pattern level self Hq. split.
  - eexists. split; [reflexivity |]. apply APIFacts.has_record_spec.
  - unfold API.has_log_record.
    rewrite APIFacts.collect_from_queue_spec; [| assumption].
    eexists. split; [reflexivity |].
    apply (APIFacts.has_record_spec pattern level
             {| API.logs_queue := [];
                API.logs_storage :=
                  API.logs_storage self ++ API.logs_queue self |}).
Qed.

(** A record [new_log1] that is still in the queue. *)
Lemma has_log_record_buffer_and_queue_witness :
  exists b,
    API.has_log_record 2 (Re.literal "new_log1") "INFO" true
      {| API.logs_queue := [Examples.log "INFO" "new_log1"];
         API.logs_storage := [Examples.log "INFO" "log1"] |}
    = Some (b, {| API.logs_queue := [];
                  API.logs_storage :=
                    [Examples.log "INFO" "log1"]
                    ++ [Examples.log "INFO" "new_log1"] |}) /\
    (b = true <->
     exists log,
       In log ([Examples.log "INFO" "log1"]
               ++ [Examples.log "INFO" "new_log1"]) /\
       API.levelname log = "INFO" /\
       Re.match_ (Re.literal "new_log1") (API.message log) = true).
Proof.
  apply (has_log_record_buffer_and_queue 2 (Re.literal "new_log1") "INFO"
           {| API.logs_queue := [Examples.log "INFO" "new_log1"];
              API.logs_storage := [Examples.log "INFO" "log1"] |}).
  simpl. lia.
Defined.

(** C10. [has_log_record] anchors the pattern at the start of the message:
    it answers [true] exactly when some record of the level has a message
    one of whose prefixes is in the language of the pattern. A pattern
    without metacharacters therefore asks for a message that starts with
    its text: [info1] does not find the message [log_info1], while
    [.*info1] does. *)
Theorem has_log_record_anchored_at_start :
  forall (fuel : nat) (message_pattern : Re.regex) (level : string)
         (self : API.LogsStorage),
    (exists b,
       API.has_log_record fuel message_pattern level false self
       = Some (b, self) /\
       (b = true <->
        exists log, In log (API.logs_storage self) /\
                    API.levelname log = level /\
                    exists p q, API.message log = (p ++ q)%string /\
                                Re.lang message_pattern p)) /\
    (forall text, Re.plain text ->
       Re.compile text = Some (Re.literal text) /\
       exists b,
         API.has_log_record fuel (Re.literal text) level false self
         = Some (b, self) /\
         (b = true <->
          exists log, In log (API.logs_storage self) /\
                      API.levelname log = level /\
                      exists q, API.message log = (text ++ q)%string)) /\
    option_map
      (fun r => API.has_log_record fuel r "INFO" false
                  {| API.logs_queue := [];
                     API.logs_storage := [Examples.log "INFO" "log_info1"] |})
      (Re.compile "info1")
    = Some (Some (false,
                  {| API.logs_queue := [];
                     API.logs_storage := [Examples.log "INFO" "log_info1"] |})) /\
    option_map
      (fun r => API.has_log_record fuel r "INFO" false
                  {| API.logs_queue := [];
                     API.logs_storage := [Examples.log "INFO" "log_info1"] |})
      (Re.compile ".*info1")
    = Some (Some (true,
                  {| API.logs_queue := [];
                     API.logs_storage := [Examples.log "INFO" "log_info1"] |})).
Proof.
  intros fuel pattern level self.
  split; [| split; [| split; reflexivity]].
  - eexists. split; [reflexivity |].
    rewrite APIFacts.has_record_spec. split.
    + intros (log & Hin & Hl & Hm). apply ReFacts.match_prefix in Hm. eauto.
    + intros (log & Hin & Hl & Hm). apply ReFacts.match_prefix in Hm. eauto.
  - intros text Hp. split; [now apply ReFacts.compile_plain |].
    eexists. split; [reflexivity |].
    rewrite APIFacts.has_record_spec. split.
    + intros (log & Hin & Hl & Hm). apply ReFacts.match_literal in Hm. eauto.
    + intros (log & Hin & Hl & Hm). apply ReFacts.match_literal in Hm. eauto.
Qed.

(** ** Further properties of the HTTP rules *)
Module HTTPFacts.
Import Schema.

(** The loop of [handle] is a search for the first matching rule. *)
Lemma handle_find rules request :
  HTTP.handle rules request =
  match find (fun r => HTTP.matches r request) rules with
  | Some r => HTTP.process (HTTP.result r) request
  | None => HTTP.no_match_response request
  end.
Proof.
  unfold HTTP.handle. induction rules as [| r rules IH]; simpl; [reflexivity |].
  destruct (HTTP.matches r request); [reflexivity |].
  destruct (HTTP.handle_loop rules request) as [seen res]. exact IH.
Qed.

Lemma validate_items_no_keys : forall data new coverage,
  validate_items [] data new coverage = Some (new, coverage).
Proof.
  induction data as [| [k v] data IH]; simpl; intros; [reflexivity | apply IH].
Qed.

Lemma validate_dict_empty tolerance data :
  validate_dict tolerance [] data = true <-> tolerance = true \/ data = [].
Proof.
  unfold validate_dict, sorted_skeys. simpl.
  rewrite validate_items_no_keys. simpl.
  destruct tolerance; simpl.
  - split; auto.
  - destruct data; simpl; split; auto; intros [H | H]; discriminate.
Qed.

(** Dropping the exact-keys requirement can only turn a failure into a
    success. *)
Lemma validate_dict_tolerant d data :
  validate_dict false d data = true -> validate_dict true d data = true.
Proof.
  unfold validate_dict.
  destruct (validate_items (sorted_skeys d) data [] []) as [[new cov] |];
    [| discriminate].
  destruct (negb (required_covered d cov)); [discriminate | reflexivity].
Qed.

Lemma is_valid_tolerant s data :
  is_valid false s data = true -> is_valid true s data = true.
Proof.
  destruct s, data; simpl; auto. apply validate_dict_tolerant.
Qed.

End HTTPFacts.

(** X1. A path given as a string matches exactly the requests with that very
    path; a path given as a [Regex] matches exactly the requests whose path
    has a substring in the language of the pattern: the pattern is searched,
    not anchored. *)
Theorem path_matches_equal_or_searched :
  forall (rule : HTTP.HTTPRule) (request : HTTP.Request),
    (forall s, HTTP.path rule = Some (HTTP.PathStr s) ->
       (HTTP.path_matches rule request = true <->
        HTTP.rel_url_path request = s)) /\
    (forall r, HTTP.path rule = Some (HTTP.PathRegex r) ->
       (HTTP.path_matches rule request = true <->
        exists a p q,
          HTTP.rel_url_path request = (a ++ p ++ q)%string /\ Re.lang r p)).
Proof.
  intros rule request. split.
  - intros s E. unfold HTTP.path_matches. rewrite E. simpl.
    rewrite String.eqb_eq. split; congruence.
  - intros r E. unfold HTTP.path_matches. rewrite E. simpl.
    apply ReFacts.search_substring.
Qed.

(** X2. A rule whose query (or header) validator is the empty dictionary
    matches a request exactly when the request has no query parameter (no
    header) or the rule ignores extra keys. *)
Theorem empty_validator_needs_empty_mapping :
  forall (rule : HTTP.HTTPRule) (request : HTTP.Request),
    (HTTP.query_params rule = Some [] ->
     (HTTP.query_params_match rule request = true <->
      HTTP.ignore_extra_query_params rule = true \/
      HTTP.rel_url_query request = [])) /\
    (HTTP.headers rule = Some [] ->
     (HTTP.headers_match rule request = true <->
      HTTP.ignore_extra_headers rule = true \/
      HTTP.req_headers request = [])).
Proof.
  intros rule request. split; intros E.
  - unfold HTTP.query_params_match. rewrite E. simpl.
    rewrite HTTPFacts.validate_dict_empty. unfold HTTP.to_dict.
    destruct (HTTP.rel_url_query request); simpl.
    + tauto.
    + split; intros [H | H]; auto; discriminate.
  - unfold HTTP.headers_match. rewrite E. simpl.
    rewrite HTTPFacts.validate_dict_empty. unfold HTTP.to_dict.
    destruct (HTTP.req_headers request); simpl.
    + tauto.
    + split; intros [H | H]; auto; discriminate.
Qed.

(** X3. Whatever the validators of a rule are (plain keys, patterns,
    [Optional]), a request the rule matches is still matched when both of
    the rule's flags are switched to ignoring extra keys. *)
Theorem ignoring_extra_keys_keeps_matches :
  forall (rule : HTTP.HTTPRule) (request : HTTP.Request),
    HTTP.matches rule request = true ->
    HTTP.matches
      {| HTTP.method := HTTP.method rule;
         HTTP.path := HTTP.path rule;
         HTTP.query_params := HTTP.query_params rule;
         HTTP.ignore_extra_query_params := true;
         HTTP.headers := HTTP.headers rule;
         HTTP.ignore_extra_headers := true;
         HTTP.result := HTTP.result rule |}
      request = true.
Proof.
  intros rule request H. unfold HTTP.matches in *.
  apply andb_true_iff in H as [H Hh].
  apply andb_true_iff in H as [H Hq].
  apply andb_true_iff in H as [Hm Hp].
  unfold HTTP.method_mathes, HTTP.path_matches, HTTP.query_params_match,
    HTTP.headers_match in *. simpl.
  rewrite Hm, Hp. simpl.
  destruct (HTTP.ignore_extra_query_params rule);
    destruct (HTTP.ignore_extra_headers rule);
    repeat match goal with
           | K : Schema.is_valid false _ _ = true |- _ =>
               apply HTTPFacts.is_valid_tolerant in K
           end;
    now rewrite Hq, Hh.
Qed.

(** The strict rule on [{"q": "vk", "num": "10"}] and the sample request. *)
Lemma ignoring_extra_keys_keeps_matches_witness :
  HTTP.matches
    {| HTTP.method := None;
       HTTP.path := None;
       HTTP.query_params :=
         Some (Schema.literal_dict
                 [("q", Examples.L "vk"); ("num", Examples.L "10")]);
       HTTP.ignore_extra_query_params := true;
       HTTP.headers := None;
       HTTP.ignore_extra_headers := true;
       HTTP.result := HTTP.HTTPResult "HTTP BACKEND RESULT" 200 |}
    Examples.search_request = true.
Proof.
  apply (ignoring_extra_keys_keeps_matches
           (Examples.query_rule
              (Schema.literal_dict
                 [("q", Examples.L "vk"); ("num", Examples.L "10")]) false)
           Examples.search_request).
  reflexivity.
Defined.

(** X4. A rule list that contains a rule with no method, path, query and
    header attribute never answers with the 404 of "no matching rule": the
    response is the result of a rule of the list that matches the request.
    In particular the default rules of [HTTPBackend], [(HTTPRule(),)],
    answer every request with status 200 and the default body. *)
Theorem catch_all_rule_excludes_404 :
  forall (rules : list HTTP.HTTPRule) (request : HTTP.Request)
         (catch_all : HTTP.HTTPRule),
    In catch_all rules ->
    HTTP.method catch_all = None ->
    HTTP.path catch_all = None ->
    HTTP.query_params catch_all = None ->
    HTTP.headers catch_all = None ->
    (exists r, In r rules /\ HTTP.matches r request = true /\
               HTTP.handle rules request
               = HTTP.process (HTTP.result r) request) /\
    HTTP.handle [HTTP.default_rule] request
    = {| HTTP.resp_body := HTTP.Body "HTTP BACKEND RESULT";
         HTTP.resp_status := 200 |}.
Proof.
  intros rules request c Hin Hm Hp Hq Hh. split; [| reflexivity].
  rewrite HTTPFacts.handle_find.
  destruct (find (fun r => HTTP.matches r request) rules) as [r |] eqn:F.
  - apply find_some in F as [Hr Hmatch]. eauto.
  - exfalso. pose proof (find_none _ _ F c Hin) as N. simpl in N.
    unfold HTTP.matches, HTTP.method_mathes, HTTP.path_matches,
      HTTP.query_params_match, HTTP.headers_match in N.
    rewrite Hm, Hp, Hq, Hh in N. simpl in N. discriminate.
Qed.

(** The rule on [/search] followed by the default rule, asked for [/]. *)
Lemma catch_all_rule_excludes_404_witness :
  exists r,
    In r [Examples.found_rule; HTTP.default_rule] /\
    HTTP.matches r Examples.bare_request = true /\
    HTTP.handle [Examples.found_rule; HTTP.default_rule] Examples.bare_request
    = HTTP.process (HTTP.result r) Examples.bare_request.
Proof.
  apply (catch_all_rule_excludes_404
           [Examples.found_rule; HTTP.default_rule] Examples.bare_request
           HTTP.default_rule); try reflexivity.
  simpl. auto.
Defined.

(** ** Further properties of the gRPC rules *)

(** X5. A gRPC rule without [grpc_method] matches every method name; with
    one, it matches exactly the names whose case folding equals the case
    folding of the rule's name. For names without the sharp s that is
    equality up to letter case; and since the sharp s folds to [ss], a rule
    named with [ss] also matches the name written with the sharp s. *)
Theorem grpc_method_matches_up_to_case :
  forall (rule : GRPC.GRPCRule) (method : string),
    (GRPC.grpc_method rule = None -> GRPC.method_matches rule method = true) /\
    (forall m, GRPC.grpc_method rule = Some m ->
       (GRPC.method_matches rule method = true <->
        PyStr.casefold method = PyStr.casefold m) /\
       (PyStr.no_sharp_s method = true -> PyStr.no_sharp_s m = true ->
        GRPC.method_matches rule method = PyStr.caseless_eqb method m)) /\
    (forall a b,
       GRPC.grpc_method rule = Some (a ++ "ss" ++ b)%string ->
       method = (a ++ String PyStr.sharp_s b)%string ->
       GRPC.method_matches rule method = true).
Proof.
  intros rule method. unfold GRPC.method_matches. split; [| split].
  - now intros ->.
  - intros m ->. split.
    + apply PyStrFacts.codes_eqb_eq.
    + apply PyStrFacts.casefold_eqb_caseless.
  - intros a b -> ->. apply PyStrFacts.codes_eqb_eq.
    rewrite !PyStrFacts.casefold_app. reflexivity.
Qed.

(** X6. When no rule's method matches the called method, the request bytes
    are never decoded: whatever they are, every rule is consulted, the call
    is aborted with INVALID_ARGUMENT and no bytes are returned. *)
Theorem unmatched_method_aborts_without_decoding :
  forall (rules : list GRPC.GRPCRule) (grpc_method : string)
         (payload : GRPC.bytes) (context : GRPC.Context),
    (forall r, In r rules -> GRPC.method_matches r grpc_method = false) ->
    GRPC._handler rules grpc_method payload context
    = GRPC.Returned None
        {| GRPC.aborted :=
             Some (GRPC.INVALID_ARGUMENT, "no matched GRPC rules found") |} /\
    GRPC.consulted rules grpc_method payload = rules.
Proof.
  intros rules grpc_method payload context H.
  assert (L : GRPC.handler_loop rules grpc_method payload
              = (rules, GRPC.Exhausted)).
  { apply RuleFacts.grpc_loop_no_match.
    - intros r Hr. unfold GRPC.rule_matches. now rewrite (H r Hr).
    - intros r Hr Hm. rewrite (H r Hr) in Hm. discriminate. }
  unfold GRPC._handler, GRPC.consulted. rewrite L. auto.
Qed.

(** The rule on [Lookup], called as [Other] with a payload that its message
    class cannot decode. *)
Lemma unmatched_method_aborts_without_decoding_witness :
  GRPC._handler [Examples.lookup_rule] "Other" Examples.payload_bad_text
    GRPC.fresh_context
  = GRPC.Returned None
      {| GRPC.aborted :=
           Some (GRPC.INVALID_ARGUMENT, "no matched GRPC rules found") |} /\
  GRPC.consulted [Examples.lookup_rule] "Other" Examples.payload_bad_text
  = [Examples.lookup_rule].
Proof.
  apply (unmatched_method_aborts_without_decoding [Examples.lookup_rule]
           "Other" Examples.payload_bad_text GRPC.fresh_context).
  intros r [<- | []]. reflexivity.
Defined.

(** ** Further properties of the orchestration *)
Module OrchestrationFacts.
Import API.

Section Schedule.

Variable clock : nat -> Z.
Variable arrivals : nat -> list string.

Lemma arrived_next w j :
  arrived arrivals
    {| events := events w;
       start_signals := start_signals w ++ arrivals (list_reads w);
       clock_reads := S (clock_reads w);
       list_reads := S (list_reads w) |} j
  = arrived arrivals w (S j).
Proof.
  unfold arrived. simpl. now rewrite <- app_assoc.
Qed.

Lemma arrived_first w :
  arrived arrivals w 0 = start_signals w ++ arrivals (list_reads w).
Proof.
  unfold arrived. simpl. now rewrite app_nil_r.
Qed.

(** The polling loop when the deadline passes at the poll number [k] and
    no earlier poll found the list complete. *)
Lemma wait_started_timeout : forall k fuel start timeout n w,
  (k < fuel)%nat ->
  (forall j, (j < k)%nat ->
     (clock (clock_reads w + j) - start < timeout)%Z) ->
  (forall j, (j < k)%nat -> List.length (arrived arrivals w j) <> n) ->
  ~ (clock (clock_reads w + k) - start < timeout)%Z ->
  exists w',
    wait_started clock arrivals fuel start timeout n w
    = Some (Err (TimeoutError timeout (arrived arrivals w k)), w') /\
    events w' = events w /\
    start_signals w' = arrived arrivals w k.
Proof.
  induction k as [| k IH]; intros fuel start timeout n w Hf Hc Hl Hlate;
    (destruct fuel as [| fuel]; [lia |]); simpl;
    unfold bind, monotonic, read_signals; simpl.
  - rewrite Nat.add_0_r in Hlate. apply Z.ltb_nlt in Hlate. rewrite Hlate.
    simpl. unfold raise. rewrite arrived_first.
    eexists. split; [reflexivity |]. simpl. auto.
  - pose proof (Hc 0%nat (Nat.lt_0_succ _)) as H0.
    rewrite Nat.add_0_r in H0. apply Z.ltb_lt in H0. rewrite H0. simpl.
    pose proof (Hl 0%nat (Nat.lt_0_succ _)) as L0.
    rewrite arrived_first in L0. apply Nat.eqb_neq in L0. rewrite L0.
    edestruct (IH fuel start timeout n) as (w' & Hw & Hev & Hs);
      [| | | | exists w'; rewrite Hw; rewrite arrived_next in *;
               split; [reflexivity | split; [exact Hev | exact Hs]]].
    + lia.
    + simpl. intros j Hj. replace (S (clock_reads w + j))%nat
        with (clock_reads w + S j)%nat by lia. apply Hc. lia.
    + intros j Hj. rewrite arrived_next. apply Hl. lia.
    + simpl. replace (S (clock_reads w + k))%nat
        with (clock_reads w + S k)%nat by lia. exact Hlate.
Qed.

(** The polling loop raises nothing but [TimeoutError]. *)
Lemma wait_started_raises : forall fuel start timeout n w e w',
  wait_started clock arrivals fuel start timeout n w = Some (Err e, w') ->
  exists signals, e = TimeoutError timeout signals.
Proof.
  induction fuel as [| fuel IH]; simpl; intros start timeout n w e w' H.
  - discriminate.
  - unfold bind, monotonic, read_signals in H. simpl in H.
    destruct (clock (clock_reads w) - start <? timeout)%Z.
    + simpl in H.
      destruct (List.length (start_signals w ++ arrivals (list_reads w)) =? n)%nat.
      * discriminate.
      * eapply IH. exact H.
    + simpl in H. unfold raise in H. inversion H; subst. eauto.
Qed.

End Schedule.

Lemma filter_filter {A} (f g : A -> bool) (l : list A) :
  filter g (filter f l) = filter (fun x => f x && g x) l.
Proof.
  induction l as [| x l IH]; simpl; [reflexivity |].
  destruct (f x); simpl; [| exact IH].
  destruct (g x); simpl; now rewrite IH.
Qed.

End OrchestrationFacts.

(** X7. If the deadline passes at the poll number [k] and none of the
    earlier polls found the shared list complete, [start_backends] raises
    [TimeoutError] with the tokens received so far. By then it has started
    one process per backend and shut the manager down; it terminates none
    of the processes. *)
Theorem start_backends_times_out :
  forall (clock : nat -> Z) (arrivals : nat -> list string) (fuel k : nat)
         (backends : list API.ABackend) (start_timeout_sec : Z)
         (w : API.world),
    NoDup (map API.port backends) ->
    (k < fuel)%nat ->
    (forall j, (j < k)%nat ->
       (clock (S (API.clock_reads w) + j)%nat - clock (API.clock_reads w)
        < start_timeout_sec)%Z) ->
    (forall j, (j < k)%nat ->
       List.length
         (List.concat (map arrivals (seq (API.list_reads w) (S j))))
       <> List.length backends) ->
    ~ (clock (S (API.clock_reads w) + k)%nat - clock (API.clock_reads w)
       < start_timeout_sec)%Z ->
    exists w',
      API.start_backends clock arrivals fuel backends start_timeout_sec w
      = Some (API.Err
                (API.TimeoutError start_timeout_sec
                   (List.concat
                      (map arrivals (seq (API.list_reads w) (S k))))),
              w') /\
      API.events w'
      = API.events w ++ [API.ManagerStarted; API.ListCreated]
        ++ map API.ProcessStarted (map API.new_process backends)
        ++ [API.ManagerShutdown].
Proof.
  intros clock arrivals fuel k backends timeout w N Hf Hc Hl Hlate.
  unfold API.start_backends.
  rewrite (proj2 (APIFacts.same_port_spec backends) N).
  unfold API.bind, API.act, API.finally_, API.manager_list. simpl.
  rewrite APIFacts.start_each_spec. simpl. unfold API.monotonic. simpl.
  match goal with
  | |- context [API.wait_started clock arrivals fuel ?s ?t ?n ?w0] =>
      destruct (OrchestrationFacts.wait_started_timeout clock arrivals
                  k fuel s t n w0)
        as (w' & Hw & Hev & _)
  end.
  - assumption.
  - simpl. exact Hc.
  - intros j Hj. unfold API.arrived. simpl. rewrite !length_map.
    apply Hl. exact Hj.
  - simpl. exact Hlate.
  - rewrite Hw. unfold API.arrived. simpl.
    eexists. split; [reflexivity |]. simpl. rewrite Hev. simpl.
    rewrite <- !app_assoc. reflexivity.
Qed.

(** One backend whose worker never signals, a timeout of five ticks. *)
Lemma start_backends_times_out_witness :
  exists w',
    API.start_backends Examples.ticking Examples.silent_workers 10
      [Examples.backend_a] 5 API.initial_world
    = Some (API.Err
              (API.TimeoutError 5
                 (List.concat (map Examples.silent_workers (seq 0 5)))),
            w') /\
    API.events w'
    = API.events API.initial_world ++ [API.ManagerStarted; API.ListCreated]
      ++ map API.ProcessStarted (map API.new_process [Examples.backend_a])
      ++ [API.ManagerShutdown].
Proof.
  apply (start_backends_times_out Examples.ticking Examples.silent_workers
           10 4 [Examples.backend_a] 5 API.initial_world).
  - repeat constructor. simpl. tauto.
  - lia.
  - intros j Hj. unfold Examples.ticking. simpl API.clock_reads. lia.
  - intros j Hj. unfold Examples.silent_workers.
    assert (E : forall n m, List.concat
                  (map (fun _ : nat => @nil string) (seq n m)) = []).
    { intros n m. revert n. induction m; simpl; auto. }
    rewrite E. discriminate.
  - unfold Examples.ticking. simpl API.clock_reads. lia.
Defined.

(** X8. With a timeout that is not positive and a clock that does not run
    backwards, [start_backends] raises [TimeoutError] for every list of
    backends with distinct ports, the empty list included, after having
    started a process for each of them. *)
Theorem start_backends_without_time :
  forall (clock : nat -> Z) (arrivals : nat -> list string) (fuel : nat)
         (backends : list API.ABackend) (start_timeout_sec : Z)
         (w : API.world),
    NoDup (map API.port backends) ->
    (0 < fuel)%nat ->
    (start_timeout_sec <= 0)%Z ->
    (clock (API.clock_reads w) <= clock (S (API.clock_reads w)))%Z ->
    exists w',
      API.start_backends clock arrivals fuel backends start_timeout_sec w
      = Some (API.Err
                (API.TimeoutError start_timeout_sec
                   (arrivals (API.list_reads w))),
              w') /\
      API.events w'
      = API.events w ++ [API.ManagerStarted; API.ListCreated]
        ++ map API.ProcessStarted (map API.new_process backends)
        ++ [API.ManagerShutdown].
Proof.
  intros clock arrivals fuel backends timeout w N Hf Ht Hmono.
  unfold API.start_backends.
  rewrite (proj2 (APIFacts.same_port_spec backends) N).
  unfold API.bind, API.act, API.finally_, API.manager_list. simpl.
  rewrite APIFacts.start_each_spec. simpl. unfold API.monotonic. simpl.
  match goal with
  | |- context [API.wait_started clock arrivals fuel ?s ?t ?n ?w0] =>
      destruct (OrchestrationFacts.wait_started_timeout clock arrivals
                  0 fuel s t n w0)
        as (w' & Hw & Hev & _)
  end.
  - assumption.
  - intros j Hj. lia.
  - intros j Hj. lia.
  - simpl. rewrite Nat.add_0_r. lia.
  - rewrite Hw. rewrite OrchestrationFacts.arrived_first. simpl.
    eexists. split; [reflexivity |]. simpl. rewrite Hev. simpl.
    rewrite <- !app_assoc. reflexivity.
Qed.

(** No backend at all and a timeout of zero. *)
Lemma start_backends_without_time_witness :
  exists w',
    API.start_backends Examples.ticking Examples.silent_workers 1 [] 0
      API.initial_world
    = Some (API.Err (API.TimeoutError 0 (Examples.silent_workers 0)), w') /\
    API.events w'
    = API.events API.initial_world ++ [API.ManagerStarted; API.ListCreated]
      ++ map API.ProcessStarted (map API.new_process [])
      ++ [API.ManagerShutdown].
Proof.
  apply (start_backends_without_time Examples.ticking Examples.silent_workers
           1 [] 0 API.initial_world).
  - constructor.
  - lia.
  - lia.
  - unfold Examples.ticking. simpl API.clock_reads. lia.
Defined.

(** X9. [start_backends] ends with a [ValueError] exactly when two of the
    backends share a port; the error then carries the same-port message
    and the world is untouched. Every other error it raises is a
    [TimeoutError]. *)
Theorem value_error_iff_shared_port :
  forall (clock : nat -> Z) (arrivals : nat -> list string) (fuel : nat)
         (backends : list API.ABackend) (start_timeout_sec : Z)
         (w : API.world),
    ((exists msg w',
        API.start_backends clock arrivals fuel backends start_timeout_sec w
        = Some (API.Err (API.ValueError msg), w')) <->
     ~ NoDup (map API.port backends)) /\
    (forall e w',
       API.start_backends clock arrivals fuel backends start_timeout_sec w
       = Some (API.Err e, w') ->
       (e = API.ValueError (API.same_port_message backends) /\ w' = w) \/
       (exists signals, e = API.TimeoutError start_timeout_sec signals)).
Proof.
  intros clock arrivals fuel backends timeout w.
  assert (R : forall e w',
            API.start_backends clock arrivals fuel backends timeout w
            = Some (API.Err e, w') ->
            (API.same_port backends = true /\
             e = API.ValueError (API.same_port_message backends) /\ w' = w) \/
            (API.same_port backends = false /\
             exists signals, e = API.TimeoutError timeout signals)).
  { intros e w'. unfold API.start_backends.
    destruct (API.same_port backends) eqn:S.
    - unfold API.raise. intros H. inversion H; subst. left. auto.
    - unfold API.bind, API.act, API.finally_, API.manager_list. simpl.
      rewrite APIFacts.start_each_spec. simpl. unfold API.monotonic. simpl.
      match goal with
      | |- context [API.wait_started clock arrivals fuel ?s ?t ?n ?w0] =>
          destruct (API.wait_started clock arrivals fuel s t n w0)
            as [[[[] | e0] w0'] |] eqn:W
      end; try discriminate.
      intros H. inversion H; subst. right. split; [reflexivity |].
      eapply OrchestrationFacts.wait_started_raises. exact W. }
  split; [split |].
  - intros (msg & w' & H). apply R in H as [(S & _) | (_ & signals & E)].
    + intros N. apply APIFacts.same_port_spec in N. congruence.
    + discriminate.
  - intros N. exists (API.same_port_message backends), w.
    unfold API.start_backends.
    destruct (API.same_port backends) eqn:S; [reflexivity |].
    apply APIFacts.same_port_spec in S. contradiction.
  - intros e w' H. apply R in H as [(_ & E & Ew) | (_ & Hs)]; auto.
Qed.

(** Two backends that start in time, and a block that does nothing. *)
Lemma backends_manager_releases_witness :
  API.backends_manager Examples.ticking Examples.prompt_workers 2
    [Examples.backend_a; Examples.backend_c] 5 Examples.pass
    API.initial_world
  = Some (API.Ok tt,
          API.release MoreExamples.two_processes MoreExamples.started_world) /\
  API.events MoreExamples.started_world
  = API.events API.initial_world ++ [API.ManagerStarted; API.ListCreated]
    ++ map API.ProcessStarted MoreExamples.two_processes
    ++ [API.ManagerShutdown] /\
  API.events
    (API.release MoreExamples.two_processes MoreExamples.started_world)
  = API.events MoreExamples.started_world
    ++ map API.Terminated MoreExamples.two_processes
    ++ map API.Joined MoreExamples.two_processes.
Proof.
  apply (backends_manager_releases Examples.ticking Examples.prompt_workers
           unit 2 [Examples.backend_a; Examples.backend_c] 5 Examples.pass
           API.initial_world MoreExamples.started_world
           MoreExamples.started_world MoreExamples.two_processes (API.Ok tt)).
  - reflexivity.
  - reflexivity.
Defined.

(** ** Further properties of the log bridge *)

(** X11. [filter_logs] returns the buffered records that have the given
    level and the given logger name, each test applying only when its
    argument is given, in the order of the buffer; without arguments it
    returns the whole buffer, and after [clear_logs_storage] it returns
    nothing. *)
Theorem filter_logs_selects_in_order :
  forall (level name_ : option string) (self : API.LogsStorage),
    API.filter_logs level name_ self
    = filter
        (fun log =>
           match level with
           | None => true
           | Some l => String.eqb (API.levelname log) l
           end
           && match name_ with
              | None => true
              | Some n => String.eqb (API.name log) n
              end)
        (API.logs_storage self) /\
    API.filter_logs None None self = API.logs_storage self /\
    (forall log,
       In log (API.filter_logs level name_ self) <->
       In log (API.logs_storage self) /\
       (forall l, level = Some l -> API.levelname log = l) /\
       (forall n, name_ = Some n -> API.name log = n)) /\
    API.filter_logs level name_ (API.clear_logs_storage self) = [].
Proof.
  intros level name_ self.
  assert (E : API.filter_logs level name_ self
              = filter
                  (fun log =>
                     match level with
                     | None => true
                     | Some l => String.eqb (API.levelname log) l
                     end
                     && match name_ with
                        | None => true
                        | Some n => String.eqb (API.name log) n
                        end)
                  (API.logs_storage self)).
  { unfold API.filter_logs. destruct level as [l |], name_ as [n |]; simpl.
    - apply OrchestrationFacts.filter_filter.
    - apply filter_ext. intros a. now rewrite andb_true_r.
    - reflexivity.
    - induction (API.logs_storage self) as [| x xs IH]; simpl; congruence. }
  split; [exact E | split; [reflexivity | split]].
  - intros log. rewrite E, filter_In, andb_true_iff. split.
    + intros (Hin & Hl & Hn). split; [assumption | split].
      * intros l ->. now apply String.eqb_eq.
      * intros n ->. now apply String.eqb_eq.
    + intros (Hin & Hl & Hn). split; [assumption | split].
      * destruct level as [l |]; [| reflexivity].
        apply String.eqb_eq. now apply Hl.
      * destruct name_ as [n |]; [| reflexivity].
        apply String.eqb_eq. now apply Hn.
  - unfold API.filter_logs, API.clear_logs_storage. simpl.
    destruct level, name_; reflexivity.
Qed.

(** X12. With fuel for the queue, [collect_from_queue] moves every queued
    record to the end of the buffer, oldest first, and leaves the queue
    empty: no record is lost, repeated or reordered. Collecting again
    changes nothing. *)
Theorem collect_from_queue_moves_queue :
  forall (fuel : nat) (self : API.LogsStorage),
    (List.length (API.logs_queue self) < fuel)%nat ->
    exists collected,
      API.collect_from_queue fuel self = Some collected /\
      API.logs_queue collected = [] /\
      API.logs_storage collected
      = API.logs_storage self ++ API.logs_queue self /\
      API.collect_from_queue fuel collected = Some collected.
Proof.
  intros fuel self H.
  rewrite (APIFacts.collect_from_queue_spec fuel self H).
  eexists. split; [reflexivity |]. simpl. split; [reflexivity |].
  split; [reflexivity |].
  rewrite APIFacts.collect_from_queue_spec; simpl; [| lia].
  now rewrite app_nil_r.
Qed.

(** Three buffered records and two queued ones. *)
Lemma collect_from_queue_moves_queue_witness :
  exists collected,
    API.collect_from_queue 3 MoreExamples.busy_storage = Some collected /\
    API.logs_queue collected = [] /\
    API.logs_storage collected
    = API.logs_storage MoreExamples.busy_storage
      ++ API.logs_queue MoreExamples.busy_storage /\
    API.collect_from_queue 3 collected = Some collected.
Proof.
  apply (collect_from_queue_moves_queue 3 MoreExamples.busy_storage).
  simpl. lia.
Defined.

(** X13. Collecting never hides a record: what [has_log_record] finds
    without collecting it also finds with collecting. Once the queue has
    been collected the flag makes no difference, and a queue that was
    cleared instead contributes nothing: asking with the flag after
    [clear_logs_queue] gives the answer for the buffer alone. *)
Theorem collecting_never_hides_records :
  forall (fuel : nat) (message_pattern : Re.regex) (level : string)
         (self : API.LogsStorage),
    (List.length (API.logs_queue self) < fuel)%nat ->
    exists b0 b1 collected cleared,
      API.has_log_record fuel message_pattern level false self
      = Some (b0, self) /\
      API.has_log_record fuel message_pattern level true self
      = Some (b1, collected) /\
      (b0 = true -> b1 = true) /\
      API.has_log_record fuel message_pattern level false collected
      = Some (b1, collected) /\
      API.has_log_record fuel message_pattern level true collected
      = Some (b1, collected) /\
      API.clear_logs_queue fuel self = Some cleared /\
      API.has_log_record fuel message_pattern level true cleared
      = Some (b0, cleared).
Proof.
  intros fuel pattern level self H.
  unfold API.has_log_record.
  rewrite (APIFacts.collect_from_queue_spec fuel self H).
  rewrite (APIFacts.clear_logs_queue_spec fuel self H).
  do 4 eexists.
  split; [reflexivity |]. split; [reflexivity |]. split; [| split; [| split]].
  - rewrite !APIFacts.has_record_spec. simpl.
    intros (log & Hin & Hl & Hm). exists log.
    split; [apply in_or_app; now left | auto].
  - reflexivity.
  - rewrite APIFacts.collect_from_queue_spec; simpl; [| lia].
    rewrite app_nil_r. reflexivity.
  - split; [reflexivity |].
    rewrite APIFacts.collect_from_queue_spec; simpl; [| lia].
    rewrite app_nil_r. destruct self; reflexivity.
Qed.

(** The pattern [new_log1] at level INFO, found only in the queue. *)
Lemma collecting_never_hides_records_witness :
  exists b0 b1 collected cleared,
    API.has_log_record 3 (Re.literal "new_log1") "INFO" false
      MoreExamples.busy_storage
    = Some (b0, MoreExamples.busy_storage) /\
    API.has_log_record 3 (Re.literal "new_log1") "INFO" true
      MoreExamples.busy_storage
    = Some (b1, collected) /\
    (b0 = true -> b1 = true) /\
    API.has_log_record 3 (Re.literal "new_log1") "INFO" false collected
    = Some (b1, collected) /\
    API.has_log_record 3 (Re.literal "new_log1") "INFO" true collected
    = Some (b1, collected) /\
    API.clear_logs_queue 3 MoreExamples.busy_storage = Some cleared /\
    API.has_log_record 3 (Re.literal "new_log1") "INFO" true cleared
    = Some (b0, cleared).
Proof.
  apply (collecting_never_hides_records 3 (Re.literal "new_log1") "INFO"
           MoreExamples.busy_storage).
  simpl. lia.
Defined.

(** ** The application manager *)
Module AppFacts.
Import App.

Lemma existsb_filter {A} (f g : A -> bool) (l : list A) :
  existsb f (filter g l) = existsb (fun x => g x && f x) l.
Proof.
  induction l as [| x l IH]; simpl; [reflexivity |].
  destruct (g x); simpl; now rewrite IH.
Qed.

(** One call of [has_info_log_record] with collecting, on a storage given
    fuel for its queue. *)
Lemma has_info_collect (self : API.LogsStorage) :
  API.has_info_log_record (S (List.length (API.logs_queue self)))
    serving_pattern true self
  = Some (existsb announces (API.logs_storage self ++ API.logs_queue self),
          {| API.logs_queue := [];
             API.logs_storage :=
               API.logs_storage self ++ API.logs_queue self |}).
Proof.
  unfold API.has_info_log_record, API.has_log_record.
  rewrite APIFacts.collect_from_queue_spec; [| lia].
  unfold API.filter_logs. simpl. rewrite existsb_filter. reflexivity.
Qed.

Section Schedule.

Variable clock : nat -> Z.
Variable emitted : nat -> list API.LogRecord.

Lemma received_next w q j :
  received emitted w (S j)
  = emitted (queue_reads w)
    ++ received emitted
         {| trace := trace w;
            server_log_queue := q;
            clock_reads := S (clock_reads w);
            queue_reads := S (queue_reads w) |} j.
Proof.
  unfold received. simpl. reflexivity.
Qed.

Lemma received_one w : received emitted w 1 = emitted (queue_reads w).
Proof. unfold received. simpl. apply app_nil_r. Qed.

Lemma received_none w : received emitted w 0 = [].
Proof. reflexivity. Qed.

Lemma wait_serving_step fuel name start timeout buffer w :
  wait_serving clock emitted (S fuel) name start timeout buffer w =
  if (clock (clock_reads w) - start <? timeout)%Z then
    match API.has_info_log_record
            (S (List.length
                  (API.logs_queue
                     {| API.logs_queue :=
                          server_log_queue w ++ emitted (queue_reads w);
                        API.logs_storage := buffer |})))
            serving_pattern true
            {| API.logs_queue := server_log_queue w ++ emitted (queue_reads w);
               API.logs_storage := buffer |} with
    | None => None
    | Some (found, logs_storage') =>
        if found then
          Some (Ok (API.logs_storage logs_storage'),
                {| trace := trace w;
                   server_log_queue := API.logs_queue logs_storage';
                   clock_reads := S (clock_reads w);
                   queue_reads := S (queue_reads w) |})
        else wait_serving clock emitted fuel name start timeout
               (API.logs_storage logs_storage')
               {| trace := trace w;
                  server_log_queue := API.logs_queue logs_storage';
                  clock_reads := S (clock_reads w);
                  queue_reads := S (queue_reads w) |}
    end
  else
    Some (Err (TimeoutError name timeout
                 (errors_traces_of
                    (map API.message
                       (API.filter_logs (Some "ERROR") None
                          {| API.logs_queue := server_log_queue w;
                             API.logs_storage := buffer |})))),
          {| trace := trace w;
             server_log_queue := server_log_queue w;
             clock_reads := S (clock_reads w);
             queue_reads := queue_reads w |}).
Proof. reflexivity. Qed.

Lemma wait_serving_found : forall k fuel name start timeout buffer w,
  (k < fuel)%nat ->
  server_log_queue w = [] ->
  (forall j, (j <= k)%nat ->
     (clock (clock_reads w + j) - start < timeout)%Z) ->
  existsb announces (buffer ++ received emitted w (S k)) = true ->
  exists j w',
    (j <= k)%nat /\
    wait_serving clock emitted fuel name start timeout buffer w
    = Some (Ok (buffer ++ received emitted w (S j)), w') /\
    server_log_queue w' = [] /\
    trace w' = trace w.
Proof.
  induction k as [| k IH]; intros fuel name start timeout buffer w Hf Hq Hc Hx;
    (destruct fuel as [| fuel]; [lia |]); rewrite wait_serving_step.
  - pose proof (Hc 0%nat (Nat.le_refl _)) as H0.
    rewrite Nat.add_0_r in H0. apply Z.ltb_lt in H0. rewrite H0.
    rewrite has_info_collect. cbn [API.logs_queue API.logs_storage].
    rewrite Hq. cbn [app].
    rewrite received_one in Hx. rewrite Hx.
    exists 0%nat. eexists. split; [lia |]. rewrite received_one.
    split; [reflexivity |]. simpl. auto.
  - pose proof (Hc 0%nat (Nat.le_0_l _)) as H0.
    rewrite Nat.add_0_r in H0. apply Z.ltb_lt in H0. rewrite H0.
    rewrite has_info_collect. cbn [API.logs_queue API.logs_storage].
    rewrite Hq. cbn [app].
    destruct (existsb announces (buffer ++ emitted (queue_reads w))) eqn:F.
    + exists 0%nat. eexists. split; [lia |].
      rewrite received_one.
      split; [reflexivity |]. simpl. auto.
    + match goal with
      | |- context [wait_serving clock emitted fuel name start timeout ?b ?w0] =>
          destruct (IH fuel name start timeout b w0)
            as (j & w' & Hj & Hw & Hq' & Ht)
      end.
      * lia.
      * reflexivity.
      * cbn [clock_reads]. intros j Hj.
        replace (S (clock_reads w) + j)%nat
          with (clock_reads w + S j)%nat by lia. apply Hc. lia.
      * rewrite <- app_assoc.
        rewrite (received_next w [] (S k)) in Hx. exact Hx.
      * exists (S j), w'. split; [lia |].
        rewrite Hw. rewrite <- app_assoc.
        rewrite (received_next w [] (S j)).
        split; [reflexivity |]. split; [exact Hq' | exact Ht].
Qed.

Lemma wait_serving_timeout : forall k fuel name start timeout buffer w,
  (k < fuel)%nat ->
  server_log_queue w = [] ->
  (forall j, (j < k)%nat ->
     (clock (clock_reads w + j) - start < timeout)%Z) ->
  existsb announces (buffer ++ received emitted w k) = false ->
  ~ (clock (clock_reads w + k) - start < timeout)%Z ->
  exists w',
    wait_serving clock emitted fuel name start timeout buffer w
    = Some (Err (TimeoutError name timeout
                   (errors_traces_of
                      (map API.message
                         (filter
                            (fun log => String.eqb (API.levelname log) "ERROR")
                            (buffer ++ received emitted w k))))),
            w') /\
    trace w' = trace w.
Proof.
  induction k as [| k IH]; intros fuel name start timeout buffer w Hf Hq Hc Hx Hl;
    (destruct fuel as [| fuel]; [lia |]); rewrite wait_serving_step.
  - rewrite Nat.add_0_r in Hl. apply Z.ltb_nlt in Hl. rewrite Hl.
    rewrite received_none, app_nil_r.
    eexists. split; [reflexivity |]. reflexivity.
  - pose proof (Hc 0%nat (Nat.lt_0_succ _)) as H0.
    rewrite Nat.add_0_r in H0. apply Z.ltb_lt in H0. rewrite H0.
    rewrite has_info_collect. cbn [API.logs_queue API.logs_storage].
    rewrite Hq. cbn [app].
    rewrite (received_next w [] k) in Hx.
    rewrite app_assoc in Hx.
    assert (F : existsb announces (buffer ++ emitted (queue_reads w)) = false).
    { rewrite existsb_app in Hx. now apply orb_false_iff in Hx as [Hx _]. }
    rewrite F.
    match goal with
    | |- context [wait_serving clock emitted fuel name start timeout ?b ?w0] =>
        destruct (IH fuel name start timeout b w0) as (w' & Hw & Ht)
    end.
    + lia.
    + reflexivity.
    + cbn [clock_reads]. intros j Hj.
      replace (S (clock_reads w) + j)%nat
        with (clock_reads w + S j)%nat by lia. apply Hc. lia.
    + exact Hx.
    + cbn [clock_reads]. replace (S (clock_reads w) + k)%nat
        with (clock_reads w + S k)%nat by lia. exact Hl.
    + exists w'. rewrite Hw. rewrite (received_next w [] k).
      rewrite <- app_assoc. split; [reflexivity | exact Ht].
Qed.

End Schedule.

End AppFacts.

(** X14. If by the poll number [k] the application has logged a record at
    level INFO whose message matches [.*Start serving on.*], and every poll
    up to that one reads the clock before the timeout has elapsed, then the
    manager hands over to the caller's block with an empty queue: every
    record received until the detecting poll has been taken off it. When
    the block ends, by return or by exception, the manager is shut down and
    the application is terminated and then joined, and the block's outcome
    is passed on. *)
Theorem application_manager_serving :
  forall (clock : nat -> Z) (emitted : nat -> list API.LogRecord)
         (A : Type) (fuel k : nat) (cls_repr : string)
         (server_start_timeout_sec : Z) (body : App.M A) (w : App.world),
    (k < fuel)%nat ->
    (forall j, (j <= k)%nat ->
       (clock (S (App.clock_reads w) + j)%nat - clock (App.clock_reads w)
        < server_start_timeout_sec)%Z) ->
    existsb App.announces (App.received emitted w (S k)) = true ->
    exists w_yield,
      App.server_log_queue w_yield = [] /\
      App.trace w_yield
      = App.trace w ++ [App.ManagerStarted; App.QueueCreated;
                        App.AppStarted (App.app_name_of cls_repr)] /\
      forall r w',
        body w_yield = Some (r, w') ->
        App.NDA_application_manager clock emitted fuel cls_repr
          server_start_timeout_sec body w
        = Some (r, App.shut_down (App.app_name_of cls_repr) w') /\
        App.trace (App.shut_down (App.app_name_of cls_repr) w')
        = App.trace w' ++ [App.ManagerShutdown;
                           App.AppTerminated (App.app_name_of cls_repr);
                           App.AppJoined (App.app_name_of cls_repr)].
Proof.
  intros clock emitted A fuel k cls timeout body w Hf Hc Hx.
  unfold App.NDA_application_manager.
  match goal with
  | |- context [App.wait_serving clock emitted fuel ?n ?s ?t [] ?w0] =>
      destruct (AppFacts.wait_serving_found clock emitted k fuel n s t [] w0)
        as (j & w5 & Hj & Hw & Hq & Ht)
  end.
  - assumption.
  - reflexivity.
  - exact Hc.
  - exact Hx.
  - exists w5. split; [exact Hq |].
    split; [rewrite Ht; simpl; rewrite <- !app_assoc; reflexivity |].
    intros r w' Hb. rewrite Hw, Hb. split; [reflexivity |].
    unfold App.shut_down, App.emit. simpl. rewrite <- !app_assoc.
    reflexivity.
Qed.

(** The application that announces itself at the second poll, with a
    timeout of five ticks and a block that does nothing. *)
Lemma application_manager_serving_witness :
  exists w_yield,
    App.server_log_queue w_yield = [] /\
    App.trace w_yield
    = App.trace App.initial_world
      ++ [App.ManagerStarted; App.QueueCreated;
          App.AppStarted (App.app_name_of "<class 'App'>")] /\
    forall r w',
      AppExamples.pass w_yield = Some (r, w') ->
      App.NDA_application_manager Examples.ticking AppExamples.serving_app
        5 "<class 'App'>" 5 AppExamples.pass App.initial_world
      = Some (r, App.shut_down (App.app_name_of "<class 'App'>") w') /\
      App.trace (App.shut_down (App.app_name_of "<class 'App'>") w')
      = App.trace w' ++ [App.ManagerShutdown;
                         App.AppTerminated (App.app_name_of "<class 'App'>");
                         App.AppJoined (App.app_name_of "<class 'App'>")].
Proof.
  apply (application_manager_serving Examples.ticking AppExamples.serving_app
           unit 5 1 "<class 'App'>" 5 AppExamples.pass App.initial_world).
  - lia.
  - intros j Hj. unfold Examples.ticking. simpl App.clock_reads. lia.
  - vm_compute. reflexivity.
Defined.

(** X15. If the deadline passes at the poll number [k] and no record
    received by the earlier polls announces the start, the manager raises
    [TimeoutError] naming the application and carrying the messages of the
    records at level ERROR received so far, in order and joined by a line
    of three stars, or [<empty>] when there is none. The caller's block is
    not entered, and the manager is shut down and the application
    terminated and joined all the same. *)
Theorem application_manager_times_out :
  forall (clock : nat -> Z) (emitted : nat -> list API.LogRecord)
         (A : Type) (fuel k : nat) (cls_repr : string)
         (server_start_timeout_sec : Z) (body : App.M A) (w : App.world),
    (k < fuel)%nat ->
    (forall j, (j < k)%nat ->
       (clock (S (App.clock_reads w) + j)%nat - clock (App.clock_reads w)
        < server_start_timeout_sec)%Z) ->
    existsb App.announces (App.received emitted w k) = false ->
    ~ (clock (S (App.clock_reads w) + k)%nat - clock (App.clock_reads w)
       < server_start_timeout_sec)%Z ->
    exists w',
      App.NDA_application_manager clock emitted fuel cls_repr
        server_start_timeout_sec body w
      = Some (App.Err
                (App.TimeoutError (App.app_name_of cls_repr)
                   server_start_timeout_sec
                   (App.errors_traces_of
                      (map API.message
                         (filter
                            (fun log =>
                               String.eqb (API.levelname log) "ERROR")
                            (App.received emitted w k))))),
              w') /\
      App.trace w'
      = App.trace w
        ++ [App.ManagerStarted; App.QueueCreated;
            App.AppStarted (App.app_name_of cls_repr);
            App.ManagerShutdown;
            App.AppTerminated (App.app_name_of cls_repr);
            App.AppJoined (App.app_name_of cls_repr)] /\
      App.errors_traces_of [] = "<empty>".
Proof.
  intros clock emitted A fuel k cls timeout body w Hf Hc Hx Hl.
  unfold App.NDA_application_manager.
  match goal with
  | |- context [App.wait_serving clock emitted fuel ?n ?s ?t [] ?w0] =>
      destruct (AppFacts.wait_serving_timeout clock emitted k fuel n s t [] w0)
        as (w5 & Hw & Ht)
  end.
  - assumption.
  - reflexivity.
  - exact Hc.
  - exact Hx.
  - exact Hl.
  - rewrite Hw. eexists. split; [reflexivity |]. split; [| reflexivity].
    unfold App.shut_down, App.emit. simpl. rewrite Ht. simpl.
    rewrite <- !app_assoc. reflexivity.
Qed.

(** The application that logs two errors and never serves. *)
Lemma application_manager_times_out_witness :
  exists w',
    App.NDA_application_manager Examples.ticking AppExamples.failing_app
      10 "<class 'App'>" 5 AppExamples.pass App.initial_world
    = Some (App.Err
              (App.TimeoutError (App.app_name_of "<class 'App'>") 5
                 (App.errors_traces_of
                    (map API.message
                       (filter
                          (fun log => String.eqb (API.levelname log) "ERROR")
                          (App.received AppExamples.failing_app
                             App.initial_world 4))))),
            w') /\
    App.trace w'
    = App.trace App.initial_world
      ++ [App.ManagerStarted; App.QueueCreated;
          App.AppStarted (App.app_name_of "<class 'App'>");
          App.ManagerShutdown;
          App.AppTerminated (App.app_name_of "<class 'App'>");
          App.AppJoined (App.app_name_of "<class 'App'>")] /\
    App.errors_traces_of [] = "<empty>".
Proof.
  apply (application_manager_times_out Examples.ticking
           AppExamples.failing_app unit 10 4 "<class 'App'>" 5
           AppExamples.pass App.initial_world).
  - lia.
  - intros j Hj. unfold Examples.ticking. simpl App.clock_reads. lia.
  - vm_compute. reflexivity.
  - unfold Examples.ticking. simpl App.clock_reads. lia.
Defined.

Module PatternFacts.
Import Re.

Lemma lang_star_dot a : lang (Star Dot) a <-> App.one_line a = true.
Proof.
  split.
  - intros H. remember (Star Dot) as r eqn:E. induction H; try discriminate.
    + reflexivity.
    + inversion E; subst. inversion H; subst. simpl.
      rewrite IHlang2; [| reflexivity].
      match goal with K : dot_accepts _ = true |- _ => now rewrite K end.
  - induction a as [| c a IH]; simpl; intros H.
    + constructor.
    + apply andb_true_iff in H as [Hc Ha].
      change (String c a) with (String c "" ++ a)%string.
      constructor; [now constructor | auto].
Qed.

Lemma lang_then_literal t r : forall s,
  lang (App.then_literal t r) s <->
  exists s', s = (t ++ s')%string /\ lang r s'.
Proof.
  induction t as [| c t IH]; intros s; simpl.
  - split; [intros H; now exists s | intros (s' & -> & H); exact H].
  - split.
    + intros H. inversion H; subst.
      match goal with K : lang (Chr c) _ |- _ => inversion K; subst end.
      match goal with K : lang (App.then_literal t r) _ |- _ =>
        apply IH in K as (s' & -> & Hr) end.
      exists s'. auto.
    + intros (s' & -> & Hr).
      change (String c (t ++ s')) with (String c "" ++ (t ++ s'))%string.
      constructor; [constructor |]. apply IH. eauto.
Qed.

Lemma serving_pattern_shape :
  App.serving_pattern
  = Cat (Star Dot)
      (App.then_literal "Start serving on" (Cat (Star Dot) Eps)).
Proof. reflexivity. Qed.

End PatternFacts.

(** X16. A record counts as the start announcement exactly when its level
    is INFO and its message has the text [Start serving on] preceded, on
    the same line, by anything: a message whose first line lacks the text
    is not an announcement even if a later line has it. *)
Theorem announcement_on_first_line :
  forall (log : API.LogRecord),
    App.announces log = true <->
    API.levelname log = "INFO" /\
    exists a b,
      API.message log = (a ++ "Start serving on" ++ b)%string /\
      App.one_line a = true.
Proof.
  intros log. unfold App.announces.
  rewrite andb_true_iff, String.eqb_eq, ReFacts.match_prefix.
  rewrite PatternFacts.serving_pattern_shape.
  split; intros [Hl H]; (split; [exact Hl |]).
  - destruct H as (p & q & E & H).
    inversion H as [| | | r1 r2 s1 s2 H1 H2 | | | |]; subst.
    apply PatternFacts.lang_star_dot in H1.
    apply (PatternFacts.lang_then_literal "Start serving on") in H2
      as (s' & -> & _).
    exists s1, (s' ++ q)%string. split; [| assumption].
    rewrite E, !ReFacts.append_assoc. reflexivity.
  - destruct H as (a & b & E & Ha).
    exists (a ++ "Start serving on")%string, b. split.
    + rewrite E. rewrite ReFacts.append_assoc. reflexivity.
    + constructor; [now apply PatternFacts.lang_star_dot |].
      apply PatternFacts.lang_then_literal. exists "". split.
      * reflexivity.
      * change "" with ("" ++ "")%string. constructor; constructor.
Qed.

(** ** The assertion helpers *)
Module AssertsFacts.
Import Schema Asserts.

Lemma kw_set_fresh k m : forall d,
  ~ In k (map fst d) -> kw_set k m d = d ++ [(k, m)].
Proof.
  induction d as [| [k' m'] d IH]; simpl; intros H; [reflexivity |].
  destruct (String.eqb_spec k' k) as [-> | Hne].
  - exfalso. apply H. now left.
  - rewrite IH; [reflexivity |]. intros Hin. apply H. now right.
Qed.

(** Keywords that do not repeat a preset one are added after the presets. *)
Lemma kw_update_disjoint : forall extra base,
  NoDup (map fst extra) ->
  (forall k, In k (map fst extra) -> ~ In k (map fst base)) ->
  kw_update base extra = base ++ extra.
Proof.
  unfold kw_update.
  induction extra as [| [k m] extra IH]; simpl; intros base N D.
  - now rewrite app_nil_r.
  - inversion N as [| ? ? Hk N']; subst.
    rewrite kw_set_fresh; [| apply D; now left].
    rewrite IH; [now rewrite <- app_assoc | assumption |].
    intros k' Hk' Hin. rewrite map_app, in_app_iff in Hin. simpl in Hin.
    destruct Hin as [Hin | [E | []]].
    + apply (D k'); [now right | assumption].
    + subst k'. contradiction.
Qed.

Lemma dict_set_fresh k v : forall d,
  ~ In k (dict_keys d) -> GRPC.dict_set k v d = d ++ [(k, v)].
Proof.
  unfold dict_keys.
  induction d as [| [k' v'] d IH]; simpl; intros H; [reflexivity |].
  destruct (String.eqb_spec k' k) as [-> | Hne].
  - exfalso. apply H. now left.
  - rewrite IH; [reflexivity |]. intros Hin. apply H. now right.
Qed.

Lemma accepts_any_text v :
  accepts (regex_of ".*") v = true <-> exists s, v = VStr s.
Proof.
  destruct v as [s | z]; simpl.
  - split; [eauto | intros _]. destruct s; reflexivity.
  - split; [discriminate | intros (s & E); discriminate].
Qed.

Lemma starts_with_char c d s :
  starts_with (String c "") (String d s) = Ascii.eqb c d.
Proof. simpl. apply andb_true_r. Qed.

Lemma free_of_app c : forall a b,
  free_of c (a ++ b) = free_of c a && free_of c b.
Proof.
  induction a as [| d a IH]; intros b; simpl; [reflexivity |].
  now rewrite IH, andb_assoc.
Qed.

(** Splitting at a one-character separator. *)
Lemma split_char_piece c rest : forall p cur,
  free_of c p = true ->
  split_from (String c "") (p ++ String c rest) cur 0
  = (cur ++ p)%string :: split_from (String c "") rest "" 0.
Proof.
  induction p as [| d p IH]; intros cur H.
  - cbn [append split_from]. rewrite starts_with_char, Ascii.eqb_refl.
    now rewrite ReFacts.append_nil_r.
  - simpl in H. apply andb_true_iff in H as [Hd Hp].
    apply negb_true_iff in Hd.
    cbn [append split_from]. rewrite starts_with_char, Hd.
    rewrite IH; [| assumption]. now rewrite ReFacts.append_assoc.
Qed.

Lemma split_char_last c : forall p cur,
  free_of c p = true ->
  split_from (String c "") p cur 0 = [(cur ++ p)%string].
Proof.
  induction p as [| d p IH]; intros cur H.
  - simpl. now rewrite ReFacts.append_nil_r.
  - simpl in H. apply andb_true_iff in H as [Hd Hp].
    apply negb_true_iff in Hd.
    cbn [split_from]. rewrite starts_with_char, Hd.
    rewrite IH; [| assumption]. now rewrite ReFacts.append_assoc.
Qed.

Lemma split_char_join c : forall pieces,
  pieces <> [] ->
  Forall (fun p => free_of c p = true) pieces ->
  split_from (String c "") (String.concat (String c "") pieces) "" 0 = pieces.
Proof.
  induction pieces as [| p pieces IH]; intros Hne F; [contradiction |].
  inversion F as [| ? ? Hp F']; subst.
  destruct pieces as [| q pieces].
  - simpl. now apply split_char_last.
  - change (String.concat (String c "") (p :: q :: pieces))
      with (p ++ String c (String.concat (String c "") (q :: pieces)))%string.
    rewrite split_char_piece; [| assumption].
    rewrite IH; [reflexivity | discriminate | assumption].
Qed.

Lemma split_once_char c v : forall k cur,
  free_of c k = true ->
  split_once_from (String c "") (k ++ String c v) cur = [(cur ++ k)%string; v].
Proof.
  induction k as [| d k IH]; intros cur H.
  - cbn [append split_once_from]. rewrite starts_with_char, Ascii.eqb_refl.
    simpl. now rewrite ReFacts.append_nil_r.
  - simpl in H. apply andb_true_iff in H as [Hd Hk].
    apply negb_true_iff in Hd.
    cbn [append split_once_from]. rewrite starts_with_char, Hd.
    rewrite IH; [| assumption]. now rewrite ReFacts.append_assoc.
Qed.

(** Without the separator there is one piece, with it there are two. *)
Lemma split_once_from_pieces sep : forall s cur,
  sep <> "" ->
  (contains sep s = false /\ split_once_from sep s cur = [(cur ++ s)%string]) \/
  (contains sep s = true /\ exists a b, split_once_from sep s cur = [a; b]).
Proof.
  induction s as [| c s IH]; intros cur Hne.
  - left. destruct sep; [contradiction |]. simpl.
    now rewrite ReFacts.append_nil_r.
  - cbn [contains split_once_from].
    destruct (starts_with sep (String c s)) eqn:E.
    + right. split; [reflexivity | eauto].
    + destruct (IH (cur ++ String c "")%string Hne) as [[C S] | [C S]].
      * left. split; [exact C |]. rewrite S.
        now rewrite ReFacts.append_assoc.
      * right. split; [exact C | exact S].
Qed.

Lemma split_from_nonempty sep : forall s cur skip,
  split_from sep s cur skip <> [].
Proof.
  induction s as [| c s IH]; intros cur skip; simpl; [discriminate |].
  destruct skip; [| apply IH].
  destruct (starts_with sep (String c s)); [discriminate | apply IH].
Qed.

(** The loop fails exactly on a piece without the key-value separator, and
    with no other error than [ValueError]. *)
Lemma parse_items_spec kv : forall pieces items,
  kv <> "" ->
  ((exists piece, In piece pieces /\ contains kv piece = false) /\
   parse_items pieces kv items = Err ValueError) \/
  ((forall piece, In piece pieces -> contains kv piece = true) /\
   exists parsed, parse_items pieces kv items = Ok parsed).
Proof.
  induction pieces as [| p pieces IH]; intros items Hne.
  - right. split; [intros ? [] | simpl; eauto].
  - cbn [parse_items]. unfold split_once.
    destruct kv as [| c kv']; [contradiction |].
    destruct (split_once_from_pieces (String c kv') p "" Hne)
      as [[C S] | [C (a & b & S)]]; rewrite S.
    + left. split; [exists p; split; [now left | exact C] | reflexivity].
    + destruct (IH (GRPC.dict_set a (VStr b) items) Hne)
        as [[(q & Hq & Cq) E] | [A (parsed & E)]].
      * left. split; [exists q; split; [now right | exact Cq] | exact E].
      * right. split; [| exists parsed; exact E].
        intros q [<- | Hq]; [exact C | now apply A].
Qed.

Lemma parse_items_line c2 : forall items acc,
  Forall (fun item => free_of c2 (fst item) = true) items ->
  parse_items
    (map (fun item => (fst item ++ String c2 "" ++ snd item)%string) items)
    (String c2 "") acc
  = Ok (fold_left (fun d item => GRPC.dict_set (fst item) (VStr (snd item)) d)
          items acc).
Proof.
  induction items as [| [k v] items IH]; intros acc F; [reflexivity |].
  inversion F as [| ? ? Hk F']; subst. simpl in Hk.
  cbn [map parse_items fst snd fold_left]. unfold split_once.
  change (k ++ String c2 "" ++ v)%string with (k ++ String c2 v)%string.
  rewrite split_once_char; [| assumption]. cbn [append].
  now apply IH.
Qed.

Lemma fold_dict_set_fresh : forall (items : list (string * string)) acc,
  NoDup (map fst items) ->
  (forall k, In k (map fst items) -> ~ In k (dict_keys acc)) ->
  fold_left (fun d item => GRPC.dict_set (fst item) (VStr (snd item)) d)
    items acc
  = acc ++ HTTP.to_dict items.
Proof.
  induction items as [| [k v] items IH]; simpl; intros acc N D.
  - now rewrite app_nil_r.
  - inversion N as [| ? ? Hk N']; subst.
    rewrite dict_set_fresh; [| apply D; now left].
    rewrite IH; [now rewrite <- app_assoc | assumption |].
    intros k' Hk' Hin. unfold dict_keys in Hin.
    rewrite map_app, in_app_iff in Hin. simpl in Hin.
    destruct Hin as [Hin | [E | []]].
    + apply (D k'); [now right | assumption].
    + subst k'. contradiction.
Qed.

End AssertsFacts.

(** X17. [assert_equal_dicts] on a flat dictionary: with keyword names that
    differ from one another it returns exactly when every keyword is a key
    of the actual dictionary with a value its expected value accepts and,
    unless [_ignore_extra_keys] is set, the actual dictionary has no other
    key. In every other case, and when the actual value is [None] instead
    of a dictionary, it raises [AssertionError] and nothing else. *)
Theorem assert_equal_dicts_checks_keys :
  forall (_ignore_extra_keys : bool)
         (expected : list (string * Schema.matcher)) (actual : pydict),
    NoDup (map fst expected) ->
    NoDup (dict_keys actual) ->
    (Asserts.assert_equal_dicts (DDict actual) _ignore_extra_keys expected
     = Asserts.Ok tt <->
     Schema.keys_match _ignore_extra_keys expected actual) /\
    (Asserts.assert_equal_dicts (DDict actual) _ignore_extra_keys expected
     = Asserts.Err Asserts.AssertionError <->
     ~ Schema.keys_match _ignore_extra_keys expected actual) /\
    Asserts.assert_equal_dicts DNone _ignore_extra_keys expected
    = Asserts.Err Asserts.AssertionError.
Proof.
  intros flag expected actual Ne Na.
  pose proof (SchemaFacts.validate_dict_literal flag expected actual Ne Na) as V.
  unfold Asserts.assert_equal_dicts. simpl.
  destruct (Schema.validate_dict flag (Schema.literal_dict expected) actual).
  - split; [| split; [| reflexivity]].
    + split; [intros _; now apply V | reflexivity].
    + split; [discriminate | intros H; exfalso; apply H; now apply V].
  - split; [| split; [| reflexivity]].
    + split; [discriminate | intros H; apply V in H; discriminate].
    + split; [| reflexivity]. intros _ H. apply V in H. discriminate.
Qed.

(** [assert_equal_dicts({"a": 1}, a=1)]. *)
Lemma assert_equal_dicts_checks_keys_witness :
  Asserts.assert_equal_dicts (DDict [("a", VInt 1)]) false
    [("a", Schema.Lit (VInt 1))]
  = Asserts.Ok tt <->
  Schema.keys_match false [("a", Schema.Lit (VInt 1))] [("a", VInt 1)].
Proof.
  assert (Ne : NoDup (map fst [("a", Schema.Lit (VInt 1))])).
  { repeat constructor. simpl. tauto. }
  assert (Na : NoDup (dict_keys [("a", VInt 1)])).
  { repeat constructor. simpl. tauto. }
  destruct (assert_equal_dicts_checks_keys false
              [("a", Schema.Lit (VInt 1))] [("a", VInt 1)] Ne Na) as [H _].
  exact H.
Defined.

(** X18. [assert_equalapi_response], called with keywords other than [qid]
    and [api_version], returns exactly when the response has a [qid] that
    is a string, an [api_version] equal to ["1.0"], every given keyword
    with an accepted value and, unless extra keys are ignored, no key
    besides these. *)
Theorem api_response_needs_qid_and_version :
  forall (_ignore_extra_keys : bool)
         (expected : list (string * Schema.matcher)) (actual : pydict),
    NoDup (map fst expected) ->
    ~ In "qid" (map fst expected) ->
    ~ In "api_version" (map fst expected) ->
    NoDup (dict_keys actual) ->
    (Asserts.assert_equalapi_response (DDict actual) _ignore_extra_keys
       expected = Asserts.Ok tt <->
     (exists s, dict_get actual "qid" = Some (VStr s)) /\
     dict_get actual "api_version" = Some (VStr "1.0") /\
     (forall k m, In (k, m) expected ->
        exists v, dict_get actual k = Some v /\ Schema.accepts m v = true) /\
     (_ignore_extra_keys = false ->
      forall k, In k (dict_keys actual) <->
                k = "qid" \/ k = "api_version" \/ In k (map fst expected))).
Proof.
  intros flag expected actual Ne Hq Hv Na.
  unfold Asserts.assert_equalapi_response.
  rewrite AssertsFacts.kw_update_disjoint; [| assumption |].
  2:{ intros k Hk [E | [E | []]]; simpl in E; subst k; contradiction. }
  assert (N : NoDup (map fst
                       ([("qid", Schema.regex_of ".*");
                         ("api_version", Schema.Lit (VStr "1.0"))]
                        ++ expected))).
  { simpl. constructor.
    - simpl. intros [E | H]; [discriminate | contradiction].
    - constructor; assumption. }
  pose proof (SchemaFacts.validate_dict_literal flag _ actual N Na) as V.
  unfold Asserts.assert_equal_dicts. cbn [Schema.is_valid].
  match goal with
  | |- (if ?b then _ else _) = _ <-> _ =>
      assert (H : (if b then Asserts.Ok tt
                   else Asserts.Err Asserts.AssertionError) = Asserts.Ok tt
                  <-> b = true)
        by (destruct b; split; auto; discriminate)
  end.
  rewrite H, V. clear H V. unfold Schema.keys_match. split.
  - intros [P Q]. split; [| split; [| split]].
    + destruct (P "qid" (Schema.regex_of ".*")) as (v & G & Acc);
        [now left |].
      apply AssertsFacts.accepts_any_text in Acc as (s & ->). eauto.
    + destruct (P "api_version" (Schema.Lit (VStr "1.0"))) as (v & G & Acc);
        [right; now left |].
      destruct v as [s | z]; [| discriminate Acc].
      change (String.eqb "1.0" s = true) in Acc.
      apply String.eqb_eq in Acc. now subst s.
    + intros k m Hin. apply P. right. now right.
    + intros Hf k. rewrite (Q Hf k). simpl. intuition.
  - intros ((s & Gq) & Gv & P & Q). split.
    + intros k m [E | [E | Hin]].
      * inversion E; subst. exists (VStr s). split; [exact Gq |].
        apply AssertsFacts.accepts_any_text. eauto.
      * inversion E; subst. exists (VStr "1.0"). split; [exact Gv | reflexivity].
      * now apply P.
    + intros Hf k. rewrite (Q Hf k). simpl. intuition.
Qed.

(** The response of [test_assert_equalapi_response], without its nested
    entry, checked for [foo="bar"]. *)
Lemma api_response_needs_qid_and_version_witness :
  Asserts.assert_equalapi_response
    (DDict [("qid", VStr "123"); ("api_version", VStr "1.0");
            ("foo", VStr "bar")])
    false [("foo", Examples.L "bar")]
  = Asserts.Ok tt.
Proof.
  apply (api_response_needs_qid_and_version false
           [("foo", Examples.L "bar")]
           [("qid", VStr "123"); ("api_version", VStr "1.0");
            ("foo", VStr "bar")]).
  - repeat constructor. simpl. tauto.
  - simpl. intuition discriminate.
  - simpl. intuition discriminate.
  - repeat constructor; simpl; intuition discriminate.
  - split; [exists "123"; reflexivity |].
    split; [reflexivity |]. split.
    + intros k m [E | []]. inversion E; subst.
      exists (VStr "bar"). split; reflexivity.
    + intros _ k. simpl. intuition.
Defined.

(** X19. [assert_equal_log_message] raises [ValueError], not
    [AssertionError], exactly when a separator is the empty string or some
    piece of the message has no key-value separator in it; an empty message
    is such a case whatever the separators and the expected values. *)
Theorem log_message_without_separator_is_value_error :
  forall (log_record : API.LogRecord)
         (_log_separator _log_kv_separator : string)
         (_ignore_extra_keys : bool)
         (expected_log : list (string * Schema.matcher)),
    (Asserts.assert_equal_log_message log_record _log_separator
       _log_kv_separator _ignore_extra_keys expected_log
     = Asserts.Err Asserts.ValueError <->
     _log_separator = "" \/ _log_kv_separator = "" \/
     exists piece,
       In piece
          (Asserts.split_from _log_separator (API.message log_record) "" 0) /\
       Asserts.contains _log_kv_separator piece = false) /\
    (API.message log_record = "" ->
     Asserts.assert_equal_log_message log_record _log_separator
       _log_kv_separator _ignore_extra_keys expected_log
     = Asserts.Err Asserts.ValueError).
Proof.
  intros record sep kv flag expected.
  assert (Main :
    Asserts.assert_equal_log_message record sep kv flag expected
    = Asserts.Err Asserts.ValueError <->
    sep = "" \/ kv = "" \/
    exists piece,
      In piece (Asserts.split_from sep (API.message record) "" 0) /\
      Asserts.contains kv piece = false).
  { unfold Asserts.assert_equal_log_message, Asserts.split.
    destruct sep as [| c sep'].
    - split; [auto | reflexivity].
    - set (pieces := Asserts.split_from (String c sep') (API.message record) "" 0).
      destruct kv as [| d kv'].
      + split; [auto | intros _].
        pose proof (AssertsFacts.split_from_nonempty (String c sep')
                      (API.message record) "" 0) as Hne.
        fold pieces in Hne. destruct pieces; [contradiction | reflexivity].
      + destruct (AssertsFacts.parse_items_spec (String d kv') pieces [])
          as [[Hex E] | [Hall (parsed & E)]]; [discriminate | |]; rewrite E.
        * split; [intros _; right; right; exact Hex | reflexivity].
        * split.
          -- unfold Asserts.assert_equal_dicts.
             destruct (Schema.is_valid flag _ _); discriminate.
          -- intros [H | [H | (piece & Hin & C)]]; try discriminate.
             rewrite (Hall piece Hin) in C. discriminate. }
  split; [exact Main |].
  intros Hm. apply Main. rewrite Hm.
  destruct sep as [| c sep']; [now left |].
  destruct kv as [| d kv']; [right; now left |].
  right. right. exists "". split; [simpl; now left | reflexivity].
Qed.

(** X20. A message written as [sep.join(f"{k}{kv}{v}" ...)] with two
    different one-character separators, from at least one item, with keys
    that differ from one another and contain neither separator and values
    that do not contain the item separator, is read back as the dictionary
    of those items: [assert_equal_log_message] on the record is
    [assert_equal_dicts] on that dictionary. *)
Theorem log_message_reads_back_items :
  forall (c1 c2 : ascii) (items : list (string * string))
         (log_record : API.LogRecord) (_ignore_extra_keys : bool)
         (expected_log : list (string * Schema.matcher)),
    c1 <> c2 ->
    items <> [] ->
    NoDup (map fst items) ->
    Forall (fun item =>
              Asserts.free_of c1 (fst item) = true /\
              Asserts.free_of c2 (fst item) = true /\
              Asserts.free_of c1 (snd item) = true) items ->
    API.message log_record
    = Asserts.log_line (String c1 "") (String c2 "") items ->
    Asserts.assert_equal_log_message log_record (String c1 "") (String c2 "")
      _ignore_extra_keys expected_log
    = Asserts.assert_equal_dicts (DDict (HTTP.to_dict items))
        _ignore_extra_keys expected_log.
Proof.
  intros c1 c2 items record flag expected Hc Hne N F Hm.
  unfold Asserts.assert_equal_log_message, Asserts.split.
  rewrite Hm. unfold Asserts.log_line.
  rewrite AssertsFacts.split_char_join.
  - rewrite AssertsFacts.parse_items_line.
    + rewrite AssertsFacts.fold_dict_set_fresh; [reflexivity | assumption |].
      intros k _ [].
    + eapply Forall_impl; [| exact F]. simpl. intuition.
  - destruct items; [contradiction | discriminate].
  - apply Forall_map. eapply Forall_impl; [| exact F].
    intros [k v] (H1 & H2 & H3). cbn [fst snd] in *.
    change (k ++ String c2 "" ++ v)%string with (k ++ String c2 v)%string.
    rewrite AssertsFacts.free_of_app, H1. cbn [Asserts.free_of andb].
    apply Ascii.eqb_neq in Hc. now rewrite Hc, H3.
Qed.

(** The message of [test_assert_equal_log_message], tab between the items
    and a colon inside them. *)
Lemma log_message_reads_back_items_witness :
  Asserts.assert_equal_log_message Asserts.sample_record Asserts.tab ":" true
    [("IP", Examples.L "127.0.0.1")]
  = Asserts.assert_equal_dicts (DDict (HTTP.to_dict Asserts.sample_items))
      true [("IP", Examples.L "127.0.0.1")].
Proof.
  apply (log_message_reads_back_items (ascii_of_nat 9) ":"%char
           Asserts.sample_items Asserts.sample_record true
           [("IP", Examples.L "127.0.0.1")]).
  - discriminate.
  - discriminate.
  - repeat constructor; simpl; intuition discriminate.
  - repeat constructor.
  - reflexivity.
Defined.

(** ** The spy wrapper *)
Module SpyFacts.
Import Spy.



End SpyFacts.



(** ** The spy wrapper around methods that call spied methods *)
Module NestedSpyFacts.
Import NestedSpy.

Lemma attrs_of_set {Val Exc} (none : Val) m (a : Attrs Val Exc) : forall d,
  attrs_of none m (set_attrs m a d) = a.
Proof.
  induction d as [| [m' a'] d IH]; simpl.
  - now rewrite Nat.eqb_refl.
  - destruct (Nat.eqb m' m) eqn:E; simpl; rewrite E; [reflexivity | exact IH].
Qed.

(** One call of a method that leaves the spy alone. *)
Lemma wrapper_quiet {Args Val Exc Obj} (none : Val) (m : nat)
  (method : method_type Args Val Exc Obj) (a : Args)
  (st : state Args Val Exc Obj) :
  quiet method ->
  exists c,
    calls (snd (wrapper none m method a st)) = calls st ++ [c] /\
    Spy.args c = a /\
    Spy.spy_obj c = m /\
    Spy.outcome c = fst (wrapper none m method a st).
Proof.
  intros Q. unfold wrapper.
  destruct (Spy.results_of m (mock_results (reset none m st)))
    as [[| v rest] |].
  - destruct (Q a (reset none m st)) as (Qc & _ & Qs).
    destruct (method a (reset none m st)) as [[v | e] st1];
      cbn [fst snd] in *; rewrite Qs, Qc; cbn [reset spies calls];
      rewrite attrs_of_set; eexists; (split; [reflexivity |]);
      cbn; auto.
  - eexists. split; [reflexivity |]. cbn. auto.
  - destruct (Q a (reset none m st)) as (Qc & _ & Qs).
    destruct (method a (reset none m st)) as [[v | e] st1];
      cbn [fst snd] in *; rewrite Qs, Qc; cbn [reset spies calls];
      rewrite attrs_of_set; eexists; (split; [reflexivity |]);
      cbn; auto.
Qed.

Lemma add_weight_quiet : quiet _add_weight.
Proof. intros a st. cbn. auto. Qed.

End NestedSpyFacts.

(** X21. The wrapper of a spied method records the call after the real
    method has run: the record of the call, with its arguments and its
    value or exception, comes last, behind the records of the spied calls
    the method itself has made. So [eat_feed], which calls the spied
    [_add_weight], leaves the record of [_add_weight] before its own. For
    a method that calls no spied method, a series of calls adds one record
    per call, with the arguments and outcomes in call order, and leaves the
    earlier records as they are. *)
Theorem spy_records_call_after_nested_calls :
  forall (Args Val Exc Obj : Type) (none : Val) (m : nat)
         (method : NestedSpy.method_type Args Val Exc Obj),
    (forall (a : Args) (st : NestedSpy.state Args Val Exc Obj),
       exists c,
         NestedSpy.calls (snd (NestedSpy.wrapper none m method a st))
         = NestedSpy.calls (NestedSpy.before_record none m method a st)
           ++ [c] /\
         Spy.args c = a /\
         Spy.spy_obj c = m /\
         (forall v, fst (NestedSpy.wrapper none m method a st) = inl v ->
                    Spy.result c = v) /\
         (forall e, fst (NestedSpy.wrapper none m method a st) = inr e ->
                    Spy.exc c = Some e)) /\
    (NestedSpy.quiet method ->
     forall (inputs : list Args) (st : NestedSpy.state Args Val Exc Obj),
       exists new,
         NestedSpy.calls (snd (NestedSpy.call_each none m method inputs st))
         = NestedSpy.calls st ++ new /\
         map Spy.args new = inputs /\
         map Spy.outcome new
         = fst (NestedSpy.call_each none m method inputs st) /\
         Forall (fun c => Spy.spy_obj c = m) new) /\
    map (fun c => (Spy.spy_obj c, Spy.args c))
      (NestedSpy.calls NestedSpy.meal)
    = [(1%nat, 3%Z); (2%nat, 60%Z); (1%nat, 100%Z); (1%nat, 5%Z);
       (2%nat, 100%Z)].
Proof.
  intros Args Val Exc Obj none m method. split; [| split; [| reflexivity]].
  - intros a st. unfold NestedSpy.wrapper, NestedSpy.before_record.
    change (NestedSpy.mock_results (NestedSpy.reset none m st))
      with (NestedSpy.mock_results st).
    destruct (Spy.results_of m (NestedSpy.mock_results st))
      as [[| v rest] |].
    + destruct (method a (NestedSpy.reset none m st)) as [[v | e] st1];
        cbn [fst snd]; eexists; (split; [reflexivity |]); cbn;
        repeat split; congruence.
    + cbn [fst snd]. eexists. split; [reflexivity |]. cbn.
      repeat split; congruence.
    + destruct (method a (NestedSpy.reset none m st)) as [[v | e] st1];
        cbn [fst snd]; eexists; (split; [reflexivity |]); cbn;
        repeat split; congruence.
  - intros Q. induction inputs as [| a inputs IH]; intros st.
    + exists []. simpl. rewrite app_nil_r. auto.
    + destruct (NestedSpyFacts.wrapper_quiet none m method a st Q)
        as (c & Hc & Ha & Ho & Hr).
      cbn [NestedSpy.call_each].
      destruct (NestedSpy.wrapper none m method a st) as [r st1] eqn:W.
      cbn [fst snd] in *.
      destruct (IH st1) as (new & Hn & Hargs & Hout & Hall).
      destruct (NestedSpy.call_each none m method inputs st1) as [rs st2] eqn:C.
      cbn [fst snd] in *.
      exists (c :: new). split; [| split; [| split]].
      * rewrite Hn, Hc, <- app_assoc. reflexivity.
      * simpl. now rewrite Ha, Hargs.
      * simpl. now rewrite Hr, Hout.
      * constructor; assumption.
Qed.

(** Two calls of [_add_weight], which calls no spied method. *)
Lemma spy_records_call_after_nested_calls_witness :
  exists new,
    NestedSpy.calls
      (snd (NestedSpy.call_each 0%Z 1 NestedSpy._add_weight [100%Z; 5%Z]
              NestedSpy.cat))
    = NestedSpy.calls NestedSpy.cat ++ new /\
    map Spy.args new = [100%Z; 5%Z] /\
    map Spy.outcome new
    = fst (NestedSpy.call_each 0%Z 1 NestedSpy._add_weight [100%Z; 5%Z]
             NestedSpy.cat) /\
    Forall (fun c => Spy.spy_obj c = 1%nat) new.
Proof.
  destruct (spy_records_call_after_nested_calls Z Z string Z 0%Z 1
              NestedSpy._add_weight) as (_ & H & _).
  apply (H NestedSpyFacts.add_weight_quiet [100%Z; 5%Z] NestedSpy.cat).
Defined.
